(** * Scientific calculator: tokenizer, shunting-yard converter, postfix evaluator

    A shallow embedding of the expression pipeline of [script.js]
    ([tokenize], [parseAndEvaluate], [evaluatePostfix], [applyOperator],
    [factorial]) and the properties its specification states about it,
    followed by the handlers of the page (input, memory, history) and by
    properties of the code beyond the specification: the pipeline on
    written expression trees, the tokens and the parentheses, the inputs
    that fail, the size of factorials, and the history.

    Numbers are IEEE-754 binary64 values, as in JavaScript: Rocq's primitive
    [float].  Strings are byte strings holding the UTF-8 encoding of the
    JavaScript string; every character the tokenizer looks for is ASCII except
    the constant symbol pi, two bytes in UTF-8, which never occur inside the
    encoding of another character. *)

From Stdlib Require Import ZArith List String Ascii Bool Floats Lia.
Import ListNotations.

Local Open Scope string_scope.
Local Open Scope list_scope.

(** ** Host numbers *)

Module Js.

(** [Math.PI] and [Math.E], the doubles nearest to the two constants. *)
Definition Math_PI : float := 0x1.921fb54442d18p+1%float.
Definition Math_E : float := 0x1.5bf0a8b145769p+1%float.

(** The double nearest to the quotient [m / d] of two integers, [0 <= m] and
    [0 < d], ties to even: the value of a decimal literal with digits [m] and
    [d] a power of ten. *)
Definition round_div (m d : Z) : float :=
  if (m =? 0)%Z then 0%float
  else
    let '(q, e, l) := SFdiv_core_binary prec emax m 0 d 0 in
    SF2Prim (binary_round_aux prec emax false q e l).

(** The [%] of two numbers (ECMAScript [Number::remainder]): exact, with the
    sign of the dividend. *)
Definition rem (n d : float) : float :=
  match Prim2SF n, Prim2SF d with
  | S754_nan, _ | _, S754_nan => nan
  | S754_infinity _, _ => nan
  | _, S754_zero _ => nan
  | _, S754_infinity _ => n
  | S754_zero _, _ => n
  | S754_finite sn mn en, S754_finite _ md ed =>
      let e := Z.min en ed in
      let a := (Zpos mn * 2 ^ (en - e))%Z in
      let b := (Zpos md * 2 ^ (ed - e))%Z in
      let r := Z.rem a b in
      if (r =? 0)%Z then (if sn then neg_zero else zero)
      else SF2Prim (binary_normalize prec emax (cond_Zopp sn r) e false)
  end.

(** The host's [Math] functions the calculator calls.  ECMAScript leaves
    their results implementation-approximated, so they are parameters. *)
Record MathLib : Type := {
  Math_sin : float -> float;
  Math_cos : float -> float;
  Math_tan : float -> float;
  Math_asin : float -> float;
  Math_acos : float -> float;
  Math_atan : float -> float;
  Math_log10 : float -> float;
  Math_log : float -> float;
  Math_sqrt : float -> float;
  Math_pow : float -> float -> float
}.

End Js.

(** ** Values *)

(** What the evaluation stack holds: a number, or the [undefined] that
    [pop] and [stack[0]] give on an empty array. *)
Inductive jsval : Type :=
| Undefined
| Num (f : float).

(** [ToNumber] on those values. *)
Definition ToNumber (v : jsval) : float :=
  match v with
  | Undefined => nan
  | Num f => f
  end.

(** An element of the output queue: a token string, or the number a constant
    was replaced by. *)
Inductive qtoken : Type :=
| QStr (s : string)
| QNum (f : float).

(** Outcome of a call that may throw [new Error(msg)]; [Unfinished] is a
    loop cut off by the iteration budget of the model. *)
Inductive outcome (A : Type) : Type :=
| Returns (a : A)
| Throws (msg : string)
| Unfinished.

Arguments Returns {A} a.
Arguments Throws {A} msg.
Arguments Unfinished {A}.

Definition bind {A B : Type} (c : outcome A) (k : A -> outcome B) : outcome B :=
  match c with
  | Returns a => k a
  | Throws msg => Throws msg
  | Unfinished => Unfinished
  end.

Notation "x <- c ;; k" := (bind c (fun x => k))
  (at level 61, c at next level, right associativity).

(** ** Tokenizer *)

(** The constant symbol pi, U+03C0, in UTF-8. *)
Definition pi_sym : string :=
  String (ascii_of_nat 207) (String (ascii_of_nat 128) EmptyString).

Definition is_digit (c : ascii) : bool :=
  (48 <=? nat_of_ascii c)%nat && (nat_of_ascii c <=? 57)%nat.

(** The longest run of digits at the start of [s], and what follows it. *)
Fixpoint span_digits (s : string) : string * string :=
  match s with
  | String c r =>
      if is_digit c then let (d, r') := span_digits r in (String c d, r')
      else (EmptyString, s)
  | EmptyString => (EmptyString, EmptyString)
  end.

(** [\d+\.?\d*] at the start of [s]; each quantifier is greedy and the rest
    of the pattern always matches, so there is no backtracking. *)
Definition match_number (s : string) : option string :=
  let (d1, r1) := span_digits s in
  match d1 with
  | EmptyString => None
  | _ =>
      match r1 with
      | String "." r2 => let (d2, _) := span_digits r2 in Some (d1 ++ "." ++ d2)%string
      | _ => Some d1
      end
  end.

(** [[\+\-\*\/\^\(\)]] *)
Definition is_symbol (c : ascii) : bool :=
  existsb (Ascii.eqb c) ["+"; "-"; "*"; "/"; "^"; "("; ")"]%char.

(** The literal alternatives of the pattern, in its order. *)
Definition words : list string :=
  ["sin"; "cos"; "tan"; "asin"; "acos"; "atan"; "log"; "ln"; "sqrt"; "fact";
   pi_sym; "e"; "i"].

(** The match of the whole alternation at the start of [s]: the first
    alternative that matches there. *)
Definition match_at (s : string) : option string :=
  match match_number s with
  | Some t => Some t
  | None =>
      match s with
      | String c _ =>
          if is_symbol c then Some (String c EmptyString)
          else find (fun w => prefix w s) words
      | EmptyString => None
      end
  end.

(** [expr.match(/.../g)]: all matches, left to right, each search starting
    where the previous match ended; a position where nothing matches is
    passed over.  [skip] counts the characters of the last match still to
    pass. *)
Fixpoint scan (skip : nat) (s : string) : list string :=
  match s with
  | EmptyString => []
  | String _ r =>
      match skip with
      | S k => scan k r
      | O =>
          match match_at s with
          | Some t => t :: scan (String.length t - 1) r
          | None => scan 0 r
          end
      end
  end.

(** [match] gives [null] when nothing matches, and [|| []] makes it the
    empty array. *)
Definition tokenize (expr : string) : list string := scan 0 expr.

(** ** Numeric strings *)

Definition digit_val (c : ascii) : Z := Z.of_nat (nat_of_ascii c) - 48.

Fixpoint digits_val (acc : Z) (s : string) : Z :=
  match s with
  | EmptyString => acc
  | String c r => digits_val (10 * acc + digit_val c) r
  end.

(** The number a token denotes, on the strings the tokenizer emits: a digit
    run with at most one dot is a decimal literal, and none of the other
    tokens (symbols, names) is numeric. *)
Definition parseDecimal (s : string) : option float :=
  let (d1, r1) := span_digits s in
  match d1 with
  | EmptyString => None
  | _ =>
      match r1 with
      | EmptyString => Some (Js.round_div (digits_val 0 d1) 1)
      | String "." r2 =>
          let (d2, r3) := span_digits r2 in
          match r3 with
          | EmptyString =>
              Some (Js.round_div (digits_val 0 (d1 ++ d2)%string)
                                 (10 ^ Z.of_nat (String.length d2)))
          | _ => None
          end
      | _ => None
      end
  end.

(** [isNaN(token)] on a raw token. *)
Definition isNaN_str (s : string) : bool :=
  match parseDecimal s with
  | Some _ => false
  | None => true
  end.

(** [isNaN(token)] on an element of the queue. *)
Definition isNaN (t : qtoken) : bool :=
  match t with
  | QStr s => isNaN_str s
  | QNum f => is_nan f
  end.

(** [parseFloat(token)]; a number goes through its shortest decimal form
    and comes back, the negative zero as zero. *)
Definition parseFloat (t : qtoken) : float :=
  match t with
  | QStr s =>
      match parseDecimal s with
      | Some f => f
      | None => nan
      end
  | QNum f => if is_zero f then 0%float else f
  end.

(** ** Shunting-yard converter *)

(** A stack is a list whose head is the last element of the JavaScript
    array: [push] is cons and [pop] takes the head.  The output queue is a
    list in array order, [push] appending at its end. *)

(** The [precedence] table; [None] stands for what any other key gives,
    [undefined] for the tokens, and nothing that compares with a number. *)
Definition precedence (s : string) : option Z :=
  if s =? "+" then Some 1%Z
  else if s =? "-" then Some 1%Z
  else if s =? "*" then Some 2%Z
  else if s =? "/" then Some 2%Z
  else if s =? "^" then Some 3%Z
  else None.

Definition functions : list string :=
  ["sin"; "cos"; "tan"; "asin"; "acos"; "atan"; "log"; "ln"; "sqrt"; "fact"].

(** [functions.includes(token)] *)
Definition is_function (s : string) : bool := existsb (String.eqb s) functions.

(** [x >= y] on two table entries: a comparison with [undefined] is false. *)
Definition prec_ge (x y : option Z) : bool :=
  match x, y with
  | Some a, Some b => (b <=? a)%Z
  | _, _ => false
  end.

(** The first branch of the loop body: a numeric token or a constant name. *)
Definition is_operand (token : string) : bool :=
  negb (isNaN_str token) || (token =? pi_sym) || (token =? "e") || (token =? "i").

(** What that branch pushes on the queue. *)
Definition resolve (token : string) : qtoken :=
  if token =? pi_sym then QNum Js.Math_PI
  else if token =? "e" then QNum Js.Math_E
  else QStr token.

(** [while (operatorStack.length && top !== '(') outputQueue.push(operatorStack.pop())] *)
Fixpoint pop_to_paren (out : list qtoken) (ops : list string)
  : list qtoken * list string :=
  match ops with
  | top :: rest =>
      if negb (top =? "(") then pop_to_paren (out ++ [QStr top]) rest
      else (out, ops)
  | [] => (out, [])
  end.

(** [while (operatorStack.length && precedence[top] >= precedence[token])
    outputQueue.push(operatorStack.pop())] *)
Fixpoint pop_higher (token : string) (out : list qtoken) (ops : list string)
  : list qtoken * list string :=
  match ops with
  | top :: rest =>
      if prec_ge (precedence top) (precedence token)
      then pop_higher token (out ++ [QStr top]) rest
      else (out, ops)
  | [] => (out, [])
  end.

(** [while (operatorStack.length) outputQueue.push(operatorStack.pop())] *)
Fixpoint pop_all (out : list qtoken) (ops : list string) : list qtoken :=
  match ops with
  | top :: rest => pop_all (out ++ [QStr top]) rest
  | [] => out
  end.

(** The body of [tokens.forEach] on the pair (outputQueue, operatorStack). *)
Definition shunt (st : list qtoken * list string) (token : string)
  : list qtoken * list string :=
  let (out, ops) := st in
  if is_operand token then (out ++ [resolve token], ops)
  else if is_function token then (out, token :: ops)
  else if token =? "(" then (out, token :: ops)
  else if token =? ")" then
    let (out1, ops1) := pop_to_paren out ops in
    let ops2 := tl ops1 in
    match ops2 with
    | top :: ops3 => if is_function top then (out1 ++ [QStr top], ops3) else (out1, ops2)
    | [] => (out1, ops2)
    end
  else
    let (out1, ops1) := pop_higher token out ops in
    (out1, token :: ops1).

(** The queue handed to the evaluator by [parseAndEvaluate]. *)
Definition toPostfix (tokens : list string) : list qtoken :=
  let (out, ops) := fold_left shunt tokens ([], []) in
  pop_all out ops.

(** ** Postfix evaluator *)

Section Evaluator.

(** The host's [Math], the state of the [isRadian] flag, and the iteration
    budget of the one unbounded loop, in [factorial]. *)
Variable M : Js.MathLib.
Variable isRadian : bool.
Variable fuel : nat.

(** [for (let i = 2; i <= n; i++) result *= i] *)
Fixpoint factorial_loop (budget : nat) (n i result : float) : option float :=
  match budget with
  | O => None
  | S k =>
      if (i <=? n)%float then factorial_loop k n (i + 1)%float (result * i)%float
      else Some result
  end.

Definition factorial (n : jsval) : outcome jsval :=
  let x := ToNumber n in
  if (x <? 0)%float || negb (Js.rem x 1 =? 0)%float then Throws "Invalid factorial"
  else if (x =? 0)%float then Returns (Num 1)
  else
    match factorial_loop fuel x 2 1 with
    | Some r => Returns (Num r)
    | None => Unfinished
    end.

Definition angle (val : float) : float :=
  if isRadian then val else (val * Js.Math_PI / 180)%float.

Definition invAngle (val : float) : float :=
  if isRadian then val else (val * 180 / Js.Math_PI)%float.

(** The [switch]; its cases compare with [===], so only a string selects
    one. *)
Definition applyOperator (op : qtoken) (a b : jsval) : outcome jsval :=
  match op with
  | QNum _ => Throws "Invalid operator"
  | QStr s =>
      let x := ToNumber a in
      let y := ToNumber b in
      if s =? "+" then Returns (Num (x + y))
      else if s =? "-" then Returns (Num (x - y))
      else if s =? "*" then Returns (Num (x * y))
      else if s =? "/" then Returns (Num (x / y))
      else if s =? "^" then Returns (Num (Js.Math_pow M x y))
      else if s =? "sin" then Returns (Num (Js.Math_sin M (angle x)))
      else if s =? "cos" then Returns (Num (Js.Math_cos M (angle x)))
      else if s =? "tan" then Returns (Num (Js.Math_tan M (angle x)))
      else if s =? "asin" then Returns (Num (invAngle (Js.Math_asin M x)))
      else if s =? "acos" then Returns (Num (invAngle (Js.Math_acos M x)))
      else if s =? "atan" then Returns (Num (invAngle (Js.Math_atan M x)))
      else if s =? "log" then Returns (Num (Js.Math_log10 M x))
      else if s =? "ln" then Returns (Num (Js.Math_log M x))
      else if s =? "sqrt" then Returns (Num (Js.Math_sqrt M x))
      else if s =? "fact" then factorial a
      else Throws "Invalid operator"
  end.

(** [stack.pop()]: the top and the rest, [undefined] from an empty stack. *)
Definition pop (stack : list jsval) : jsval * list jsval :=
  match stack with
  | v :: rest => (v, rest)
  | [] => (Undefined, [])
  end.

(** [includes] on the array of function names; a number is none of them. *)
Definition names_function (t : qtoken) : bool :=
  match t with
  | QStr s => is_function s
  | QNum _ => false
  end.

(** The body of [postfix.forEach]. *)
Definition evalToken (stack : list jsval) (token : qtoken) : outcome (list jsval) :=
  if negb (isNaN token) then Returns (Num (parseFloat token) :: stack)
  else
    let (b, stack1) := pop stack in
    if names_function token then
      r <- applyOperator token b b ;; Returns (r :: stack1)
    else
      let (a, stack2) := pop stack1 in
      r <- applyOperator token a b ;; Returns (r :: stack2).

(** The [forEach] from a given stack; a throw ends it. *)
Fixpoint evalTokens (stack : list jsval) (postfix : list qtoken)
  : outcome (list jsval) :=
  match postfix with
  | [] => Returns stack
  | token :: rest => stack' <- evalToken stack token ;; evalTokens stack' rest
  end.

(** [stack[0]]: the first element of the array, the bottom of the stack. *)
Definition bottom (stack : list jsval) : jsval := last stack Undefined.

Definition evaluatePostfix (postfix : list qtoken) : outcome jsval :=
  stack <- evalTokens [] postfix ;; Returns (bottom stack).

Definition parseAndEvaluate (expr : string) : outcome jsval :=
  evaluatePostfix (toPostfix (tokenize expr)).

End Evaluator.

(** ** Notions of the specification *)

(** No position of [s] starts a match of the token pattern. *)
Fixpoint no_token (s : string) : bool :=
  match s with
  | EmptyString => true
  | String _ r =>
      match match_at s with
      | Some _ => false
      | None => no_token r
      end
  end.

(** A constant name left as a name in the queue. *)
Definition unresolved_constant (t : qtoken) : bool :=
  match t with
  | QStr s => (s =? pi_sym) || (s =? "e") || (s =? "i")
  | QNum _ => false
  end.

(** One of the five binary operators: a key of the [precedence] table. *)
Definition is_binary (s : string) : bool :=
  match precedence s with
  | Some _ => true
  | None => false
  end.

(** Well-formed token sequences: operands (literals and constants) and
    operators alternate, a function name or a left parenthesis stands where
    an operand is expected, a right parenthesis closes an open one after an
    operand, and the sequence ends after an operand with nothing open.
    [expect] says an operand is expected next and [depth] counts the open
    parentheses. *)
Fixpoint wf_scan (expect : bool) (depth : nat) (tokens : list string) : bool :=
  match tokens with
  | [] => negb expect && (depth =? 0)%nat
  | t :: rest =>
      if expect then
        if is_operand t then wf_scan false depth rest
        else if is_function t then wf_scan true depth rest
        else if t =? "(" then wf_scan true (S depth) rest
        else false
      else
        if is_binary t then wf_scan true depth rest
        else if t =? ")" then
          match depth with
          | S d => wf_scan false d rest
          | O => false
          end
        else false
  end.

Definition wellformed (tokens : list string) : bool := wf_scan true 0 tokens.

(** The same sequences as a grammar: an operand, a parenthesized
    expression, a function name before an expression, two expressions
    around a binary operator. *)
Inductive expression : list string -> Prop :=
| expr_operand (t : string) :
    is_operand t = true -> expression [t]
| expr_paren (e : list string) :
    expression e -> expression ("(" :: e ++ [")"])
| expr_call (f : string) (e : list string) :
    is_function f = true -> expression e -> expression (f :: e)
| expr_binary (e1 : list string) (op : string) (e2 : list string) :
    expression e1 -> is_binary op = true -> expression e2 ->
    expression (e1 ++ op :: e2).

(** How many values the evaluator pops for a token of the queue. *)
Definition pops_of (t : qtoken) : nat :=
  if negb (isNaN t) then 0%nat
  else if names_function t then 1%nat
  else 2%nat.

(** A host whose [pow] is exact on squares and cubes and whose [sqrt] is the
    IEEE one; the other entries are not looked at where it is used. *)
Definition sample_math : Js.MathLib :=
  {| Js.Math_sin := fun x => x;
     Js.Math_cos := fun x => x;
     Js.Math_tan := fun x => x;
     Js.Math_asin := fun x => x;
     Js.Math_acos := fun x => x;
     Js.Math_atan := fun x => x;
     Js.Math_log10 := fun x => x;
     Js.Math_log := fun x => x;
     Js.Math_sqrt := PrimFloat.sqrt;
     Js.Math_pow := fun x y =>
       if (y =? 2)%float then (x * x)%float
       else if (y =? 3)%float then (x * x * x)%float
       else nan |}.

Section Safety.

Variable M : Js.MathLib.
Variable isRadian : bool.
Variable fuel : nat.

(** Every pop of the run of [postfix] from [stack] finds a value: each token
    reached is applied to a stack that holds its operands. *)
Fixpoint no_underflow (stack : list jsval) (postfix : list qtoken) : Prop :=
  match postfix with
  | [] => True
  | t :: rest =>
      (pops_of t <= List.length stack)%nat /\
      match evalToken M isRadian fuel stack t with
      | Returns stack' => no_underflow stack' rest
      | _ => True
      end
  end.

End Safety.

(** The messages of the two [throw] statements. *)
Definition known_message (msg : string) : Prop :=
  msg = "Invalid operator" \/ msg = "Invalid factorial".

(** The elements of the queue that the first branch of the converter put
    there: the numbers, and the strings that branch accepts. *)
Definition from_operand (t : qtoken) : bool :=
  match t with
  | QStr s => is_operand s
  | QNum _ => true
  end.

Definition operands_of (out : list qtoken) : list qtoken := filter from_operand out.

(** The height of the evaluation stack after a token, when the token finds
    its operands on a stack of height [d]. *)
Definition arity_step (d : nat) (t : qtoken) : option nat :=
  if (pops_of t <=? d)%nat then Some (S d - pops_of t)%nat else None.

Fixpoint depth_after (d : nat) (postfix : list qtoken) : option nat :=
  match postfix with
  | [] => Some d
  | t :: rest =>
      match arity_step d t with
      | Some d' => depth_after d' rest
      | None => None
      end
  end.

Definition count_binary (ops : list string) : nat := List.length (filter is_binary ops).

Definition is_open (s : string) : bool := s =? "(".

Definition count_open (ops : list string) : nat := List.length (filter is_open ops).

(** What the operator stack may hold. *)
Definition stackable (s : string) : Prop :=
  is_binary s = true \/ is_function s = true \/ s = "(".

(** A token of the queue the evaluator knows how to apply. *)
Definition applicable (t : qtoken) : Prop :=
  isNaN t = false \/ exists s, t = QStr s /\ (is_binary s = true \/ is_function s = true).

(** The state of the converter after a prefix of a well-formed sequence:
    the queue evaluates without underflow to as many values as there are
    binary operators waiting on the stack, plus one once the operand they
    wait for has been read. *)
Definition converter_inv (expect : bool) (depth : nat)
  (out : list qtoken) (ops : list string) : Prop :=
  Forall stackable ops /\
  Forall applicable out /\
  count_open ops = depth /\
  depth_after 0 out = Some ((if expect then 0 else 1) + count_binary ops)%nat.

(** The double nearest to an integer. *)
Definition Z2F (k : Z) : float := SF2Prim (binary_normalize prec emax k 0 false).

(** The double of an integer from 1 to 2^53: a positive mantissa of 53
    digits and the exponent that makes it the integer itself. *)
Definition represents (k : Z) (m : positive) (e : Z) : Prop :=
  digits2_pos m = 53%positive /\
  e = (Z.log2 k - 52)%Z /\
  (Zpos m * 2 ^ (e + 52) = k * 2 ^ 52)%Z.

(** A double that is an integer: a zero, or a finite value whose mantissa
    has no bit below the unit. *)
Definition integral (x : float) : bool :=
  match Prim2SF x with
  | S754_zero _ => true
  | S754_finite _ m e => (0 <=? e)%Z || (Zpos m mod 2 ^ (- e) =? 0)%Z
  | S754_infinity _ | S754_nan => false
  end.

(** The factorial as the specification describes it: the product of the
    integers from 2 up to [n], multiplied in that order in double
    arithmetic, starting from 1. *)
Definition iterative_product (n : nat) : float :=
  fold_left (fun r i => (r * Z2F (Z.of_nat i))%float) (seq 2 (n - 1)) 1%float.

(** ** Expressions *)

(** Infix expressions as trees: a literal or constant, a function applied
    to a parenthesized argument, a binary operation, and an explicit pair of
    parentheses. *)
Inductive ast : Type :=
| Lit (t : string)
| Call (f : string) (a : ast)
| Bin (op : string) (l r : ast)
| Paren (a : ast).

Definition prec_of (op : string) : Z :=
  match precedence op with
  | Some p => p
  | None => 0%Z
  end.

(** The tokens of a tree in a context that binds with precedence [p]:
    operators of one level associate to the left, and a binary operation is
    put in parentheses only where it binds less tightly than its context. *)
Fixpoint print (p : Z) (a : ast) : list string :=
  match a with
  | Lit t => [t]
  | Call f a => f :: "(" :: print 0 a ++ [")"]
  | Bin op l r =>
      let q := prec_of op in
      let inner := print q l ++ op :: print (q + 1) r in
      if (q <? p)%Z then "(" :: inner ++ [")"] else inner
  | Paren a => "(" :: print 0 a ++ [")"]
  end.

(** The tree in postfix order. *)
Fixpoint postfix_of (a : ast) : list qtoken :=
  match a with
  | Lit t => [resolve t]
  | Call f a => postfix_of a ++ [QStr f]
  | Bin op l r => postfix_of l ++ postfix_of r ++ [QStr op]
  | Paren a => postfix_of a
  end.

(** The leaves are operands, the applied names are functions and the
    operators are binary operators. *)
Fixpoint well_tagged (a : ast) : bool :=
  match a with
  | Lit t => is_operand t
  | Call f a => is_function f && well_tagged a
  | Bin op l r => is_binary op && well_tagged l && well_tagged r
  | Paren a => well_tagged a
  end.

Section Meaning.

Variable M : Js.MathLib.
Variable isRadian : bool.
Variable fuel : nat.

(** The value of a tree: operands left to right, then the operation. *)
Fixpoint denote (a : ast) : outcome jsval :=
  match a with
  | Lit t =>
      if isNaN (resolve t) then Throws "Invalid operator"
      else Returns (Num (parseFloat (resolve t)))
  | Call f a => v <- denote a ;; applyOperator M isRadian fuel (QStr f) v v
  | Bin op l r =>
      x <- denote l ;; y <- denote r ;; applyOperator M isRadian fuel (QStr op) x y
  | Paren a => denote a
  end.

End Meaning.

(** What the converter's pops stop at: the bottom of the stack or a left
    parenthesis. *)
Definition at_base (ops : list string) : Prop :=
  match ops with
  | [] => True
  | top :: _ => top = "("
  end.

(** The tokens written one after the other. *)
Definition glue (tokens : list string) : string :=
  fold_right String.append EmptyString tokens.

(** The text of a tree: its tokens, with no separator. *)
Definition render (a : ast) : string := glue (print 0 a).

(** A text that is empty or begins with an operator or a parenthesis. *)
Definition starts_symbol (s : string) : Prop :=
  match s with
  | EmptyString => True
  | String c _ => is_symbol c = true
  end.

Definition all_digits (s : string) : bool :=
  forallb is_digit (list_ascii_of_string s).

(** A tree for the examples: [(2+3)*sqrt(16)]. *)
Definition sample_tree : ast :=
  Bin "*" (Bin "+" (Lit "2") (Lit "3")) (Call "sqrt" (Lit "16")).

(** The three forms of a token: a numeral, a one-character symbol, a word
    of the pattern. *)
Definition token_form (t : string) : Prop :=
  (exists x, parseDecimal t = Some x) \/
  (exists c, t = String c EmptyString /\ is_symbol c = true) \/
  In t words.

(** A character that no alternative of the token pattern contains. *)
Definition separator (c : ascii) : bool :=
  negb (is_digit c) && negb (Ascii.eqb c ".") && negb (is_symbol c)
  && forallb (fun w => negb (existsb (Ascii.eqb c) (list_ascii_of_string w))) words.

(** The parentheses of a queue. *)
Definition is_paren_q (t : qtoken) : bool :=
  match t with
  | QStr s => (s =? "(") || (s =? ")")
  | QNum _ => false
  end.

Definition queue_parens (out : list qtoken) : list qtoken := filter is_paren_q out.

(** The number of open left parentheses after a token, [depth] of them
    being open before it: a right parenthesis closes the last one open, and
    closes nothing when none is. *)
Definition paren_step (depth : nat) (t : string) : nat :=
  if t =? "(" then S depth
  else if t =? ")" then Nat.pred depth
  else depth.

(** The left parentheses that the tokens leave unclosed. *)
Definition unclosed (tokens : list string) : nat := fold_left paren_step tokens 0.

(** The product of the integers from 2 up to [n], in the integers. *)
Definition exact_product (n : nat) : Z :=
  fold_left (fun r i => (r * Z.of_nat i)%Z) (seq 2 (n - 1)) 1%Z.

(** A double that is a number: a zero or a finite value. *)
Definition finite (x : float) : bool :=
  match Prim2SF x with
  | S754_zero _ | S754_finite _ _ _ => true
  | S754_infinity _ | S754_nan => false
  end.

(** The integer that a double is, when it is one. *)
Definition integer_of (x : float) : option Z :=
  match Prim2SF x with
  | S754_zero _ => Some 0%Z
  | S754_finite s m e =>
      let sign := if s then (-1)%Z else 1%Z in
      if (0 <=? e)%Z then Some (sign * Zpos m * 2 ^ e)%Z
      else if (Zpos m mod 2 ^ (- e) =? 0)%Z then Some (sign * (Zpos m / 2 ^ (- e)))%Z
      else None
  | S754_infinity _ | S754_nan => None
  end.

(** The iterated product of [factorial] is a number and is the exact
    product. *)
Definition product_finite (n : nat) : bool := finite (iterative_product n).

Definition product_exact (n : nat) : bool :=
  match integer_of (iterative_product n) with
  | Some v => (v =? exact_product n)%Z
  | None => false
  end.

(** ** The page around the evaluator

    The handlers of the page, on the state they share: the text of the
    display and of the line above it, the markup of the history list, and
    the three variables [memory], [isRadian] and [history].  The display is
    taken to hold the text last assigned to it. *)

Module App.

(** What the handlers use of the host besides [Math]: the conversion of a
    value to text (of a number, or ['undefined']), [s.slice(0, -1)], and
    [parseFloat] on an arbitrary text. *)
Record Host : Type := {
  ToString : jsval -> string;
  slice_last : string -> string;
  parseFloat_text : string -> float
}.

Record state : Type := {
  display : string;
  historyDisplay : string;
  historyList : string;
  memory : float;
  isRadian : bool;
  history : list (string * jsval)
}.

(** [text.split('=')[0]]: the text before the first equals sign. *)
Fixpoint before_equals (text : string) : string :=
  match text with
  | EmptyString => EmptyString
  | String c rest => if Ascii.eqb c "=" then EmptyString else String c (before_equals rest)
  end.

(** The white space and line terminators of the language, by the bytes of
    their encoding: U+0009 to U+000D and U+0020; U+00A0; U+1680, U+2000 to
    U+200A, U+2028, U+2029, U+202F, U+205F, U+3000 and U+FEFF. *)
Definition ws1 (c1 : ascii) : bool :=
  let n1 := nat_of_ascii c1 in
  ((9 <=? n1)%nat && (n1 <=? 13)%nat) || (n1 =? 32)%nat.

Definition ws2 (c1 c2 : ascii) : bool :=
  (nat_of_ascii c1 =? 194)%nat && (nat_of_ascii c2 =? 160)%nat.

Definition ws3 (c1 c2 c3 : ascii) : bool :=
  let n1 := nat_of_ascii c1 in
  let n2 := nat_of_ascii c2 in
  let n3 := nat_of_ascii c3 in
  ((n1 =? 225)%nat && (n2 =? 154)%nat && (n3 =? 128)%nat)
  || ((n1 =? 226)%nat && (n2 =? 128)%nat &&
      (((128 <=? n3)%nat && (n3 <=? 138)%nat) || (n3 =? 168)%nat || (n3 =? 169)%nat
       || (n3 =? 175)%nat))
  || ((n1 =? 226)%nat && (n2 =? 129)%nat && (n3 =? 159)%nat)
  || ((n1 =? 227)%nat && (n2 =? 128)%nat && (n3 =? 128)%nat)
  || ((n1 =? 239)%nat && (n2 =? 187)%nat && (n3 =? 191)%nat).

(** The text after one white-space character at its start. *)
Definition strip_ws (s : string) : option string :=
  match s with
  | String c1 r1 =>
      if ws1 c1 then Some r1
      else
        match r1 with
        | String c2 r2 =>
            if ws2 c1 c2 then Some r2
            else
              match r2 with
              | String c3 r3 => if ws3 c1 c2 c3 then Some r3 else None
              | EmptyString => None
              end
        | EmptyString => None
        end
  | EmptyString => None
  end.

Fixpoint drop_ws (budget : nat) (s : string) : string :=
  match budget with
  | O => s
  | S k =>
      match strip_ws s with
      | Some rest => drop_ws k rest
      | None => s
      end
  end.

Definition trim_start (s : string) : string := drop_ws (String.length s) s.

(** The text up to the white space that ends it. *)
Fixpoint trim_end (s : string) : string :=
  match s with
  | EmptyString => EmptyString
  | String c rest =>
      if trim_start s =? EmptyString then EmptyString else String c (trim_end rest)
  end.

(** [s.trim()] *)
Definition trim (s : string) : string := trim_end (trim_start s).

Inductive event : Type :=
  | Input (key : string)
  | ClearHistory
  | Toggle (checked : bool)
  | HistoryClick (text : string).

Section Handlers.

Variable M : Js.MathLib.
Variable H : Host.
Variable fuel : nat.

Definition renderHistory (history : list (string * jsval)) : string :=
  String.concat EmptyString
    (map (fun item => "<li>" ++ fst item ++ " = " ++ ToString H (snd item) ++ "</li>")%string
         history).

(** [history.unshift({ expression, result }); if (history.length > 50) history.pop()] *)
Definition addToHistory (expression : string) (result : jsval) (s : state) : state :=
  let added := (expression, result) :: history s in
  let kept := if (50 <? List.length added)%nat then removelast added else added in
  {| display := display s; historyDisplay := historyDisplay s;
     historyList := renderHistory kept;
     memory := memory s; isRadian := isRadian s; history := kept |}.

Definition clearHistory (s : state) : state :=
  {| display := display s; historyDisplay := historyDisplay s;
     historyList := renderHistory [];
     memory := memory s; isRadian := isRadian s; history := [] |}.

Definition clearDisplay (s : state) : state :=
  {| display := EmptyString; historyDisplay := EmptyString;
     historyList := historyList s;
     memory := memory s; isRadian := isRadian s; history := history s |}.

Definition set_display (text : string) (s : state) : state :=
  {| display := text; historyDisplay := historyDisplay s;
     historyList := historyList s;
     memory := memory s; isRadian := isRadian s; history := history s |}.

Definition set_memory (m : float) (s : state) : state :=
  {| display := display s; historyDisplay := historyDisplay s;
     historyList := historyList s;
     memory := m; isRadian := isRadian s; history := history s |}.

(** [parseFloat(display.value) || 0]: zero for a zero and for [NaN]. *)
Definition currentValue (s : state) : float :=
  let x := parseFloat_text H (display s) in
  if is_nan x || (x =? 0)%float then 0%float else x.

Definition handleMemory (key : string) (s : state) : state :=
  let v := currentValue s in
  let s1 := if key =? "m+" then set_memory (memory s + v)%float s else s in
  let s2 := if key =? "m-" then set_memory (memory s1 - v)%float s1 else s1 in
  let s3 := if key =? "mc" then set_memory 0%float s2 else s2 in
  if key =? "mr" then set_display (ToString H (Num (memory s3))) s3 else s3.

(** The [try] and its [catch]; nothing when the evaluation does not end. *)
Definition evaluateExpression (s : state) : option state :=
  let expression := display s in
  match parseAndEvaluate M (isRadian s) fuel expression with
  | Returns result =>
      Some (addToHistory expression result
              {| display := ToString H result;
                 historyDisplay := (expression ++ " =")%string;
                 historyList := historyList s;
                 memory := memory s; isRadian := isRadian s; history := history s |})
  | Throws message => Some (set_display message s)
  | Unfinished => None
  end.

Definition handleInput (key : string) (s : state) : option state :=
  if (key =? "=") || (key =? "Enter") then evaluateExpression s
  else if (key =? "C") || (key =? "Escape") then Some (clearDisplay s)
  else if key =? "Backspace" then Some (set_display (slice_last H (display s)) s)
  else if (key =? "m+") || (key =? "m-") || (key =? "mc") || (key =? "mr")
  then Some (handleMemory key s)
  else Some (set_display (display s ++ key)%string s).

Definition onHistoryClick (text : string) (s : state) : state :=
  set_display (trim (before_equals text)) s.

Definition onToggle (checked : bool) (s : state) : state :=
  {| display := display s; historyDisplay := historyDisplay s;
     historyList := historyList s;
     memory := memory s; isRadian := checked; history := history s |}.

Definition handle (e : event) (s : state) : option state :=
  match e with
  | Input key => handleInput key s
  | ClearHistory => Some (clearHistory s)
  | Toggle checked => Some (onToggle checked s)
  | HistoryClick text => Some (onHistoryClick text s)
  end.

(** The handlers run one after the other, each to its end. *)
Fixpoint run (events : list event) (s : state) : option state :=
  match events with
  | [] => Some s
  | e :: rest =>
      match handle e s with
      | Some s' => run rest s'
      | None => None
      end
  end.

(** What the handlers keep of the history: at most 50 entries, and the
    list of the page shows them. *)
Definition consistent (s : state) : Prop :=
  List.length (history s) <= 50 /\ historyList s = renderHistory (history s).

End Handlers.

(** The state of a page just loaded, with an empty display and list. *)
Definition initial : state :=
  {| display := EmptyString; historyDisplay := EmptyString;
     historyList := EmptyString;
     memory := 0%float; isRadian := true; history := [] |}.

(** A host for the examples: every number is shown by the same text; the
    other functions are those of short plain texts. *)
Definition sample_host : Host :=
  {| ToString := fun v => match v with Undefined => "undefined" | Num _ => "number" end;
     slice_last := fun s => substring 0 (String.length s - 1) s;
     parseFloat_text := fun s => parseFloat (QStr s) |}.

(** Four keys, and the page after them. *)
Definition sample_events : list event :=
  [Input "2"; Input "+"; Input "3"; Input "="].

Definition sample_page : state :=
  {| display := "number"; historyDisplay := "2+3 =";
     historyList := "<li>2+3 = number</li>";
     memory := 0%float; isRadian := true; history := [("2+3", Num 5%float)] |}.

End App.

(** * Properties *)

(** ** The model on known values *)

(** Adjacent tokens need no separator, a position that starts no token is
    passed over, and the longer function names are found although a shorter
    alternative comes first in the pattern. *)
Lemma tokenize_examples :
  tokenize "2sin3" = ["2"; "sin"; "3"] /\
  tokenize "asin(0.5) + atan 1" = ["asin"; "("; "0.5"; ")"; "+"; "atan"; "1"] /\
  tokenize "1.2.3" = ["1.2"; "3"] /\
  tokenize "x = 7 ?" = ["7"] /\
  tokenize "six" = ["i"] /\
  tokenize (pi_sym ++ "e")%string = [pi_sym; "e"].
Proof. repeat split; reflexivity. Qed.

(** Decimal literals denote the nearest double. *)
Lemma parseDecimal_examples :
  parseDecimal "12" = Some 12%float /\
  parseDecimal "12." = Some 12%float /\
  parseDecimal "2.5" = Some 2.5%float /\
  parseDecimal "0.1" = Some 0x1.999999999999ap-4%float /\
  parseDecimal "9007199254740993" = Some 0x1p+53%float /\
  parseDecimal "+" = None /\
  parseDecimal "sin" = None.
Proof. repeat split; reflexivity. Qed.

Lemma rem_examples :
  Js.rem 5.5 2 = 1.5%float /\
  Js.rem (-5.5) 2 = (-1.5)%float /\
  Js.rem 2.5 1 = 0.5%float /\
  Js.rem 7 1 = 0%float /\
  Js.rem (-0) 1 = (-0)%float /\
  Js.rem infinity 1 = nan /\
  Js.rem 5 0 = nan /\
  Js.rem 5 infinity = 5%float.
Proof. repeat split; reflexivity. Qed.

(** ** Concrete runs *)

Section Runs.

Variable M : Js.MathLib.
Variable isRadian : bool.
Variable fuel : nat.

Let run := parseAndEvaluate M isRadian fuel.

(** C8: the pipeline honours precedence on the inputs of the
    specification: "12+3*4" is tokenized to 12 + 3 * 4, converted to
    12 3 4 * + and evaluated to 24; "2+3*4" gives 14 and "(2+3)*4" gives 20.
    The numeric tokens are the strings of their digits, which the evaluator
    reads as numbers. *)
Theorem precedence_examples :
  tokenize "12+3*4" = ["12"; "+"; "3"; "*"; "4"] /\
  toPostfix ["12"; "+"; "3"; "*"; "4"]
    = [QStr "12"; QStr "3"; QStr "4"; QStr "*"; QStr "+"] /\
  evaluatePostfix M isRadian fuel
    [QStr "12"; QStr "3"; QStr "4"; QStr "*"; QStr "+"] = Returns (Num 24) /\
  run "12+3*4" = Returns (Num 24) /\
  run "2+3*4" = Returns (Num 14) /\
  run "(2+3)*4" = Returns (Num 20).
Proof. repeat split; reflexivity. Qed.

(** C9: division by zero is not an error: "5/0" returns positive infinity
    and "0/0" returns NaN, both as ordinary results. *)
Theorem division_by_zero :
  run "5/0" = Returns (Num infinity) /\
  run "0/0" = Returns (Num nan).
Proof. split; reflexivity. Qed.

End Runs.

(** ** The converter's pops *)

Lemma pop_all_spec (ops : list string) :
  forall out, pop_all out ops = out ++ map QStr ops.
Proof.
  induction ops as [|top rest IH]; intro out; simpl.
  - now rewrite app_nil_r.
  - rewrite IH, <- app_assoc. reflexivity.
Qed.

Lemma pop_to_paren_spec (ops : list string) :
  forall out, exists p r,
    ops = p ++ r /\
    pop_to_paren out ops = (out ++ map QStr p, r) /\
    ~ In "(" p /\
    (r = [] \/ exists r', r = "(" :: r').
Proof.
  induction ops as [|top rest IH]; intro out; simpl.
  - exists [], []. simpl. rewrite app_nil_r. intuition.
  - destruct (top =? "(") eqn:E; simpl.
    + apply String.eqb_eq in E. subst top.
      exists [], ("(" :: rest). simpl. rewrite app_nil_r.
      repeat split; auto. right. now exists rest.
    + apply String.eqb_neq in E.
      destruct (IH (out ++ [QStr top])) as (p & r & -> & Hpop & Hnot & Hr).
      exists (top :: p), r. simpl. rewrite Hpop, <- app_assoc. simpl.
      repeat split; auto. intros [H|H]; [now apply E|now apply Hnot].
Qed.

Lemma pop_higher_spec (token : string) (ops : list string) :
  forall out, exists p r,
    ops = p ++ r /\
    pop_higher token out ops = (out ++ map QStr p, r) /\
    Forall (fun s => is_binary s = true) p.
Proof.
  induction ops as [|top rest IH]; intro out; simpl.
  - exists [], []. simpl. rewrite app_nil_r. auto.
  - destruct (prec_ge (precedence top) (precedence token)) eqn:E.
    + destruct (IH (out ++ [QStr top])) as (p & r & -> & Hpop & Hall).
      exists (top :: p), r. simpl. rewrite Hpop, <- app_assoc. simpl.
      repeat split; auto. constructor; auto.
      unfold is_binary. destruct (precedence top); [reflexivity|discriminate].
    + exists [], (top :: rest). simpl. rewrite app_nil_r. auto.
Qed.

(** ** Input without tokens *)

Lemma scan_no_token (s : string) : no_token s = true -> scan 0 s = [].
Proof.
  induction s as [|c r IH]; simpl; [reflexivity|].
  destruct (match_at (String c r)); [discriminate|exact IH].
Qed.

Lemma scan_empty (s : string) : scan 0 s = [] -> no_token s = true.
Proof.
  induction s as [|c r IH]; simpl; [reflexivity|].
  destruct (match_at (String c r)); [discriminate|exact IH].
Qed.

(** C10: an input in which no position starts a token (the empty string for
    one) raises nothing and gives no number: the tokenizer yields the empty
    sequence, the converter the empty queue, and the evaluator returns the
    [undefined] read at index 0 of the empty stack. *)
Theorem no_token_returns_undefined
  (M : Js.MathLib) (isRadian : bool) (fuel : nat) (expr : string) :
  no_token expr = true ->
  tokenize expr = [] /\
  toPostfix (tokenize expr) = [] /\
  parseAndEvaluate M isRadian fuel expr = Returns Undefined.
Proof.
  intro H. unfold parseAndEvaluate, tokenize.
  rewrite (scan_no_token expr H). repeat split; reflexivity.
Qed.

Lemma no_token_returns_undefined_witness :
  no_token "" = true /\
  tokenize "" = [] /\
  toPostfix (tokenize "") = [] /\
  parseAndEvaluate sample_math true 0 "" = Returns Undefined.
Proof.
  split; [reflexivity|].
  apply (no_token_returns_undefined sample_math true 0 ""). reflexivity.
Defined.

(** ** Unbalanced parentheses *)

Lemma pop_to_paren_unmatched (ops : list string) (out : list qtoken) :
  ~ In "(" ops -> pop_to_paren out ops = (out ++ map QStr ops, []).
Proof.
  intro Hno.
  destruct (pop_to_paren_spec ops out) as (p & r & Hops & Hpop & _ & [->|[r' ->]]).
  - rewrite app_nil_r in Hops. now subst p.
  - exfalso. apply Hno. rewrite Hops. apply in_or_app. right. now left.
Qed.

(** C7: the converter has no error path for unbalanced parentheses.  A right
    parenthesis met while the operator stack holds no left parenthesis moves
    the whole stack to the queue, leaves the stack empty, and the conversion
    goes on from there with the remaining tokens; the result is a queue, not
    a failure. *)
Theorem unmatched_right_paren (before after : list string)
  (out : list qtoken) (ops : list string) :
  fold_left shunt before ([], []) = (out, ops) ->
  ~ In "(" ops ->
  shunt (out, ops) ")" = (out ++ map QStr ops, []) /\
  toPostfix (before ++ ")" :: after)
    = (let (out', ops') := fold_left shunt after (out ++ map QStr ops, []) in
       pop_all out' ops').
Proof.
  intros Hbefore Hno.
  assert (Hstep : shunt (out, ops) ")" = (out ++ map QStr ops, [])).
  { unfold shunt. change (is_operand ")") with false.
    change (is_function ")") with false. cbn match. cbn [String.eqb].
    change (")" =? "(") with false. change (")" =? ")") with true. cbn match.
    rewrite (pop_to_paren_unmatched ops out Hno). reflexivity. }
  split; [exact Hstep|].
  unfold toPostfix. rewrite fold_left_app, Hbefore.
  change (fold_left shunt (")" :: after) (out, ops))
    with (fold_left shunt after (shunt (out, ops) ")")).
  rewrite Hstep. reflexivity.
Qed.

Lemma unmatched_right_paren_witness :
  fold_left shunt ["1"; "+"; "2"] ([], []) = ([QStr "1"; QStr "2"], ["+"]) /\
  ~ In "(" ["+"] /\
  shunt ([QStr "1"; QStr "2"], ["+"]) ")" = ([QStr "1"; QStr "2"; QStr "+"], []) /\
  toPostfix (["1"; "+"; "2"] ++ ")" :: ["*"; "3"])
    = [QStr "1"; QStr "2"; QStr "+"; QStr "3"; QStr "*"].
Proof.
  assert (Hno : ~ In "(" ["+"]).
  { simpl. intros [H|[]]. discriminate H. }
  split; [reflexivity|]. split; [exact Hno|].
  exact (unmatched_right_paren ["1"; "+"; "2"] ["*"; "3"]
           [QStr "1"; QStr "2"] ["+"] eq_refl Hno).
Defined.

(** ** Classes of tokens *)

Lemma is_binary_cases (s : string) :
  is_binary s = true -> s = "+" \/ s = "-" \/ s = "*" \/ s = "/" \/ s = "^".
Proof.
  unfold is_binary, precedence.
  destruct (s =? "+") eqn:E1; [apply String.eqb_eq in E1; auto|].
  destruct (s =? "-") eqn:E2; [apply String.eqb_eq in E2; auto|].
  destruct (s =? "*") eqn:E3; [apply String.eqb_eq in E3; auto|].
  destruct (s =? "/") eqn:E4; [apply String.eqb_eq in E4; auto|].
  destruct (s =? "^") eqn:E5; [apply String.eqb_eq in E5; auto 6|].
  discriminate.
Qed.

Lemma is_function_cases (s : string) : is_function s = true -> In s functions.
Proof.
  unfold is_function. intro H. apply existsb_exists in H.
  destruct H as (x & Hin & Heq). apply String.eqb_eq in Heq. now subst x.
Qed.

Ltac binary_cases H :=
  apply is_binary_cases in H;
  destruct H as [H|[H|[H|[H|H]]]]; subst.

Ltac function_cases H :=
  apply is_function_cases in H; simpl in H;
  repeat (destruct H as [H|H]; [subst|]); [..|contradiction].

Lemma binary_not_operand (s : string) : is_binary s = true -> is_operand s = false.
Proof. intro H. binary_cases H; reflexivity. Qed.

Lemma binary_not_function (s : string) : is_binary s = true -> is_function s = false.
Proof. intro H. binary_cases H; reflexivity. Qed.

Lemma binary_not_paren (s : string) :
  is_binary s = true -> (s =? "(") = false /\ (s =? ")") = false.
Proof. intro H. binary_cases H; split; reflexivity. Qed.

Lemma function_not_operand (s : string) : is_function s = true -> is_operand s = false.
Proof. intro H. function_cases H; reflexivity. Qed.

Lemma function_not_binary (s : string) : is_function s = true -> is_binary s = false.
Proof. intro H. function_cases H; reflexivity. Qed.

Lemma function_not_paren (s : string) : is_function s = true -> (s =? "(") = false.
Proof. intro H. function_cases H; reflexivity. Qed.

(** ** The converter, branch by branch *)

Lemma shunt_operand (out : list qtoken) (ops : list string) (t : string) :
  is_operand t = true -> shunt (out, ops) t = (out ++ [resolve t], ops).
Proof. intro H. unfold shunt. now rewrite H. Qed.

Lemma shunt_function (out : list qtoken) (ops : list string) (t : string) :
  is_function t = true -> shunt (out, ops) t = (out, t :: ops).
Proof.
  intro H. unfold shunt. now rewrite (function_not_operand t H), H.
Qed.

Lemma shunt_open (out : list qtoken) (ops : list string) :
  shunt (out, ops) "(" = (out, "(" :: ops).
Proof. reflexivity. Qed.

Lemma shunt_close (out : list qtoken) (ops : list string) :
  shunt (out, ops) ")" =
  (let (out1, ops1) := pop_to_paren out ops in
   match tl ops1 with
   | top :: ops3 =>
       if is_function top then (out1 ++ [QStr top], ops3) else (out1, tl ops1)
   | [] => (out1, tl ops1)
   end).
Proof. reflexivity. Qed.

Lemma shunt_binary (out : list qtoken) (ops : list string) (t : string) :
  is_binary t = true ->
  shunt (out, ops) t = (let (out1, ops1) := pop_higher t out ops in (out1, t :: ops1)).
Proof.
  intro H. unfold shunt.
  rewrite (binary_not_operand t H), (binary_not_function t H).
  destruct (binary_not_paren t H) as [-> ->]. reflexivity.
Qed.

(** ** Grouping of operators *)

Lemma left_grouping (a op1 b op2 c : string) :
  is_operand a = true -> is_operand b = true -> is_operand c = true ->
  is_binary op1 = true -> is_binary op2 = true ->
  prec_ge (precedence op1) (precedence op2) = true ->
  toPostfix [a; op1; b; op2; c]
    = [resolve a; resolve b; QStr op1; resolve c; QStr op2].
Proof.
  intros Ha Hb Hc H1 H2 Hge. unfold toPostfix. cbn [fold_left].
  rewrite (shunt_operand _ _ a Ha), (shunt_binary _ _ op1 H1). cbn [pop_higher].
  rewrite (shunt_operand _ _ b Hb), (shunt_binary _ _ op2 H2). cbn [pop_higher].
  rewrite Hge. rewrite (shunt_operand _ _ c Hc). reflexivity.
Qed.

Lemma returns_neq_64_512 : @Returns jsval (Num 64) <> Returns (Num 512).
Proof.
  intro H.
  apply (f_equal (fun o => match o with
                           | Returns (Num x) => PrimFloat.eqb x 64
                           | _ => false
                           end)) in H.
  vm_compute in H. discriminate H.
Qed.

(** C3: the converter pops while the precedence of the top of the stack is
    greater than or equal to that of the incoming operator, so two operators
    in a row group to the left whenever the first binds at least as tightly
    as the second, exponentiation included: "2^3^2" is converted to
    2 3 ^ 2 ^ and, on a host whose [pow] is exact on 2^3 and 8^2, evaluates
    to 64, that is (2^3)^2, and not to 512. *)
Theorem exponent_groups_left (M : Js.MathLib) (isRadian : bool) (fuel : nat) :
  Js.Math_pow M 2 3 = 8%float ->
  Js.Math_pow M 8 2 = 64%float ->
  (forall a op1 b op2 c : string,
      is_operand a = true -> is_operand b = true -> is_operand c = true ->
      is_binary op1 = true -> is_binary op2 = true ->
      prec_ge (precedence op1) (precedence op2) = true ->
      toPostfix [a; op1; b; op2; c]
        = [resolve a; resolve b; QStr op1; resolve c; QStr op2]) /\
  toPostfix (tokenize "2^3^2")
    = [QStr "2"; QStr "3"; QStr "^"; QStr "2"; QStr "^"] /\
  parseAndEvaluate M isRadian fuel "2^3^2"
    = Returns (Num (Js.Math_pow M (Js.Math_pow M 2 3) 2)) /\
  parseAndEvaluate M isRadian fuel "2^3^2" = Returns (Num 64) /\
  parseAndEvaluate M isRadian fuel "2^3^2" <> Returns (Num 512).
Proof.
  intros H23 H82.
  assert (Hrun : parseAndEvaluate M isRadian fuel "2^3^2"
                 = Returns (Num (Js.Math_pow M (Js.Math_pow M 2 3) 2)))
    by reflexivity.
  split; [exact left_grouping|]. split; [reflexivity|]. split; [exact Hrun|].
  rewrite Hrun, H23, H82. split; [reflexivity|exact returns_neq_64_512].
Qed.

Lemma exponent_groups_left_witness :
  Js.Math_pow sample_math 2 3 = 8%float /\
  Js.Math_pow sample_math 8 2 = 64%float /\
  parseAndEvaluate sample_math true 0 "2^3^2" = Returns (Num 64).
Proof.
  split; [reflexivity|]. split; [reflexivity|].
  apply (exponent_groups_left sample_math true 0); reflexivity.
Defined.

(** ** Angle mode *)

(** C6: in degree mode (the flag [isRadian] off) sin, cos and tan are given
    their operand times pi over 180, computed as [a * Math.PI / 180], and
    asin, acos and atan are given the operand as it is and their result is
    turned into degrees, computed as [r * 180 / Math.PI]; in radian mode
    both directions pass the value through. *)
Theorem angle_mode (M : Js.MathLib) (fuel : nat) (a : float) (b : jsval) :
  let deg := applyOperator M false fuel in
  let rad := applyOperator M true fuel in
  (deg (QStr "sin") (Num a) b = Returns (Num (Js.Math_sin M (a * Js.Math_PI / 180))) /\
   deg (QStr "cos") (Num a) b = Returns (Num (Js.Math_cos M (a * Js.Math_PI / 180))) /\
   deg (QStr "tan") (Num a) b = Returns (Num (Js.Math_tan M (a * Js.Math_PI / 180)))) /\
  (deg (QStr "asin") (Num a) b = Returns (Num (Js.Math_asin M a * 180 / Js.Math_PI)) /\
   deg (QStr "acos") (Num a) b = Returns (Num (Js.Math_acos M a * 180 / Js.Math_PI)) /\
   deg (QStr "atan") (Num a) b = Returns (Num (Js.Math_atan M a * 180 / Js.Math_PI))) /\
  (rad (QStr "sin") (Num a) b = Returns (Num (Js.Math_sin M a)) /\
   rad (QStr "cos") (Num a) b = Returns (Num (Js.Math_cos M a)) /\
   rad (QStr "tan") (Num a) b = Returns (Num (Js.Math_tan M a))) /\
  (rad (QStr "asin") (Num a) b = Returns (Num (Js.Math_asin M a)) /\
   rad (QStr "acos") (Num a) b = Returns (Num (Js.Math_acos M a)) /\
   rad (QStr "atan") (Num a) b = Returns (Num (Js.Math_atan M a))).
Proof. repeat split; reflexivity. Qed.

(** ** Missing operands *)

Lemma nan_add (y : float) : (nan + y)%float = nan.
Proof. apply Prim2SF_inj. rewrite add_spec. reflexivity. Qed.

Lemma nan_sub (y : float) : (nan - y)%float = nan.
Proof. apply Prim2SF_inj. rewrite sub_spec. reflexivity. Qed.

Lemma nan_mul (y : float) : (nan * y)%float = nan.
Proof. apply Prim2SF_inj. rewrite mul_spec. reflexivity. Qed.

Lemma nan_div (y : float) : (nan / y)%float = nan.
Proof. apply Prim2SF_inj. rewrite div_spec. reflexivity. Qed.

Section Errors.

Variable M : Js.MathLib.
Variable isRadian : bool.
Variable fuel : nat.

Lemma factorial_throws (n : jsval) (msg : string) :
  factorial fuel n = Throws msg -> msg = "Invalid factorial".
Proof.
  unfold factorial.
  destruct ((ToNumber n <? 0)%float || negb (Js.rem (ToNumber n) 1 =? 0)%float).
  - intro H. now inversion H.
  - destruct (ToNumber n =? 0)%float; [discriminate|].
    destruct (factorial_loop fuel (ToNumber n) 2 1); discriminate.
Qed.

Lemma applyOperator_throws (op : qtoken) (a b : jsval) (msg : string) :
  applyOperator M isRadian fuel op a b = Throws msg -> known_message msg.
Proof.
  unfold applyOperator, known_message. destruct op as [s|f].
  - repeat match goal with
           | |- context [if ?s =? ?k then _ else _] =>
               destruct (s =? k); [discriminate|]
           end.
    destruct (s =? "fact").
    + intro H. right. exact (factorial_throws a msg H).
    + intro H. left. now inversion H.
  - intro H. left. now inversion H.
Qed.

Lemma evalToken_throws (stack : list jsval) (t : qtoken) (msg : string) :
  evalToken M isRadian fuel stack t = Throws msg -> known_message msg.
Proof.
  unfold evalToken. destruct (negb (isNaN t)); [discriminate|].
  destruct (pop stack) as [b stack1]. destruct (names_function t).
  - destruct (applyOperator M isRadian fuel t b b) eqn:E; simpl; try discriminate.
    intro H. inversion H. subst. exact (applyOperator_throws _ _ _ _ E).
  - destruct (pop stack1) as [a stack2].
    destruct (applyOperator M isRadian fuel t a b) eqn:E; simpl; try discriminate.
    intro H. inversion H. subst. exact (applyOperator_throws _ _ _ _ E).
Qed.

Lemma evalTokens_throws (postfix : list qtoken) :
  forall (stack : list jsval) (msg : string),
    evalTokens M isRadian fuel stack postfix = Throws msg -> known_message msg.
Proof.
  induction postfix as [|t rest IH]; intros stack msg; simpl; [discriminate|].
  destruct (evalToken M isRadian fuel stack t) eqn:E; simpl.
  - apply IH.
  - intro H. inversion H. subst. exact (evalToken_throws _ _ _ E).
  - discriminate.
Qed.

End Errors.

(** C1, as the code has it: the evaluator has no stack-underflow error.  A
    pop from an empty stack gives [undefined] and the evaluation goes on:
    with fewer than two values on the stack each of + - * / pushes NaN, so
    the input "+" alone returns NaN.  The only errors an evaluation raises
    are those of [applyOperator] and [factorial], "Invalid operator" and
    "Invalid factorial"; the latter is what [fact] raises on an empty
    stack. *)
Theorem missing_operands_are_undefined
  (M : Js.MathLib) (isRadian : bool) (fuel : nat)
  (op : string) (stack : list jsval) :
  In op ["+"; "-"; "*"; "/"] ->
  (List.length stack < 2)%nat ->
  pop [] = (Undefined, []) /\
  evalToken M isRadian fuel stack (QStr op) = Returns [Num nan] /\
  parseAndEvaluate M isRadian fuel "+" = Returns (Num nan) /\
  evalToken M isRadian fuel [] (QStr "fact") = Throws "Invalid factorial" /\
  (forall (st : list jsval) (postfix : list qtoken) (msg : string),
      evalTokens M isRadian fuel st postfix = Throws msg ->
      msg = "Invalid operator" \/ msg = "Invalid factorial").
Proof.
  intros Hop Hlen. split; [reflexivity|]. split.
  - destruct stack as [|v [|w rest]]; [| |simpl in Hlen; lia].
    + simpl in Hop. destruct Hop as [<-|[<-|[<-|[<-|[]]]]]; reflexivity.
    + simpl in Hop.
      destruct Hop as [<-|[<-|[<-|[<-|[]]]]]; unfold evalToken; simpl;
        [rewrite nan_add|rewrite nan_sub|rewrite nan_mul|rewrite nan_div];
        reflexivity.
  - split; [reflexivity|]. split; [reflexivity|].
    intros st postfix msg H. exact (evalTokens_throws M isRadian fuel postfix st msg H).
Qed.

Lemma missing_operands_are_undefined_witness :
  In "*" ["+"; "-"; "*"; "/"] /\
  (List.length [Num 7] < 2)%nat /\
  evalToken sample_math true 0 [Num 7] (QStr "*") = Returns [Num nan].
Proof.
  assert (Hin : In "*" ["+"; "-"; "*"; "/"]) by (simpl; auto).
  assert (Hlen : (List.length [Num 7] < 2)%nat) by (simpl; lia).
  split; [exact Hin|]. split; [exact Hlen|].
  apply (missing_operands_are_undefined sample_math true 0 "*" [Num 7] Hin Hlen).
Defined.

(** C1 as stated does not hold on the input "+": one operator, both operands
    missing, and the evaluation returns the number NaN instead of raising. *)
Lemma stack_underflow_not_raised :
  toPostfix (tokenize "+") = [QStr "+"] /\
  pops_of (QStr "+") = 2%nat /\
  evaluatePostfix sample_math true 0 [QStr "+"] = Returns (Num nan).
Proof. repeat split; reflexivity. Qed.

(** ** Constants in the queue *)

Lemma resolve_from_operand (t : string) :
  is_operand t = true -> from_operand (resolve t) = true.
Proof.
  intro H. unfold resolve.
  destruct (t =? pi_sym); [reflexivity|]. destruct (t =? "e"); [reflexivity|exact H].
Qed.

Lemma resolve_not_name (t s : string) :
  resolve t = QStr s -> s <> pi_sym /\ s <> "e".
Proof.
  unfold resolve.
  destruct (t =? pi_sym) eqn:E1; [discriminate|].
  destruct (t =? "e") eqn:E2; [discriminate|].
  intro H. inversion H. subst s.
  apply String.eqb_neq in E1. apply String.eqb_neq in E2. now split.
Qed.

Lemma operands_of_app (xs ys : list qtoken) :
  operands_of (xs ++ ys) = operands_of xs ++ operands_of ys.
Proof. apply filter_app. Qed.

Lemma operands_of_popped (p : list string) :
  Forall (fun s => is_operand s = false) p -> operands_of (map QStr p) = [].
Proof.
  induction 1 as [|s p Hs _ IH]; [reflexivity|].
  unfold operands_of in *. simpl. now rewrite Hs.
Qed.

(** The operator stack never holds an operand, and the operands of the queue
    are those of the tokens read, resolved, in the order read. *)
Lemma shunt_operands (t : string) (out : list qtoken) (ops : list string) :
  Forall (fun s => is_operand s = false) ops ->
  let (out', ops') := shunt (out, ops) t in
  Forall (fun s => is_operand s = false) ops' /\
  operands_of out' = operands_of out ++ map resolve (filter is_operand [t]).
Proof.
  intro Hops. unfold shunt. simpl filter.
  destruct (is_operand t) eqn:Ht.
  - split; [exact Hops|]. rewrite operands_of_app. simpl.
    unfold operands_of at 2. simpl. now rewrite (resolve_from_operand t Ht).
  - simpl map. rewrite app_nil_r.
    destruct (is_function t); [split; [now constructor|reflexivity]|].
    destruct (t =? "("); [split; [now constructor|reflexivity]|].
    destruct (t =? ")").
    + destruct (pop_to_paren_spec ops out) as (p & r & Hsplit & -> & _ & _).
      subst ops. apply Forall_app in Hops. destruct Hops as [Hp Hr].
      assert (Hout : operands_of (out ++ map QStr p) = operands_of out).
      { rewrite operands_of_app, (operands_of_popped p Hp). apply app_nil_r. }
      assert (Htl : Forall (fun s => is_operand s = false) (tl r)).
      { destruct r; [constructor|]. now inversion Hr. }
      destruct (tl r) as [|top ops3] eqn:Er; [now split|].
      destruct (is_function top); [|now split].
      inversion Htl; subst. split; [assumption|].
      rewrite operands_of_app, Hout. unfold operands_of at 2. simpl.
      rewrite H1. apply app_nil_r.
    + destruct (pop_higher_spec t ops out) as (p & r & Hsplit & -> & _).
      subst ops. apply Forall_app in Hops. destruct Hops as [Hp Hr].
      split; [now constructor|].
      rewrite operands_of_app, (operands_of_popped p Hp). apply app_nil_r.
Qed.

Lemma fold_shunt_operands (tokens : list string) :
  forall (out : list qtoken) (ops : list string),
    Forall (fun s => is_operand s = false) ops ->
    let (out', ops') := fold_left shunt tokens (out, ops) in
    Forall (fun s => is_operand s = false) ops' /\
    operands_of out' = operands_of out ++ map resolve (filter is_operand tokens).
Proof.
  induction tokens as [|t rest IH]; intros out ops Hops.
  - simpl. rewrite app_nil_r. now split.
  - cbn [fold_left].
    pose proof (shunt_operands t out ops Hops) as Hstep.
    destruct (shunt (out, ops) t) as [out1 ops1]. destruct Hstep as [Hops1 Hout1].
    specialize (IH out1 ops1 Hops1).
    destruct (fold_left shunt rest (out1, ops1)) as [out' ops'].
    destruct IH as [Hops' Hout']. split; [exact Hops'|].
    rewrite Hout', Hout1, <- app_assoc, <- map_app. f_equal. f_equal.
    simpl. destruct (is_operand t); reflexivity.
Qed.

Lemma toPostfix_operands (tokens : list string) :
  operands_of (toPostfix tokens) = map resolve (filter is_operand tokens).
Proof.
  unfold toPostfix.
  pose proof (fold_shunt_operands tokens [] [] (Forall_nil _)) as H.
  destruct (fold_left shunt tokens ([], [])) as [out ops]. destruct H as [Hops Hout].
  rewrite pop_all_spec, operands_of_app, (operands_of_popped ops Hops), app_nil_r.
  exact Hout.
Qed.

(** C2, as the code has it: the constants pi and e are replaced by the
    numbers [Math.PI] and [Math.E] when the converter appends them to the
    queue, so neither name is ever an element of the queue; the constant i
    is appended as the name it is, and the evaluator, which takes it for an
    operator, raises "Invalid operator" on it.  The operands of the queue
    are exactly the operands among the tokens, in their order, each resolved
    in this way. *)
Theorem constants_in_queue (tokens : list string) :
  operands_of (toPostfix tokens) = map resolve (filter is_operand tokens) /\
  (forall s, In (QStr s) (toPostfix tokens) -> s <> pi_sym /\ s <> "e") /\
  resolve pi_sym = QNum Js.Math_PI /\
  resolve "e" = QNum Js.Math_E /\
  resolve "i" = QStr "i" /\
  (forall (M : Js.MathLib) (isRadian : bool) (fuel : nat) (stack : list jsval),
      evalToken M isRadian fuel stack (QStr "i") = Throws "Invalid operator").
Proof.
  split; [apply toPostfix_operands|]. split.
  - intros s Hin.
    destruct (is_operand s) eqn:Hs.
    + assert (Hin' : In (QStr s) (operands_of (toPostfix tokens))).
      { apply filter_In. split; [exact Hin|exact Hs]. }
      rewrite toPostfix_operands in Hin'. apply in_map_iff in Hin'.
      destruct Hin' as (t & Ht & _). exact (resolve_not_name t s Ht).
    + split; intro E; subst s; discriminate Hs.
  - repeat split. intros M isRadian fuel stack.
    destruct stack as [|b [|a rest]]; reflexivity.
Qed.

(** C2 as stated does not hold on the input "i": the queue handed to the evaluator
    holds the constant name itself. *)
Lemma constant_i_unresolved :
  tokenize "i" = ["i"] /\
  toPostfix (tokenize "i") = [QStr "i"] /\
  existsb unresolved_constant (toPostfix (tokenize "i")) = true.
Proof. repeat split; reflexivity. Qed.

(** ** Stack discipline of well-formed input *)

Lemma depth_after_app (xs ys : list qtoken) :
  forall d,
    depth_after d (xs ++ ys) =
    match depth_after d xs with
    | Some d' => depth_after d' ys
    | None => None
    end.
Proof.
  induction xs as [|t xs IH]; intro d; simpl; [reflexivity|].
  destruct (arity_step d t); [apply IH|reflexivity].
Qed.

Lemma pops_of_binary (s : string) : is_binary s = true -> pops_of (QStr s) = 2%nat.
Proof. intro H. binary_cases H; reflexivity. Qed.

Lemma pops_of_function (s : string) : is_function s = true -> pops_of (QStr s) = 1%nat.
Proof. intro H. function_cases H; reflexivity. Qed.

Lemma pops_of_number (t : qtoken) : isNaN t = false -> pops_of t = 0%nat.
Proof. intro H. unfold pops_of. now rewrite H. Qed.

Lemma count_binary_app (p r : list string) :
  count_binary (p ++ r) = (count_binary p + count_binary r)%nat.
Proof. unfold count_binary. now rewrite filter_app, length_app. Qed.

Lemma count_open_app (p r : list string) :
  count_open (p ++ r) = (count_open p + count_open r)%nat.
Proof. unfold count_open. now rewrite filter_app, length_app. Qed.

Lemma count_open_none (p : list string) : ~ In "(" p -> count_open p = 0%nat.
Proof.
  induction p as [|s p IH]; intro H; [reflexivity|].
  unfold count_open in *. cbn [filter].
  destruct (is_open s) eqn:E.
  - apply String.eqb_eq in E. exfalso. apply H. now left.
  - apply IH. intro Hin. apply H. now right.
Qed.

Lemma count_open_binary (p : list string) :
  Forall (fun s => is_binary s = true) p -> count_open p = 0%nat.
Proof.
  intro H. apply count_open_none. intro Hin.
  rewrite Forall_forall in H. specialize (H _ Hin). discriminate H.
Qed.

(** Operators and functions moved from the stack to the queue find their
    operands when the queue holds one value more than the binary operators
    moved. *)
Lemma depth_after_popped (p : list string) :
  forall d,
    Forall stackable p -> ~ In "(" p ->
    (count_binary p < d)%nat ->
    depth_after d (map QStr p) = Some (d - count_binary p)%nat.
Proof.
  induction p as [|s p IH]; intros d Hall Hno Hd; simpl.
  - f_equal. unfold count_binary. simpl. lia.
  - inversion Hall as [|? ? Hs Hp]; subst.
    assert (Hno' : ~ In "(" p) by (intro; apply Hno; now right).
    destruct Hs as [Hb|[Hf|He]]; [| |exfalso; apply Hno; now left].
    + assert (Hc : count_binary (s :: p) = S (count_binary p)).
      { unfold count_binary. simpl. now rewrite Hb. }
      rewrite Hc in *. unfold arity_step. rewrite (pops_of_binary s Hb).
      destruct (2 <=? d)%nat eqn:E; [|apply Nat.leb_gt in E; lia].
      rewrite IH; auto; [f_equal; lia|lia].
    + assert (Hc : count_binary (s :: p) = count_binary p).
      { unfold count_binary. simpl. now rewrite (function_not_binary s Hf). }
      rewrite Hc in *. unfold arity_step. rewrite (pops_of_function s Hf).
      destruct (1 <=? d)%nat eqn:E; [|apply Nat.leb_gt in E; lia].
      rewrite IH; auto; [f_equal; lia|lia].
Qed.

Lemma applicable_popped (p : list string) :
  Forall stackable p -> ~ In "(" p -> Forall applicable (map QStr p).
Proof.
  induction p as [|s p IH]; intros Hall Hno; simpl; constructor.
  - inversion Hall as [|? ? Hs Hp]; subst. right. exists s. split; [reflexivity|].
    destruct Hs as [Hb|[Hf|He]]; auto. exfalso. apply Hno. now left.
  - inversion Hall; subst. apply IH; auto. intro. apply Hno. now right.
Qed.

Lemma binary_no_paren (p : list string) :
  Forall (fun s => is_binary s = true) p -> ~ In "(" p.
Proof.
  intros H Hin. rewrite Forall_forall in H. specialize (H _ Hin). discriminate H.
Qed.

(** An operand other than the constant i is put on the queue as a number or
    a numeric string. *)
Lemma resolve_numeric (t : string) :
  is_operand t = true -> t <> "i" -> isNaN (resolve t) = false.
Proof.
  unfold is_operand, resolve. intros H Hi.
  destruct (t =? pi_sym); [reflexivity|]. destruct (t =? "e"); [reflexivity|].
  destruct (t =? "i") eqn:E; [apply String.eqb_eq in E; contradiction|].
  simpl. repeat rewrite orb_false_r in H. now apply negb_true_iff in H.
Qed.

(** Every expression of the grammar is accepted by the scan. *)
Lemma expression_scan (e : list string) :
  expression e ->
  forall (depth : nat) (rest : list string),
    wf_scan false depth rest = true -> wf_scan true depth (e ++ rest) = true.
Proof.
  induction 1 as [t Ht|e _ IH|f e Hf _ IH|e1 op e2 _ IH1 Hop _ IH2];
    intros depth rest Hrest.
  - cbn [app wf_scan]. now rewrite Ht.
  - rewrite <- app_comm_cons, <- app_assoc. cbn [wf_scan].
    change (is_operand "(") with false. change (is_function "(") with false.
    change ("(" =? "(") with true. cbv iota. apply IH. exact Hrest.
  - rewrite <- app_comm_cons. cbn [wf_scan].
    rewrite (function_not_operand f Hf), Hf. now apply IH.
  - rewrite <- app_assoc. apply IH1. rewrite <- app_comm_cons. cbn [wf_scan].
    rewrite Hop. now apply IH2.
Qed.

Lemma expression_wellformed (e : list string) : expression e -> wellformed e = true.
Proof.
  intro H. unfold wellformed. rewrite <- (app_nil_r e).
  now apply (expression_scan e H 0 []).
Qed.

Lemma count_open_zero (p : list string) : count_open p = 0%nat -> ~ In "(" p.
Proof.
  induction p as [|s p IH]; intros H Hin; [contradiction|].
  unfold count_open in *. cbn [filter] in H.
  destruct (is_open s) eqn:E; [discriminate H|].
  destruct Hin as [->|Hin]; [discriminate E|]. now apply IH.
Qed.

Lemma count_binary_cons (s : string) (p : list string) :
  count_binary (s :: p) = ((if is_binary s then 1 else 0) + count_binary p)%nat.
Proof. unfold count_binary. cbn [filter]. now destruct (is_binary s). Qed.

Lemma count_open_cons (s : string) (p : list string) :
  count_open (s :: p) = ((if is_open s then 1 else 0) + count_open p)%nat.
Proof. unfold count_open. cbn [filter]. now destruct (is_open s). Qed.

Lemma binary_stackable (p : list string) :
  Forall (fun s => is_binary s = true) p -> Forall stackable p.
Proof. apply Forall_impl. intros s H. now left. Qed.

(** One step of the converter keeps the invariant along the scan of a
    well-formed sequence. *)
Lemma shunt_inv (t : string) (rest : list string) (expect : bool) (depth : nat)
  (out out' : list qtoken) (ops ops' : list string) :
  t <> "i" ->
  wf_scan expect depth (t :: rest) = true ->
  converter_inv expect depth out ops ->
  shunt (out, ops) t = (out', ops') ->
  exists expect' depth',
    wf_scan expect' depth' rest = true /\ converter_inv expect' depth' out' ops'.
Proof.
  intros Hi Hwf (Hops & Hout & Hopen & Hdepth) Hstep. cbn [wf_scan] in Hwf.
  destruct expect.
  - destruct (is_operand t) eqn:Ht.
    + (* an operand goes to the queue *)
      rewrite (shunt_operand out ops t Ht) in Hstep. injection Hstep as <- <-.
      exists false, depth. split; [exact Hwf|].
      pose proof (resolve_numeric t Ht Hi) as Hnum.
      repeat split; auto.
      * apply Forall_app. split; [exact Hout|]. constructor; [now left|constructor].
      * rewrite depth_after_app, Hdepth. cbn [depth_after].
        unfold arity_step. rewrite (pops_of_number _ Hnum). simpl. first [reflexivity|f_equal; lia].
    + destruct (is_function t) eqn:Hf.
      * (* a function name waits on the stack *)
        rewrite (shunt_function out ops t Hf) in Hstep. injection Hstep as <- <-.
        exists true, depth. split; [exact Hwf|].
        repeat split; auto.
        -- constructor; [right; now left|exact Hops].
        -- rewrite count_open_cons. unfold is_open.
           now rewrite (function_not_paren t Hf).
        -- rewrite count_binary_cons, (function_not_binary t Hf). exact Hdepth.
      * destruct (t =? "(") eqn:Hp; [|discriminate Hwf].
        apply String.eqb_eq in Hp. subst t.
        rewrite shunt_open in Hstep. injection Hstep as <- <-.
        exists true, (S depth). split; [exact Hwf|].
        repeat split; auto.
        -- constructor; [right; now right|exact Hops].
        -- rewrite count_open_cons. cbn. now f_equal.
  - destruct (is_binary t) eqn:Hb.
    + (* an operator moves those that bind at least as tightly to the queue *)
      rewrite (shunt_binary out ops t Hb) in Hstep.
      destruct (pop_higher_spec t ops out) as (p & r & Hsplit & Hpop & Hp).
      rewrite Hpop in Hstep. subst ops. injection Hstep as <- <-.
      apply Forall_app in Hops. destruct Hops as [_ Hr].
      rewrite count_binary_app in Hdepth.
      rewrite count_open_app, (count_open_binary p Hp) in Hopen.
      exists true, depth. split; [exact Hwf|].
      repeat split.
      * constructor; [now left|exact Hr].
      * apply Forall_app. split; [exact Hout|].
        apply applicable_popped; [now apply binary_stackable|now apply binary_no_paren].
      * rewrite count_open_cons. unfold is_open.
        destruct (binary_not_paren t Hb) as [-> _]. exact Hopen.
      * rewrite depth_after_app, Hdepth.
        rewrite depth_after_popped;
          [|now apply binary_stackable|now apply binary_no_paren|lia].
        rewrite count_binary_cons, Hb. first [reflexivity|f_equal; lia].
    + destruct (t =? ")") eqn:Hp; [|discriminate Hwf].
      apply String.eqb_eq in Hp. subst t.
      destruct depth as [|d]; [discriminate Hwf|].
      (* a right parenthesis closes the innermost open one *)
      rewrite shunt_close in Hstep.
      destruct (pop_to_paren_spec ops out) as (p & r & Hsplit & Hpop & Hno & Hr).
      rewrite Hpop in Hstep. subst ops.
      apply Forall_app in Hops. destruct Hops as [Hsp Hsr].
      rewrite count_open_app, (count_open_none p Hno) in Hopen.
      rewrite count_binary_app in Hdepth.
      destruct Hr as [->|[r' ->]]; [discriminate Hopen|].
      rewrite count_open_cons in Hopen. cbn in Hopen.
      rewrite count_binary_cons in Hdepth.
      change (is_binary "(") with false in Hdepth.
      inversion Hsr as [|? ? _ Hsr']; subst.
      assert (Hout1 : Forall applicable (out ++ map QStr p)).
      { apply Forall_app. split; [exact Hout|now apply applicable_popped]. }
      assert (Hd1 : depth_after 0 (out ++ map QStr p) = Some (1 + count_binary r')%nat).
      { rewrite depth_after_app, Hdepth.
        rewrite (depth_after_popped p _ Hsp Hno); [f_equal; lia|lia]. }
      cbn [tl] in Hstep.
      destruct r' as [|top ops3].
      * injection Hstep as <- <-. exists false, d. split; [exact Hwf|].
        repeat split; auto; now injection Hopen.
      * destruct (is_function top) eqn:Hf.
        -- injection Hstep as <- <-. exists false, d. split; [exact Hwf|].
           inversion Hsr'; subst.
           rewrite count_open_cons in Hopen. unfold is_open in Hopen.
           rewrite (function_not_paren top Hf) in Hopen.
           rewrite count_binary_cons, (function_not_binary top Hf) in Hd1.
           refine (conj _ (conj _ (conj _ _))).
           ++ assumption.
           ++ apply Forall_app. split; [exact Hout1|].
              constructor; [|constructor]. right. exists top. auto.
           ++ simpl in Hopen. now injection Hopen.
           ++ rewrite depth_after_app, Hd1. cbn [depth_after].
              unfold arity_step. rewrite (pops_of_function top Hf). simpl.
              first [reflexivity|f_equal; lia].
        -- injection Hstep as <- <-. exists false, d. split; [exact Hwf|].
           repeat split; auto; now injection Hopen.
Qed.

Lemma fold_shunt_inv (tokens : list string) :
  forall (expect : bool) (depth : nat) (out out' : list qtoken) (ops ops' : list string),
    ~ In "i" tokens ->
    wf_scan expect depth tokens = true ->
    converter_inv expect depth out ops ->
    fold_left shunt tokens (out, ops) = (out', ops') ->
    converter_inv false 0 out' ops'.
Proof.
  induction tokens as [|t rest IH]; intros expect depth out out' ops ops' Hi Hwf Hinv Hfold.
  - simpl in Hfold. inversion Hfold; subst. simpl in Hwf.
    apply andb_true_iff in Hwf. destruct Hwf as [He Hd].
    apply negb_true_iff in He. apply Nat.eqb_eq in Hd. now subst.
  - cbn [fold_left] in Hfold.
    destruct (shunt (out, ops) t) as [out1 ops1] eqn:Hstep.
    assert (Ht : t <> "i") by (intro; apply Hi; now left).
    destruct (shunt_inv t rest expect depth out out1 ops ops1 Ht Hwf Hinv Hstep)
      as (expect' & depth' & Hwf' & Hinv').
    apply (IH expect' depth' out1 out' ops1 ops'); auto.
    intro Hin. apply Hi. now right.
Qed.

(** The queue of a well-formed sequence evaluates to one value, each token
    finding its operands, and holds nothing the evaluator cannot apply. *)
Lemma toPostfix_depth (tokens : list string) :
  wellformed tokens = true -> ~ In "i" tokens ->
  depth_after 0 (toPostfix tokens) = Some 1%nat /\
  Forall applicable (toPostfix tokens).
Proof.
  intros Hwf Hi. unfold toPostfix.
  destruct (fold_left shunt tokens ([], [])) as [out ops] eqn:Hfold.
  assert (Hinit : converter_inv true 0 [] []).
  { repeat split; constructor. }
  destruct (fold_shunt_inv tokens true 0%nat [] out [] ops Hi Hwf Hinit Hfold)
    as (Hops & Hout & Hopen & Hdepth).
  pose proof (count_open_zero ops Hopen) as Hno.
  rewrite pop_all_spec. split.
  - rewrite depth_after_app, Hdepth.
    rewrite (depth_after_popped ops _ Hops Hno); [f_equal; lia|lia].
  - apply Forall_app. split; [exact Hout|now apply applicable_popped].
Qed.

(** Every string of the queue is one of the tokens read. *)
Lemma shunt_from_tokens (t : string) (out out' : list qtoken) (ops ops' : list string) :
  shunt (out, ops) t = (out', ops') ->
  forall s, In (QStr s) out' \/ In s ops' -> In (QStr s) out \/ In s ops \/ s = t.
Proof.
  intros Hstep s. unfold shunt in Hstep.
  assert (Hmap : forall p, In (QStr s) (map QStr p) -> In s p).
  { intros p H. apply in_map_iff in H. destruct H as (x & Hx & Hin).
    inversion Hx. now subst. }
  destruct (is_operand t).
  - injection Hstep as <- <-. intros [H|H]; auto.
    apply in_app_or in H. destruct H as [H|[H|[]]]; auto.
    unfold resolve in H. destruct (t =? pi_sym); [discriminate|].
    destruct (t =? "e"); [discriminate|]. inversion H. auto.
  - destruct (is_function t).
    { injection Hstep as <- <-. intros [H|[H|H]]; auto. }
    destruct (t =? "(").
    { injection Hstep as <- <-. intros [H|[H|H]]; auto. }
    destruct (t =? ")").
    + destruct (pop_to_paren_spec ops out) as (p & r & -> & Hpop & _ & _).
      rewrite Hpop in Hstep.
      assert (Hout1 : In (QStr s) (out ++ map QStr p) -> In (QStr s) out \/ In s (p ++ r)).
      { intro H. apply in_app_or in H. destruct H as [H|H]; auto.
        right. apply in_or_app. left. now apply Hmap. }
      assert (Htl : forall x, In x (tl r) -> In x (p ++ r)).
      { intros x H. apply in_or_app. right. destruct r; [contradiction|now right]. }
      destruct (tl r) as [|top ops3] eqn:Er.
      * injection Hstep as <- <-. intros [H|[]]. destruct (Hout1 H); auto.
      * destruct (is_function top); injection Hstep as <- <-.
        -- intros [H|H].
           ++ apply in_app_or in H. destruct H as [H|[H|[]]].
              ** destruct (Hout1 H); auto.
              ** inversion H. subst. right. left. apply Htl. now left.
           ++ right. left. apply Htl. now right.
        -- intros [H|H]; [destruct (Hout1 H); auto|].
           right. left. now apply Htl.
    + destruct (pop_higher_spec t ops out) as (p & r & -> & Hpop & _).
      rewrite Hpop in Hstep. injection Hstep as <- <-.
      intros [H|[H|H]]; auto.
      * apply in_app_or in H. destruct H as [H|H]; auto.
        right. left. apply in_or_app. left. now apply Hmap.
      * right. left. apply in_or_app. now right.
Qed.

Lemma fold_shunt_from_tokens (tokens : list string) :
  forall (out out' : list qtoken) (ops ops' : list string),
    fold_left shunt tokens (out, ops) = (out', ops') ->
    forall s, In (QStr s) out' \/ In s ops' -> In (QStr s) out \/ In s ops \/ In s tokens.
Proof.
  induction tokens as [|t rest IH]; intros out out' ops ops' Hfold s H.
  - simpl in Hfold. injection Hfold as <- <-. destruct H; auto.
  - cbn [fold_left] in Hfold.
    destruct (shunt (out, ops) t) as [out1 ops1] eqn:Hstep.
    destruct (IH out1 out' ops1 ops' Hfold s H) as [H1|[H1|H1]].
    + destruct (shunt_from_tokens t out out1 ops ops1 Hstep s (or_introl H1))
        as [H2|[H2|H2]]; auto. right. right. left. now symmetry.
    + destruct (shunt_from_tokens t out out1 ops ops1 Hstep s (or_intror H1))
        as [H2|[H2|H2]]; auto. right. right. left. now symmetry.
    + right. right. now right.
Qed.

Lemma toPostfix_from_tokens (tokens : list string) (s : string) :
  In (QStr s) (toPostfix tokens) -> In s tokens.
Proof.
  unfold toPostfix.
  destruct (fold_left shunt tokens ([], [])) as [out ops] eqn:Hfold.
  rewrite pop_all_spec. intro H. apply in_app_or in H.
  assert (H' : In (QStr s) out \/ In s ops).
  { destruct H as [H|H]; auto. right. apply in_map_iff in H.
    destruct H as (x & Hx & Hin). inversion Hx. now subst. }
  destruct (fold_shunt_from_tokens tokens [] out [] ops Hfold s H') as [[]|[[]|Hin]].
  exact Hin.
Qed.

Section Discipline.

Variable M : Js.MathLib.
Variable isRadian : bool.
Variable fuel : nat.

Lemma evalToken_length (stack stack' : list jsval) (t : qtoken) :
  (pops_of t <= List.length stack)%nat ->
  evalToken M isRadian fuel stack t = Returns stack' ->
  List.length stack' = (S (List.length stack) - pops_of t)%nat.
Proof.
  unfold evalToken, pops_of. destruct (negb (isNaN t)).
  - intros _ H. inversion H. simpl. lia.
  - destruct (names_function t).
    + destruct stack as [|b stack1]; simpl; [lia|]. intros _.
      destruct (applyOperator M isRadian fuel t b b); simpl; try discriminate.
      intro H. inversion H. simpl. lia.
    + destruct stack as [|b [|a stack2]]; simpl; try lia. intros _.
      destruct (applyOperator M isRadian fuel t a b); simpl; try discriminate.
      intro H. inversion H. simpl. lia.
Qed.

Lemma depth_run (postfix : list qtoken) :
  forall (stack : list jsval) (d : nat),
    depth_after (List.length stack) postfix = Some d ->
    no_underflow M isRadian fuel stack postfix /\
    (forall stack', evalTokens M isRadian fuel stack postfix = Returns stack' ->
                    List.length stack' = d).
Proof.
  induction postfix as [|t rest IH]; intros stack d; simpl.
  - intro H. inversion H. split; [exact I|]. intros stack' H'. now inversion H'.
  - unfold arity_step. destruct (pops_of t <=? List.length stack)%nat eqn:E; [|discriminate].
    apply Nat.leb_le in E. intro Hd.
    destruct (evalToken M isRadian fuel stack t) as [stack1| |] eqn:Et; simpl.
    + rewrite <- (evalToken_length stack stack1 t E Et) in Hd.
      destruct (IH stack1 d Hd) as [Hsafe Hlen]. auto.
    + split; [auto|discriminate].
    + split; [auto|discriminate].
Qed.

Lemma applyOperator_binary (s : string) (a b : jsval) :
  is_binary s = true -> exists v, applyOperator M isRadian fuel (QStr s) a b = Returns v.
Proof. intro H. binary_cases H; eexists; reflexivity. Qed.

Lemma applyOperator_function (s : string) (a b : jsval) :
  is_function s = true -> s <> "fact" ->
  exists v, applyOperator M isRadian fuel (QStr s) a b = Returns v.
Proof.
  intros H Hs. function_cases H; try (eexists; reflexivity). now contradiction Hs.
Qed.

(** A token the evaluator can apply raises nothing, [fact] apart. *)
Lemma evalToken_applicable (stack : list jsval) (t : qtoken) :
  applicable t ->
  match evalToken M isRadian fuel stack t with
  | Returns _ => True
  | Throws msg => msg = "Invalid factorial" /\ t = QStr "fact"
  | Unfinished => t = QStr "fact"
  end.
Proof.
  intros [Hnum|(s & -> & [Hb|Hf])]; unfold evalToken.
  - now rewrite Hnum.
  - assert (Hnan : isNaN (QStr s) = true) by (binary_cases Hb; reflexivity).
    rewrite Hnan. simpl negb. cbn match.
    destruct (pop stack) as [b stack1]. cbn [names_function].
    rewrite (binary_not_function s Hb). destruct (pop stack1) as [a stack2].
    destruct (applyOperator_binary s a b Hb) as [v ->]. exact I.
  - assert (Hnan : isNaN (QStr s) = true) by (function_cases Hf; reflexivity).
    rewrite Hnan. simpl negb. cbn match.
    destruct (pop stack) as [b stack1]. cbn [names_function]. rewrite Hf.
    destruct (String.eqb_spec s "fact") as [->|Hs].
    + change (applyOperator M isRadian fuel (QStr "fact") b b) with (factorial fuel b).
      destruct (factorial fuel b) eqn:E; simpl; auto.
      split; [exact (factorial_throws fuel b msg E)|reflexivity].
    + destruct (applyOperator_function s b b Hf Hs) as [v ->]. exact I.
Qed.

Lemma evalTokens_applicable (postfix : list qtoken) :
  Forall applicable postfix ->
  forall stack,
    match evalTokens M isRadian fuel stack postfix with
    | Returns _ => True
    | Throws msg => msg = "Invalid factorial" /\ In (QStr "fact") postfix
    | Unfinished => In (QStr "fact") postfix
    end.
Proof.
  induction 1 as [|t rest Ht _ IH]; intro stack; simpl; [exact I|].
  pose proof (evalToken_applicable stack t Ht) as Hstep.
  destruct (evalToken M isRadian fuel stack t) as [stack1| |]; simpl.
  - specialize (IH stack1).
    destruct (evalTokens M isRadian fuel stack1 rest); intuition.
  - destruct Hstep as [-> ->]. auto.
  - subst t. auto.
Qed.

End Discipline.

(** C4, as the code has it: for a well-formed token sequence whose operands
    are numeric literals, pi or e, the conversion to postfix followed by the
    stack evaluation never pops an empty stack; when the evaluation ends it
    leaves exactly one value on the stack and returns that value; the only
    error it can raise is the "Invalid factorial" of [fact], and without
    [fact] among the tokens it does end with a value. *)
Theorem wellformed_evaluation
  (M : Js.MathLib) (isRadian : bool) (fuel : nat) (tokens : list string) :
  wellformed tokens = true ->
  ~ In "i" tokens ->
  let postfix := toPostfix tokens in
  no_underflow M isRadian fuel [] postfix /\
  (forall stack,
      evalTokens M isRadian fuel [] postfix = Returns stack ->
      exists v, stack = [v] /\ evaluatePostfix M isRadian fuel postfix = Returns v) /\
  (forall msg,
      evaluatePostfix M isRadian fuel postfix = Throws msg ->
      msg = "Invalid factorial" /\ In "fact" tokens) /\
  (evaluatePostfix M isRadian fuel postfix = Unfinished -> In "fact" tokens) /\
  (~ In "fact" tokens ->
   exists v, evalTokens M isRadian fuel [] postfix = Returns [v] /\
             evaluatePostfix M isRadian fuel postfix = Returns v).
Proof.
  intros Hwf Hi postfix.
  destruct (toPostfix_depth tokens Hwf Hi) as [Hdepth Happ].
  fold postfix in Hdepth, Happ.
  destruct (depth_run M isRadian fuel postfix [] 1%nat Hdepth) as [Hsafe Hlen].
  pose proof (evalTokens_applicable M isRadian fuel postfix Happ []) as Hout.
  assert (Hone : forall stack,
             evalTokens M isRadian fuel [] postfix = Returns stack ->
             exists v, stack = [v] /\ evaluatePostfix M isRadian fuel postfix = Returns v).
  { intros stack Hrun. specialize (Hlen stack Hrun).
    destruct stack as [|v [|w rest]]; try discriminate Hlen.
    exists v. split; [reflexivity|]. unfold evaluatePostfix. now rewrite Hrun. }
  unfold evaluatePostfix.
  destruct (evalTokens M isRadian fuel [] postfix) as [stack|msg|] eqn:Hrun;
    cbn [bind]; refine (conj Hsafe (conj _ (conj _ (conj _ _)))).
  - intros stack' Hs. inversion Hs. subst stack'.
    destruct (Hone stack eq_refl) as (v & -> & _). now exists v.
  - discriminate.
  - discriminate.
  - intros _. destruct (Hone stack eq_refl) as (v & -> & _). now exists v.
  - discriminate.
  - intros m Hm. inversion Hm. subst m. destruct Hout as [-> Hfact].
    split; [reflexivity|exact (toPostfix_from_tokens tokens "fact" Hfact)].
  - discriminate.
  - intro Hno. destruct Hout as [_ Hfact].
    exfalso. exact (Hno (toPostfix_from_tokens tokens "fact" Hfact)).
  - discriminate.
  - discriminate.
  - intros _. exact (toPostfix_from_tokens tokens "fact" Hout).
  - intro Hno. exfalso. exact (Hno (toPostfix_from_tokens tokens "fact" Hout)).
Qed.

Lemma wellformed_evaluation_witness :
  wellformed ["sin"; "("; "2"; "+"; "3"; ")"; "*"; pi_sym] = true /\
  ~ In "i" ["sin"; "("; "2"; "+"; "3"; ")"; "*"; pi_sym] /\
  no_underflow sample_math true 0 []
    (toPostfix ["sin"; "("; "2"; "+"; "3"; ")"; "*"; pi_sym]).
Proof.
  assert (Hi : ~ In "i" ["sin"; "("; "2"; "+"; "3"; ")"; "*"; pi_sym]).
  { simpl. intuition discriminate. }
  split; [reflexivity|]. split; [exact Hi|].
  apply (wellformed_evaluation sample_math true 0
           ["sin"; "("; "2"; "+"; "3"; ")"; "*"; pi_sym] eq_refl Hi).
Defined.

(** C4 as stated does not hold on "fact(2.5)": the tokens are well formed, the
    function is applied to a parenthesized operand, and the evaluation ends
    in the error of [fact] with no value returned. *)
Lemma wellformed_input_raises :
  tokenize "fact(2.5)" = ["fact"; "("; "2.5"; ")"] /\
  wellformed ["fact"; "("; "2.5"; ")"] = true /\
  parseAndEvaluate sample_math true 100 "fact(2.5)" = Throws "Invalid factorial".
Proof. repeat split; reflexivity. Qed.

(** ** Doubles that are integers *)

Section Doubles.

Local Open Scope Z_scope.

Lemma fexp_eq (x : Z) : fexp prec emax x = Z.max (x - 53) (-1074).
Proof. reflexivity. Qed.

Lemma digits2_size (p : positive) : digits2_pos p = Pos.size p.
Proof. induction p; simpl; congruence. Qed.

Lemma digits2_log2 (p : positive) : Zpos (digits2_pos p) = Z.log2 (Zpos p) + 1.
Proof. rewrite digits2_size. destruct p; simpl; lia. Qed.

Lemma iter_xO_val (m n : positive) : Zpos (Pos.iter xO m n) = Zpos m * 2 ^ Zpos n.
Proof.
  induction n as [|n IH] using Pos.peano_ind.
  - simpl. lia.
  - rewrite Pos.iter_succ, Pos2Z.inj_xO, IH, Pos2Z.inj_succ, Z.pow_succ_r by lia. lia.
Qed.

Lemma iter_xO_digits (m n : positive) :
  digits2_pos (Pos.iter xO m n) = (digits2_pos m + n)%positive.
Proof.
  induction n as [|n IH] using Pos.peano_ind.
  - simpl. lia.
  - rewrite Pos.iter_succ. simpl. rewrite IH. lia.
Qed.

Lemma iter_pos_iter {A : Type} (f : A -> A) (n : positive) :
  forall x, iter_pos f n x = Pos.iter f x n.
Proof.
  induction n as [n IH|n IH|]; intro x; simpl.
  - rewrite !IH. now rewrite !Pos.iter_swap.
  - now rewrite !IH.
  - reflexivity.
Qed.

Lemma shr_iter_xO (n : positive) :
  forall m,
    iter_pos shr_1 n {| shr_m := Zpos (Pos.iter xO m n); shr_r := false; shr_s := false |}
    = {| shr_m := Zpos m; shr_r := false; shr_s := false |}.
Proof.
  intro m. rewrite iter_pos_iter. revert m.
  induction n as [|n IH] using Pos.peano_ind; intro m.
  - reflexivity.
  - rewrite (Pos.iter_succ n _ xO), (Pos.iter_succ n _ shr_1), <- Pos.iter_swap.
    cbn [shr_1 orb]. apply IH.
Qed.

Lemma shl_align_ge (m : positive) (e e' : Z) : e <= e' -> shl_align m e e' = (m, e).
Proof.
  intro H. unfold shl_align. destruct (e' - e) eqn:E; try reflexivity. lia.
Qed.

Lemma shl_align_lt (m : positive) (e e' : Z) :
  e' < e -> shl_align m e e' = (Pos.iter xO m (Z.to_pos (e - e')), e').
Proof.
  intro H. unfold shl_align. destruct (e' - e) eqn:E; try lia.
  repeat f_equal. lia.
Qed.

Lemma shl_align_val (m : positive) (e e' : Z) :
  e' <= e -> Zpos (fst (shl_align m e e')) = Zpos m * 2 ^ (e - e').
Proof.
  intro H. destruct (Z.eq_dec e e') as [->|Hne].
  - rewrite shl_align_ge by lia. rewrite Z.sub_diag. simpl. lia.
  - rewrite shl_align_lt by lia. simpl fst. rewrite iter_xO_val.
    rewrite Z2Pos.id by lia. reflexivity.
Qed.

(** Rounding a mantissa that is canonical at its exponent changes nothing. *)
Lemma round_exact (s : bool) (m : positive) (e : Z) :
  fexp prec emax (Zpos (digits2_pos m) + e) = e -> e <= 971 ->
  binary_round_aux prec emax s (Zpos m) e loc_Exact = S754_finite s m e.
Proof.
  intros Hc He. unfold binary_round_aux, shr_fexp. cbn [Zdigits2]. rewrite Hc, Z.sub_diag.
  cbn [shr shr_record_of_loc shr_m loc_of_shr_record round_nearest_even Zdigits2].
  rewrite Hc, Z.sub_diag. cbn [shr shr_record_of_loc shr_m].
  replace (e <=? emax - prec) with true; [reflexivity|].
  symmetry. apply Z.leb_le. change (emax - prec) with 971. lia.
Qed.

Lemma round_canonical (s : bool) (m : positive) (e : Z) :
  digits2_pos m = 53%positive -> -1074 <= e <= 971 ->
  binary_round_aux prec emax s (Zpos m) e loc_Exact = S754_finite s m e.
Proof.
  intros Hd He. apply round_exact; [|lia]. rewrite Hd, fexp_eq. lia.
Qed.

(** Rounding a mantissa of 53 digits followed by [j] zero bits is exact. *)
Lemma normalize_shifted (m : positive) (j e : Z) :
  digits2_pos m = 53%positive -> 0 <= j -> -1074 <= e + j <= 971 ->
  binary_normalize prec emax (Zpos m * 2 ^ j) e false = S754_finite false m (e + j).
Proof.
  intros Hd Hj He. destruct j as [|n|n]; [| |lia].
  - rewrite Z.pow_0_r, Z.mul_1_r, Z.add_0_r. cbn [binary_normalize]. unfold binary_round.
    rewrite shl_align_ge by (rewrite Hd, fexp_eq; lia).
    apply round_canonical; [exact Hd|lia].
  - rewrite <- iter_xO_val. cbn [binary_normalize]. unfold binary_round.
    rewrite shl_align_ge by (rewrite iter_xO_digits, Hd, fexp_eq; lia).
    unfold binary_round_aux, shr_fexp. cbn [Zdigits2].
    rewrite iter_xO_digits, Hd, fexp_eq.
    replace (Z.max (Zpos (53 + n) + e - 53) (-1074) - e) with (Zpos n) by lia.
    cbn [shr shr_record_of_loc]. rewrite shr_iter_xO.
    cbn [shr_m loc_of_shr_record round_nearest_even Zdigits2].
    rewrite Hd, fexp_eq.
    replace (Z.max (53 + (e + Zpos n) - 53) (-1074) - (e + Zpos n)) with 0 by lia.
    cbn [shr shr_record_of_loc shr_m].
    replace (e + Zpos n <=? emax - prec) with true; [reflexivity|].
    symmetry. apply Z.leb_le. change (emax - prec) with 971. lia.
Qed.

(** Normalizing a mantissa of fewer than 53 digits shifts it to 53. *)
Lemma normalize_short (p : positive) (e : Z) :
  Zpos (digits2_pos p) <= 53 -> -1074 <= e + Zpos (digits2_pos p) - 53 <= 971 ->
  exists m,
    binary_normalize prec emax (Zpos p) e false
      = S754_finite false m (e + Zpos (digits2_pos p) - 53) /\
    digits2_pos m = 53%positive /\
    Zpos m = Zpos p * 2 ^ (53 - Zpos (digits2_pos p)).
Proof.
  intros Hd He. cbn [binary_normalize]. unfold binary_round. rewrite fexp_eq.
  replace (Z.max (Zpos (digits2_pos p) + e - 53) (-1074))
    with (e + Zpos (digits2_pos p) - 53) by lia.
  destruct (Z.eq_dec (Zpos (digits2_pos p)) 53) as [E|E].
  - exists p. rewrite shl_align_ge by lia.
    rewrite round_canonical; [|congruence|lia].
    rewrite E. split; [f_equal; lia|]. split; [congruence|]. simpl. lia.
  - exists (Pos.iter xO p (Z.to_pos (53 - Zpos (digits2_pos p)))).
    rewrite shl_align_lt by lia.
    replace (e - (e + Zpos (digits2_pos p) - 53)) with (53 - Zpos (digits2_pos p)) by lia.
    assert (Hdig : digits2_pos (Pos.iter xO p (Z.to_pos (53 - Zpos (digits2_pos p))))
                   = 53%positive).
    { rewrite iter_xO_digits. lia. }
    rewrite round_canonical; [|exact Hdig|lia].
    split; [reflexivity|]. split; [exact Hdig|].
    rewrite iter_xO_val, Z2Pos.id by lia. reflexivity.
Qed.

Lemma valid_canonical (s : bool) (m : positive) (e : Z) :
  digits2_pos m = 53%positive -> -1074 <= e <= 971 ->
  valid_binary (S754_finite s m e) = true.
Proof.
  intros Hd He. unfold SpecFloat.valid_binary, bounded, canonical_mantissa.
  rewrite Hd, fexp_eq. apply andb_true_iff. split.
  - apply Z.eqb_eq. lia.
  - apply Z.leb_le. change (emax - prec) with 971. lia.
Qed.

Lemma Z2F_spec (k : Z) :
  1 <= k <= 2 ^ 53 ->
  exists m e, Prim2SF (Z2F k) = S754_finite false m e /\ represents k m e.
Proof.
  intro Hk. unfold Z2F. destruct (Z.eq_dec k (2 ^ 53)) as [->|Hne].
  - exists 4503599627370496%positive, 1. split; [reflexivity|]. repeat split.
  - destruct k as [|p|p]; try lia.
    assert (Hlog : Z.log2 (Zpos p) < 53).
    { apply Z.log2_lt_pow2; lia. }
    pose proof (Z.log2_nonneg (Zpos p)) as Hlog0.
    pose proof (digits2_log2 p) as Hd.
    destruct (normalize_short p 0) as (m & Hn & Hdm & Hm); [lia|lia|].
    exists m, (Z.log2 (Zpos p) - 52). rewrite Hn.
    replace (0 + Zpos (digits2_pos p) - 53) with (Z.log2 (Zpos p) - 52) by lia.
    rewrite Prim2SF_SF2Prim by (apply valid_canonical; [exact Hdm|lia]).
    split; [reflexivity|]. split; [exact Hdm|]. split; [reflexivity|].
    rewrite Hm, Hd.
    replace (53 - (Z.log2 (Zpos p) + 1)) with (52 - Z.log2 (Zpos p)) by lia.
    replace (Z.log2 (Zpos p) - 52 + 52) with (Z.log2 (Zpos p)) by lia.
    rewrite <- Z.mul_assoc, <- Z.pow_add_r by lia. f_equal. f_equal. lia.
Qed.

Lemma Prim2SF_one : Prim2SF 1 = S754_finite false 4503599627370496 (-52).
Proof. reflexivity. Qed.

Lemma represents_range (k : Z) (m : positive) (e : Z) :
  1 <= k <= 2 ^ 53 -> represents k m e -> -52 <= e <= 1.
Proof.
  intros Hk (_ & -> & _).
  pose proof (Z.log2_nonneg k).
  assert (Z.log2 k <= Z.log2 (2 ^ 53)) by (apply Z.log2_le_mono; lia).
  rewrite Z.log2_pow2 in * by lia. lia.
Qed.

(** Adding one to the double of an integer below 2^53 gives the double of
    the next integer. *)
Lemma Z2F_succ (k : Z) : 1 <= k < 2 ^ 53 -> (Z2F k + 1)%float = Z2F (k + 1).
Proof.
  intro Hk.
  destruct (Z2F_spec k) as (m & e & Hk2 & Hrep); [lia|].
  destruct (Z2F_spec (k + 1)) as (m' & e' & Hk2' & Hrep'); [lia|].
  pose proof (represents_range k m e ltac:(lia) Hrep) as He.
  pose proof (represents_range (k + 1) m' e' ltac:(lia) Hrep') as He'.
  destruct Hrep as (Hd & _ & Hm). destruct Hrep' as (Hd' & _ & Hm').
  apply Prim2SF_inj. rewrite add_spec, Hk2, Hk2', Prim2SF_one.
  unfold SF64add, SFadd. rewrite Z.min_r by lia. cbn [cond_Zopp].
  rewrite (shl_align_val m e (-52)) by lia.
  rewrite (shl_align_val 4503599627370496 (-52) (-52)) by lia.
  replace (e - -52) with (e + 52) by lia. rewrite Hm.
  replace (k * 2 ^ 52 + 4503599627370496 * 2 ^ (-52 - -52)) with (Zpos m' * 2 ^ (e' + 52)).
  - rewrite (normalize_shifted m' (e' + 52) (-52) Hd') by lia. f_equal. lia.
  - rewrite Hm'. change (-52 - -52) with 0. change (2 ^ 0) with 1.
    change 4503599627370496 with (2 ^ 52). lia.
Qed.

(** The doubles of two integers from 1 to 2^53 compare as the integers. *)
Lemma Z2F_compare (i n : Z) :
  1 <= i <= 2 ^ 53 -> 1 <= n <= 2 ^ 53 ->
  SFcompare (Prim2SF (Z2F i)) (Prim2SF (Z2F n)) = Some (i ?= n).
Proof.
  intros Hi Hn.
  destruct (Z2F_spec i Hi) as (mi & ei & -> & Hdi & -> & Hmi).
  destruct (Z2F_spec n Hn) as (mn & en & -> & Hdn & -> & Hmn).
  cbn [SFcompare]. f_equal.
  destruct (Z.compare_spec (Z.log2 i - 52) (Z.log2 n - 52)) as [E|E|E].
  - replace (Z.log2 i - 52 + 52) with (Z.log2 n) in Hmi by lia.
    replace (Z.log2 n - 52 + 52) with (Z.log2 n) in Hmn by lia.
    rewrite Pos.compare_cont_spec. cbn [Pos.switch_Eq].
    change (Pos.compare mi mn) with (Z.compare (Zpos mi) (Zpos mn)).
    pose proof (Z.log2_nonneg n).
    assert (Hpow : 0 < 2 ^ Z.log2 n) by (apply Z.pow_pos_nonneg; lia).
    destruct (Z.compare_spec (Zpos mi) (Zpos mn)) as [F|F|F];
      symmetry; [apply Z.compare_eq_iff|apply Z.compare_lt_iff|apply Z.compare_gt_iff]; nia.
  - symmetry. apply Z.compare_lt_iff.
    destruct (Z_lt_le_dec i n) as [|Hge]; [assumption|].
    apply Z.log2_le_mono in Hge. lia.
  - symmetry. apply Z.compare_gt_iff.
    destruct (Z_lt_le_dec n i) as [|Hge]; [assumption|].
    apply Z.log2_le_mono in Hge. lia.
Qed.

Lemma Z2F_leb (i n : Z) :
  1 <= i <= 2 ^ 53 -> 1 <= n <= 2 ^ 53 -> (Z2F i <=? Z2F n)%float = (i <=? n).
Proof.
  intros Hi Hn. rewrite leb_spec. unfold SFleb. rewrite (Z2F_compare i n Hi Hn).
  unfold Z.leb. destruct (i ?= n); reflexivity.
Qed.

Lemma Z2F_positive (k : Z) :
  1 <= k <= 2 ^ 53 -> (Z2F k <? 0)%float = false /\ (Z2F k =? 0)%float = false.
Proof.
  intro Hk. destruct (Z2F_spec k Hk) as (m & e & Hk2 & _).
  rewrite ltb_spec, eqb_spec, Hk2. split; reflexivity.
Qed.

(** The double of an integer has no fractional part. *)
Lemma Z2F_rem_one (k : Z) : 1 <= k <= 2 ^ 53 -> (Js.rem (Z2F k) 1 =? 0)%float = true.
Proof.
  intro Hk. destruct (Z2F_spec k Hk) as (m & e & Hk2 & Hrep).
  pose proof (represents_range k m e Hk Hrep) as He.
  destruct Hrep as (_ & _ & Hm).
  unfold Js.rem. rewrite Hk2, Prim2SF_one. cbv zeta.
  rewrite Z.min_r by lia.
  replace (e - -52) with (e + 52) by lia. rewrite Hm.
  change (-52 - -52) with 0. change (4503599627370496 * 2 ^ 0) with (2 ^ 52).
  rewrite Z.rem_mul by lia. reflexivity.
Qed.

(** Rounding a mantissa of at most 53 digits at an exponent of the format
    gives a finite, non-zero double. *)
Lemma round_small (s : bool) (p : positive) (e : Z) :
  Zpos (digits2_pos p) <= 53 -> -1074 <= e <= 971 ->
  exists m t,
    binary_round prec emax s p e = S754_finite s m t /\
    valid_binary (S754_finite s m t) = true.
Proof.
  intros Hd He. unfold binary_round.
  set (t := fexp prec emax (Zpos (digits2_pos p) + e)).
  assert (Ht : t = Z.max (Zpos (digits2_pos p) + e - 53) (-1074)) by apply fexp_eq.
  assert (Hvalid : forall m, fexp prec emax (Zpos (digits2_pos m) + t) = t ->
                             valid_binary (S754_finite s m t) = true).
  { intros m Hm. unfold SpecFloat.valid_binary, bounded, canonical_mantissa.
    rewrite Hm, Z.eqb_refl. apply Z.leb_le. change (emax - prec) with 971. lia. }
  destruct (Z.eq_dec t e) as [E|E].
  - rewrite shl_align_ge by lia.
    assert (Hc : fexp prec emax (Zpos (digits2_pos p) + e) = e) by (fold t; exact E).
    exists p, t. rewrite (round_exact s p e Hc) by lia. rewrite E.
    split; [reflexivity|]. rewrite <- E. apply Hvalid. rewrite E. exact Hc.
  - rewrite shl_align_lt by lia.
    assert (Hc : fexp prec emax
                   (Zpos (digits2_pos (Pos.iter xO p (Z.to_pos (e - t)))) + t) = t).
    { rewrite iter_xO_digits, fexp_eq. lia. }
    exists (Pos.iter xO p (Z.to_pos (e - t))), t.
    rewrite (round_exact s _ t Hc) by lia. split; [reflexivity|]. now apply Hvalid.
Qed.

Lemma rem_finite_one (x : float) (s : bool) (m : positive) (e : Z) :
  Prim2SF x = S754_finite s m e ->
  Js.rem x 1 =
  (let e' := Z.min e (-52) in
   let r := Z.rem (Zpos m * 2 ^ (e - e')) (4503599627370496 * 2 ^ (-52 - e')) in
   if r =? 0 then (if s then neg_zero else zero)
   else SF2Prim (binary_normalize prec emax (cond_Zopp s r) e' false)).
Proof. intro H. unfold Js.rem. rewrite H, Prim2SF_one. reflexivity. Qed.

Lemma digits2_bound (p : positive) (d : Z) : 0 <= d -> Zpos p < 2 ^ d -> Zpos (digits2_pos p) <= d.
Proof.
  intros Hd Hp. rewrite digits2_log2.
  assert (Z.log2 (Zpos p) < d) by (apply Z.log2_lt_pow2; lia). lia.
Qed.

Lemma digits2_mono (p q : positive) :
  Zpos p <= Zpos q -> Zpos (digits2_pos p) <= Zpos (digits2_pos q).
Proof.
  intro H. rewrite !digits2_log2. apply Z.log2_le_mono in H. lia.
Qed.

(** [x % 1] is zero exactly on the doubles that are integers. *)
Lemma rem_one_integral (x : float) : (Js.rem x 1 =? 0)%float = integral x.
Proof.
  unfold integral. pose proof (Prim2SF_valid x) as Hv.
  destruct (Prim2SF x) as [s|s| |s m e] eqn:Hx.
  - assert (Hr : Js.rem x 1 = x) by (unfold Js.rem; now rewrite Hx, Prim2SF_one).
    rewrite Hr, eqb_spec, Hx. reflexivity.
  - assert (Hr : Js.rem x 1 = nan) by (unfold Js.rem; now rewrite Hx).
    now rewrite Hr.
  - assert (Hr : Js.rem x 1 = nan) by (unfold Js.rem; now rewrite Hx).
    now rewrite Hr.
  - rewrite (rem_finite_one x s m e Hx). cbv zeta.
    unfold SpecFloat.valid_binary, bounded, canonical_mantissa in Hv.
    apply andb_true_iff in Hv. destruct Hv as [Hc He].
    apply Z.eqb_eq in Hc. apply Z.leb_le in He. change (emax - prec) with 971 in He.
    rewrite fexp_eq in Hc.
    set (e' := Z.min e (-52)).
    set (a := Zpos m * 2 ^ (e - e')).
    set (b := 4503599627370496 * 2 ^ (-52 - e')).
    assert (Hb : b = 2 ^ (- e')).
    { unfold b. change 4503599627370496 with (2 ^ 52).
      rewrite <- Z.pow_add_r by lia. f_equal. lia. }
    assert (Hbpos : 0 < b) by (rewrite Hb; apply Z.pow_pos_nonneg; lia).
    assert (Hapos : 0 < a) by (unfold a; apply Z.mul_pos_pos; [lia|apply Z.pow_pos_nonneg; lia]).
    rewrite (Z.rem_mod_nonneg a b) by lia.
    assert (Hzero : (a mod b =? 0) = (0 <=? e) || (Zpos m mod 2 ^ (- e) =? 0)).
    { destruct (Z.leb_spec 0 e) as [H0|H0]; cbn [orb].
      - unfold a. rewrite Hb. replace (e - e') with (e + - e') by lia.
        rewrite Z.pow_add_r, Z.mul_assoc by lia. rewrite Z.mod_mul; [reflexivity|].
        apply Z.pow_nonzero; lia.
      - unfold a. rewrite Hb.
        replace (- e') with (- e + (e - e')) by lia.
        rewrite Z.pow_add_r by lia.
        rewrite Z.mul_mod_distr_r by (apply Z.pow_nonzero; lia).
        assert (Hp : 0 < 2 ^ (e - e')) by (apply Z.pow_pos_nonneg; lia).
        destruct (Z.eqb_spec (Zpos m mod 2 ^ (- e)) 0) as [E|E].
        + rewrite E. reflexivity.
        + apply Z.eqb_neq. nia. }
    rewrite <- Hzero.
    destruct (Z.eqb_spec (a mod b) 0) as [E|E].
    + destruct s; reflexivity.
    + pose proof (Z.mod_pos_bound a b Hbpos) as Hr.
      destruct (a mod b) as [|r|r] eqn:Er; try lia.
      assert (Hdr : Zpos (digits2_pos r) <= 53).
      { destruct (Z.le_gt_cases (-52) e).
        - apply Z.le_trans with 52; [|lia]. apply digits2_bound; [lia|].
          replace 52 with (- e') by lia. lia.
        - apply Z.le_trans with (Zpos (digits2_pos m)); [|lia].
          apply digits2_mono.
          assert (a = Zpos m) by (unfold a; replace (e - e') with 0 by lia; lia).
          pose proof (Z.mod_le a b). lia. }
      destruct (round_small s r e') as (m' & t & Hround & Hvalid); [exact Hdr|lia|].
      assert (Hnorm : binary_normalize prec emax (cond_Zopp s (Zpos r)) e' false
                      = S754_finite s m' t).
      { destruct s; exact Hround. }
      rewrite Hnorm, eqb_spec, (Prim2SF_SF2Prim _ Hvalid). destruct s; reflexivity.
Qed.

Lemma Prim2SF_2p53 : Prim2SF 9007199254740992 = S754_finite false 4503599627370496 1.
Proof. reflexivity. Qed.

(** A non-negative integral double below 2^53 is a zero or the double of an
    integer from 1 to 2^53 - 1. *)
Lemma integral_Z2F (x : float) :
  (x <? 0)%float = false -> integral x = true -> (x <? 9007199254740992)%float = true ->
  (x =? 0)%float = true \/ exists k, 1 <= k < 2 ^ 53 /\ x = Z2F k.
Proof.
  intros Hneg Hint Hlt. unfold integral in Hint.
  rewrite ltb_spec in Hneg, Hlt. rewrite Prim2SF_2p53 in Hlt. rewrite eqb_spec.
  pose proof (Prim2SF_valid x) as Hv.
  destruct (Prim2SF x) as [s|s| |s m e] eqn:Hx; try discriminate Hint.
  - left. reflexivity.
  - right. destruct s; [discriminate Hneg|].
    unfold SpecFloat.valid_binary, bounded, canonical_mantissa in Hv.
    apply andb_true_iff in Hv. destruct Hv as [Hc He].
    apply Z.eqb_eq in Hc. rewrite fexp_eq, digits2_log2 in Hc.
    unfold SFltb in Hlt. cbn [SFcompare] in Hlt.
    assert (He0 : e <= 0).
    { destruct (Z.compare_spec e 1) as [E|E|E]; try lia; try discriminate Hlt.
      subst e. rewrite Pos.compare_cont_spec in Hlt. cbn [Pos.switch_Eq] in Hlt.
      assert (Hm : Z.log2 (Zpos m) = 52) by lia.
      pose proof (Z.log2_spec (Zpos m) ltac:(lia)) as Hs. rewrite Hm in Hs.
      destruct (Pos.compare_spec m 4503599627370496) as [F|F|F]; try discriminate Hlt.
      apply Pos2Z.pos_lt_pos in F. lia. }
    assert (Hdiv : Zpos m mod 2 ^ (- e) = 0).
    { apply orb_true_iff in Hint. destruct Hint as [H|H].
      - apply Z.leb_le in H. replace e with 0 by lia. apply Z.mod_1_r.
      - now apply Z.eqb_eq in H. }
    assert (Hpow : 0 < 2 ^ (- e)) by (apply Z.pow_pos_nonneg; lia).
    apply Z.div_exact in Hdiv; [|lia].
    set (k := Zpos m / 2 ^ (- e)) in *.
    assert (Hk : 1 <= k) by nia.
    assert (Hlog : Z.log2 (Zpos m) = Z.log2 k + (- e)).
    { rewrite Hdiv, Z.mul_comm, Z.log2_mul_pow2 by lia. lia. }
    pose proof (Z.log2_nonneg k) as Hk0.
    assert (Hm52 : Z.log2 (Zpos m) = 52) by lia.
    assert (Hk53 : k < 2 ^ 53).
    { apply Z.log2_lt_cancel. rewrite Z.log2_pow2 by lia. lia. }
    exists k. split; [lia|].
    destruct (Z2F_spec k) as (m' & e' & Hk2 & Hd' & He' & Hm'); [lia|].
    assert (Ee : e' = e) by lia. rewrite Ee in Hk2, Hm'. clear He' Ee.
    apply Prim2SF_inj. rewrite Hx, Hk2.
    assert (Em : Zpos m' = Zpos m).
    { assert (Hp2 : 0 < 2 ^ (e + 52)) by (apply Z.pow_pos_nonneg; lia).
      assert (H52 : 2 ^ 52 = 2 ^ (- e) * 2 ^ (e + 52)).
      { rewrite <- Z.pow_add_r by lia. f_equal. lia. }
      rewrite H52 in Hm'. rewrite Hdiv. nia. }
    injection Em as ->. reflexivity.
Qed.

End Doubles.

(** ** Factorial *)

Lemma factorial_loop_runs (n : nat) :
  (Z.of_nat n < 2 ^ 53)%Z ->
  forall (c k fuel : nat) (result : float),
    2 <= k -> k + c = n + 1 -> c < fuel ->
    factorial_loop fuel (Z2F (Z.of_nat n)) (Z2F (Z.of_nat k)) result
    = Some (fold_left (fun r i => (r * Z2F (Z.of_nat i))%float) (seq k c) result).
Proof.
  intros Hn c. induction c as [|c IH]; intros k fuel result Hk Hsum Hfuel;
    (destruct fuel as [|fuel]; [lia|]); cbn [factorial_loop seq fold_left].
  - rewrite Z2F_leb by lia.
    destruct (Z.leb_spec (Z.of_nat k) (Z.of_nat n)); [lia|reflexivity].
  - rewrite Z2F_leb by lia.
    destruct (Z.leb_spec (Z.of_nat k) (Z.of_nat n)); [|lia].
    rewrite Z2F_succ by lia.
    replace (Z.of_nat k + 1)%Z with (Z.of_nat (S k)) by lia.
    apply IH; lia.
Qed.

Lemma factorial_returns (n fuel : nat) :
  (Z.of_nat n < 2 ^ 53)%Z -> n <= fuel ->
  factorial fuel (Num (Z2F (Z.of_nat n))) = Returns (Num (iterative_product n)).
Proof.
  intros Hn Hfuel. destruct n as [|n]; [reflexivity|].
  unfold factorial. cbn [ToNumber].
  destruct (Z2F_positive (Z.of_nat (S n))) as [-> ->]; [lia|].
  rewrite Z2F_rem_one by lia. cbn [negb orb].
  change 2%float with (Z2F (Z.of_nat 2)).
  rewrite (factorial_loop_runs (S n) Hn (S n - 1) 2 fuel 1%float) by lia.
  reflexivity.
Qed.

(** From 2^53 on the counter stops growing: 2^53 + 1 rounds to 2^53. *)
Lemma factorial_loop_stuck (fuel : nat) :
  forall (k : Z) (result : float),
    (2 <= k <= 2 ^ 53)%Z ->
    factorial_loop fuel (Z2F (2 ^ 53)) (Z2F k) result = None.
Proof.
  induction fuel as [|fuel IH]; intros k result Hk; cbn [factorial_loop]; [reflexivity|].
  rewrite Z2F_leb by lia.
  destruct (Z.leb_spec k (2 ^ 53)); [|lia].
  destruct (Z.eq_dec k (2 ^ 53)) as [->|Hne].
  - change (Z2F (2 ^ 53) + 1)%float with (Z2F (2 ^ 53)). apply IH. lia.
  - rewrite Z2F_succ by lia. apply IH. lia.
Qed.

Lemma factorial_throws_iff (fuel : nat) (v : jsval) (msg : string) :
  factorial fuel v = Throws msg <->
  msg = "Invalid factorial" /\
  ((ToNumber v <? 0)%float || negb (Js.rem (ToNumber v) 1 =? 0)%float) = true.
Proof.
  unfold factorial.
  destruct ((ToNumber v <? 0)%float || negb (Js.rem (ToNumber v) 1 =? 0)%float).
  - split; [intro H; inversion H; auto|intros [-> _]; reflexivity].
  - split; [|intros [_ H]; discriminate H].
    destruct (ToNumber v =? 0)%float; [discriminate|].
    destruct (factorial_loop fuel (ToNumber v) 2 1); discriminate.
Qed.

Lemma Z2F_eqb_refl (k : Z) : (1 <= k <= 2 ^ 53)%Z -> (Z2F k =? Z2F k)%float = true.
Proof.
  intro Hk. rewrite eqb_spec. unfold SFeqb. rewrite (Z2F_compare k k Hk Hk).
  now rewrite Z.compare_refl.
Qed.

(** A non-negative integral argument below 2^53 is the double of a natural
    number [n], and [factorial] returns the iterative product up to [n] once
    the budget allows the [n] iterations. *)
Lemma factorial_of_integral (fuel : nat) (x : float) :
  (x <? 0)%float = false -> integral x = true ->
  (x <? 9007199254740992)%float = true ->
  exists n : nat,
    (Z.of_nat n < 2 ^ 53)%Z /\
    (x =? Z2F (Z.of_nat n))%float = true /\
    (n <= fuel -> factorial fuel (Num x) = Returns (Num (iterative_product n))).
Proof.
  intros Hneg Hint Hlt.
  destruct (integral_Z2F x Hneg Hint Hlt) as [Hz|(k & Hk & ->)].
  - exists 0. split; [reflexivity|]. split; [exact Hz|]. intros _.
    unfold factorial. cbn [ToNumber].
    now rewrite Hneg, rem_one_integral, Hint, Hz.
  - exists (Z.to_nat k). rewrite Z2Nat.id by lia.
    split; [lia|]. split; [apply Z2F_eqb_refl; lia|]. intro Hfuel.
    rewrite <- (Z2Nat.id k) at 1 by lia.
    apply factorial_returns; [rewrite Z2Nat.id by lia; lia|exact Hfuel].
Qed.

(** C5, as the code has it: [fact] raises "Invalid factorial" exactly when
    its argument is negative or is not an integral value (it has a
    fractional part, or is NaN or infinite); for every non-negative integral
    argument below 2^53 it returns the factorial computed as the iterative
    product from 2 up to the argument; fact(0) = 1, fact(5) = 120, and
    fact(-1) and fact(2.5) raise, called directly or through the
    calculator. *)
Theorem factorial_spec (M : Js.MathLib) (isRadian : bool) (fuel : nat) (x : float) :
  (x <? 0)%float = false -> integral x = true ->
  (x <? 9007199254740992)%float = true ->
  (exists n : nat,
      (Z.of_nat n < 2 ^ 53)%Z /\
      (x =? Z2F (Z.of_nat n))%float = true /\
      (n <= fuel -> factorial fuel (Num x) = Returns (Num (iterative_product n)))) /\
  (forall (v : jsval) (msg : string),
      factorial fuel v = Throws msg <->
      msg = "Invalid factorial" /\
      ((ToNumber v <? 0)%float = true \/ integral (ToNumber v) = false)) /\
  (factorial fuel (Num 0) = Returns (Num 1) /\
   (5 <= fuel -> factorial fuel (Num 5) = Returns (Num 120)) /\
   factorial fuel (Num (-1)) = Throws "Invalid factorial" /\
   factorial fuel (Num 2.5) = Throws "Invalid factorial") /\
  (parseAndEvaluate M isRadian fuel "fact(0)" = Returns (Num 1) /\
   (5 <= fuel -> parseAndEvaluate M isRadian fuel "fact(5)" = Returns (Num 120)) /\
   parseAndEvaluate M isRadian fuel "fact(-1)" = Throws "Invalid factorial" /\
   parseAndEvaluate M isRadian fuel "fact(2.5)" = Throws "Invalid factorial").
Proof.
  intros Hneg Hint Hlt.
  assert (H5 : 5 <= fuel -> factorial fuel (Num 5) = Returns (Num 120)).
  { intro Hfuel. exact (factorial_returns 5 fuel eq_refl Hfuel). }
  split; [exact (factorial_of_integral fuel x Hneg Hint Hlt)|]. split.
  - intros v msg. rewrite factorial_throws_iff, rem_one_integral.
    rewrite orb_true_iff, negb_true_iff. reflexivity.
  - split; [repeat split; try reflexivity; exact H5|].
    split; [reflexivity|]. split; [|split; reflexivity].
    intro Hfuel.
    change (parseAndEvaluate M isRadian fuel "fact(5)")
      with (evaluatePostfix M isRadian fuel [QStr "5"; QStr "fact"]).
    unfold evaluatePostfix. cbn [evalTokens].
    change (evalToken M isRadian fuel [] (QStr "5")) with (@Returns (list jsval) [Num 5]).
    cbn [bind].
    change (evalToken M isRadian fuel [Num 5] (QStr "fact"))
      with (r <- factorial fuel (Num 5) ;; Returns [r]).
    now rewrite (H5 Hfuel).
Qed.

Lemma factorial_spec_witness :
  (5 <? 0)%float = false /\ integral 5 = true /\
  (5 <? 9007199254740992)%float = true /\
  factorial 5 (Num 5) = Returns (Num 120).
Proof.
  split; [reflexivity|]. split; [reflexivity|]. split; [reflexivity|].
  apply (factorial_spec sample_math true 5 5 eq_refl eq_refl eq_refl). apply le_n.
Defined.

(** C5 as stated does not hold at 2^53: the argument is a non-negative integral
    value, and the loop never ends, whatever the budget, because the counter
    stays at 2^53 once it gets there. *)
Lemma factorial_never_returns :
  (9007199254740992 <? 0)%float = false /\
  integral 9007199254740992 = true /\
  ~ (exists fuel : nat, factorial fuel (Num 9007199254740992) <> Unfinished).
Proof.
  split; [reflexivity|]. split; [reflexivity|]. intros [fuel H]. apply H.
  unfold factorial. cbn [ToNumber].
  change ((9007199254740992 <? 0)%float
          || negb (Js.rem 9007199254740992 1 =? 0)%float) with false.
  change (9007199254740992 =? 0)%float with false. cbv iota.
  change 9007199254740992%float with (Z2F (2 ^ 53)).
  change 2%float with (Z2F 2).
  rewrite factorial_loop_stuck; [reflexivity|lia].
Qed.

(** ** Conversion of expression trees *)

Lemma prec_of_binary (s : string) : is_binary s = true -> (1 <= prec_of s <= 3)%Z.
Proof. intro H. binary_cases H; cbv; intuition discriminate. Qed.

Lemma prec_ge_of (s op : string) :
  is_binary s = true -> is_binary op = true ->
  prec_ge (precedence s) (precedence op) = (prec_of op <=? prec_of s)%Z.
Proof.
  unfold is_binary, prec_of, prec_ge.
  destruct (precedence s); [|discriminate]. destruct (precedence op); [|discriminate].
  reflexivity.
Qed.

(** An operator pops the waiting operators that bind at least as tightly and
    stops at the first that binds less, at a left parenthesis or at the
    bottom. *)
Lemma pop_higher_split (op : string) (A L base : list string) :
  is_binary op = true ->
  Forall (fun s => is_binary s = true /\ (prec_of op <= prec_of s)%Z) A ->
  Forall (fun s => is_binary s = true /\ (prec_of s < prec_of op)%Z) L ->
  at_base base ->
  forall out, pop_higher op out (A ++ L ++ base) = (out ++ map QStr A, L ++ base).
Proof.
  intros Hop HA HL Hbase. induction HA as [|s A [Hs Hle] _ IH]; intro out.
  - cbn [app map]. rewrite app_nil_r.
    destruct L as [|s L].
    + destruct base as [|top base]; [reflexivity|].
      cbn in Hbase. subst top. reflexivity.
    + inversion HL as [|? ? [Hs Hlt] _]; subst. cbn [app pop_higher].
      rewrite (prec_ge_of s op Hs Hop).
      destruct (Z.leb_spec (prec_of op) (prec_of s)); [lia|reflexivity].
  - cbn [app pop_higher map]. rewrite (prec_ge_of s op Hs Hop).
    destruct (Z.leb_spec (prec_of op) (prec_of s)); [|lia].
    rewrite IH, <- app_assoc. reflexivity.
Qed.

(** A right parenthesis moves the binary operators above the nearest left
    parenthesis to the queue and removes that parenthesis. *)
Lemma pop_to_paren_split (A rest : list string) :
  Forall (fun s => is_binary s = true) A ->
  forall out, pop_to_paren out (A ++ "(" :: rest) = (out ++ map QStr A, "(" :: rest).
Proof.
  induction 1 as [|s A Hs _ IH]; intro out.
  - cbn [app map]. now rewrite app_nil_r.
  - cbn [app pop_to_paren map]. destruct (binary_not_paren s Hs) as [-> _].
    cbn [negb]. rewrite IH, <- app_assoc. reflexivity.
Qed.

Lemma not_function_top (L base : list string) :
  Forall (fun s => is_binary s = true) L -> at_base base ->
  match L ++ base with
  | top :: _ => is_function top = false
  | [] => True
  end.
Proof.
  intros HL Hbase. destruct L as [|s L]; cbn [app].
  - destruct base as [|top base]; [exact I|]. cbn in Hbase. now subst top.
  - inversion HL; subst. now apply binary_not_function.
Qed.

(** Closing a parenthesis over a converted body. *)
Lemma shunt_close_body (out X : list qtoken) (A rest : list string) :
  Forall (fun s => is_binary s = true) A ->
  match rest with
  | top :: _ => is_function top = false
  | [] => True
  end ->
  shunt (out ++ X, A ++ "(" :: rest) ")" = (out ++ X ++ map QStr A, rest).
Proof.
  intros HA Htop. rewrite shunt_close, (pop_to_paren_split A rest HA). cbn [tl].
  rewrite <- app_assoc. destruct rest as [|top rest]; [reflexivity|]. now rewrite Htop.
Qed.

Lemma fold_shunt_app (xs ys : list string) (st : list qtoken * list string) :
  fold_left shunt (xs ++ ys) st = fold_left shunt ys (fold_left shunt xs st).
Proof. apply fold_left_app. Qed.

Lemma Forall_weaken_binary (P : string -> Prop) (L : list string) :
  Forall (fun s => is_binary s = true /\ P s) L -> Forall (fun s => is_binary s = true) L.
Proof. apply Forall_impl. now intros s [H _]. Qed.

(** The converter on the tokens of a tree, from any state in which the
    operators waiting above the base bind less tightly than the context:
    the postfix form of the tree is appended, up to the operators of the
    tree still waiting on the stack. *)
Lemma print_shunt (a : ast) :
  well_tagged a = true ->
  forall (p : Z) (out : list qtoken) (L base : list string),
    Forall (fun s => is_binary s = true /\ (prec_of s < p)%Z) L ->
    at_base base ->
    exists X L',
      fold_left shunt (print p a) (out, L ++ base) = (out ++ X, L' ++ L ++ base) /\
      Forall (fun s => is_binary s = true /\ (p <= prec_of s)%Z) L' /\
      X ++ map QStr L' = postfix_of a.
Proof.
  induction a as [t|f a IH|op l IHl r IHr|a IH]; cbn [well_tagged]; intros Hwt p out L base HL Hbase.
  - exists [resolve t], []. cbn [print fold_left]. rewrite (shunt_operand _ _ t Hwt).
    refine (conj _ (conj (Forall_nil _) _)); reflexivity.
  - apply andb_true_iff in Hwt. destruct Hwt as [Hf Ha].
    cbn [print fold_left]. rewrite (shunt_function _ _ f Hf), shunt_open, fold_shunt_app.
    destruct (IH Ha 0%Z out [] ("(" :: f :: L ++ base) (Forall_nil _) eq_refl)
      as (X & L' & Hfold & HL' & Hpost).
    cbn [app] in Hfold. rewrite Hfold. cbn [fold_left].
    rewrite shunt_close, (pop_to_paren_split L' _ (Forall_weaken_binary _ _ HL')).
    cbn [tl]. rewrite Hf.
    exists (X ++ map QStr L' ++ [QStr f]), []. cbn [app postfix_of].
    rewrite <- Hpost, <- !app_assoc. refine (conj _ (conj (Forall_nil _) _)); reflexivity.
  - apply andb_true_iff in Hwt. destruct Hwt as [Hwt Hr].
    apply andb_true_iff in Hwt. destruct Hwt as [Hop Hl].
    pose proof (prec_of_binary op Hop) as Hq.
    (* the operation without parentheses, from any state below its level *)
    assert (Hinner : forall out0 L0 base0,
               Forall (fun s => is_binary s = true /\ (prec_of s < prec_of op)%Z) L0 ->
               at_base base0 ->
               exists X L',
                 fold_left shunt (print (prec_of op) l ++ op :: print (prec_of op + 1) r)
                           (out0, L0 ++ base0)
                 = (out0 ++ X, L' ++ L0 ++ base0) /\
                 Forall (fun s => is_binary s = true /\ (prec_of op <= prec_of s)%Z) L' /\
                 X ++ map QStr L' = postfix_of (Bin op l r)).
    { intros out0 L0 base0 HL0 Hbase0.
      destruct (IHl Hl (prec_of op) out0 L0 base0 HL0 Hbase0) as (Xl & Ll & Hfl & HLl & Hpl).
      rewrite fold_shunt_app, Hfl. cbn [fold_left].
      rewrite (shunt_binary _ _ op Hop), (pop_higher_split op Ll L0 base0 Hop HLl HL0 Hbase0).
      assert (HL1 : Forall (fun s => is_binary s = true /\ (prec_of s < prec_of op + 1)%Z)
                           (op :: L0)).
      { constructor; [split; [exact Hop|lia]|].
        eapply Forall_impl; [|exact HL0]. intros s [Hs Hlt]. split; [exact Hs|lia]. }
      destruct (IHr Hr (prec_of op + 1)%Z ((out0 ++ Xl) ++ map QStr Ll) (op :: L0) base0 HL1 Hbase0)
        as (Xr & Lr & Hfr & HLr & Hpr).
      cbn [app] in Hfr. rewrite Hfr.
      exists (Xl ++ map QStr Ll ++ Xr), (Lr ++ [op]). refine (conj _ (conj _ _)).
      - rewrite <- !app_assoc. reflexivity.
      - apply Forall_app. split.
        + eapply Forall_impl; [|exact HLr]. intros s [Hs Hle]. split; [exact Hs|lia].
        + constructor; [split; [exact Hop|lia]|constructor].
      - cbn [postfix_of]. rewrite <- Hpl, <- Hpr, map_app, <- !app_assoc. reflexivity. }
    cbn [print]. cbv zeta. destruct (Z.ltb_spec (prec_of op) p) as [Hlt|Hge].
    + cbn [fold_left]. rewrite shunt_open, fold_shunt_app.
      destruct (Hinner out [] ("(" :: L ++ base) (Forall_nil _) eq_refl)
        as (X & L' & Hfold & HL' & Hpost).
      cbn [app] in Hfold. rewrite Hfold. cbn [fold_left].
      rewrite (shunt_close_body out X L' (L ++ base) (Forall_weaken_binary _ _ HL')
                 (not_function_top L base (Forall_weaken_binary _ _ HL) Hbase)).
      exists (X ++ map QStr L'), []. cbn [app map]. rewrite app_nil_r.
      refine (conj eq_refl (conj (Forall_nil _) Hpost)).
    + assert (HL0 : Forall (fun s => is_binary s = true /\ (prec_of s < prec_of op)%Z) L).
      { eapply Forall_impl; [|exact HL]. intros s [Hs Hlt]. split; [exact Hs|lia]. }
      destruct (Hinner out L base HL0 Hbase) as (X & L' & Hfold & HL' & Hpost).
      exists X, L'. refine (conj Hfold (conj _ Hpost)).
      eapply Forall_impl; [|exact HL']. intros s [Hs Hle]. split; [exact Hs|lia].
  - cbn [print fold_left]. rewrite shunt_open, fold_shunt_app.
    destruct (IH Hwt 0%Z out [] ("(" :: L ++ base) (Forall_nil _) eq_refl)
      as (X & L' & Hfold & HL' & Hpost).
    cbn [app] in Hfold. rewrite Hfold. cbn [fold_left].
    rewrite (shunt_close_body out X L' (L ++ base) (Forall_weaken_binary _ _ HL')
               (not_function_top L base (Forall_weaken_binary _ _ HL) Hbase)).
    exists (X ++ map QStr L'), []. cbn [app map postfix_of]. rewrite app_nil_r.
    refine (conj eq_refl (conj (Forall_nil _) Hpost)).
Qed.

(** X1: The converter is correct on the tokens of a tree: the queue it builds
    is the postfix form of the tree, the operands in their order and each
    operator or function after its operands, with the constants resolved
    and no parenthesis left. *)
Theorem toPostfix_print (a : ast) :
  well_tagged a = true -> toPostfix (print 0 a) = postfix_of a.
Proof.
  intro Hwt. unfold toPostfix.
  destruct (print_shunt a Hwt 0%Z [] [] [] (Forall_nil _) I) as (X & L' & Hfold & _ & Hpost).
  cbn [app] in Hfold. rewrite app_nil_r in Hfold. rewrite Hfold, pop_all_spec. exact Hpost.
Qed.

Lemma toPostfix_print_witness :
  well_tagged sample_tree = true /\ toPostfix (print 0 sample_tree) = postfix_of sample_tree.
Proof. split; [reflexivity|apply (toPostfix_print sample_tree); reflexivity]. Defined.

(** A parenthesized tree is converted on its own: the state before the left
    parenthesis is the state after the right one, with the postfix form of
    the tree added to the queue. *)
Lemma paren_shunt (a : ast) (out : list qtoken) (ops : list string) :
  well_tagged a = true ->
  match ops with
  | top :: _ => is_function top = false
  | [] => True
  end ->
  fold_left shunt ("(" :: print 0 a ++ [")"]) (out, ops) = (out ++ postfix_of a, ops).
Proof.
  intros Hwt Htop. cbn [fold_left]. rewrite shunt_open, fold_shunt_app.
  destruct (print_shunt a Hwt 0%Z out [] ("(" :: ops) (Forall_nil _) eq_refl)
    as (X & L' & Hfold & HL' & Hpost).
  cbn [app] in Hfold. rewrite Hfold. cbn [fold_left].
  rewrite (shunt_close_body out X L' ops (Forall_weaken_binary _ _ HL') Htop).
  now rewrite Hpost.
Qed.

(** ** Evaluation of expression trees *)

Lemma bind_assoc {A B C : Type} (c : outcome A) (f : A -> outcome B) (g : B -> outcome C) :
  bind (bind c f) g = bind c (fun x => bind (f x) g).
Proof. destruct c; reflexivity. Qed.

Lemma bind_returns {A : Type} (c : outcome A) : bind c Returns = c.
Proof. destruct c; reflexivity. Qed.

Lemma resolve_nan (t : string) :
  is_operand t = true -> isNaN (resolve t) = true -> t = "i".
Proof.
  unfold is_operand, resolve.
  destruct (t =? pi_sym); [discriminate|]. destruct (t =? "e"); [discriminate|].
  cbn [isNaN orb]. intros H Hnan. rewrite Hnan in H. cbn in H.
  now apply String.eqb_eq.
Qed.

Section TreeEvaluation.

Variable M : Js.MathLib.
Variable isRadian : bool.
Variable fuel : nat.

Lemma evalToken_i (stack : list jsval) :
  evalToken M isRadian fuel stack (QStr "i") = Throws "Invalid operator".
Proof. destruct stack as [|b [|a rest]]; reflexivity. Qed.

Lemma evalToken_function (f : string) (v : jsval) (stack : list jsval) :
  is_function f = true ->
  evalToken M isRadian fuel (v :: stack) (QStr f)
  = (r <- applyOperator M isRadian fuel (QStr f) v v ;; Returns (r :: stack)).
Proof.
  intro Hf. unfold evalToken.
  assert (Hnan : isNaN (QStr f) = true) by (function_cases Hf; reflexivity).
  rewrite Hnan. cbn [negb pop names_function]. now rewrite Hf.
Qed.

Lemma evalToken_binary (op : string) (x y : jsval) (stack : list jsval) :
  is_binary op = true ->
  evalToken M isRadian fuel (y :: x :: stack) (QStr op)
  = (r <- applyOperator M isRadian fuel (QStr op) x y ;; Returns (r :: stack)).
Proof.
  intro Hop. unfold evalToken.
  assert (Hnan : isNaN (QStr op) = true) by (binary_cases Hop; reflexivity).
  rewrite Hnan. cbn [negb pop names_function]. now rewrite (binary_not_function op Hop).
Qed.

(** The evaluator on the postfix form of a tree leaves the value of the
    tree on the stack, or ends with the error the tree raises. *)
Lemma evalTokens_postfix (a : ast) :
  well_tagged a = true ->
  forall (stack : list jsval) (rest : list qtoken),
    evalTokens M isRadian fuel stack (postfix_of a ++ rest)
    = (v <- denote M isRadian fuel a ;; evalTokens M isRadian fuel (v :: stack) rest).
Proof.
  induction a as [t|f a IH|op l IHl r IHr|a IH]; cbn [well_tagged]; intros Hwt stack rest.
  - cbn [postfix_of app evalTokens denote].
    destruct (isNaN (resolve t)) eqn:Hnan.
    + rewrite (resolve_nan t Hwt Hnan). change (resolve "i") with (QStr "i").
      now rewrite evalToken_i.
    + unfold evalToken. rewrite Hnan. reflexivity.
  - apply andb_true_iff in Hwt. destruct Hwt as [Hf Ha].
    cbn [postfix_of denote]. rewrite <- app_assoc, (IH Ha), bind_assoc.
    destruct (denote M isRadian fuel a) as [v| |]; cbn [bind]; try reflexivity.
    cbn [app evalTokens]. rewrite (evalToken_function f v stack Hf), bind_assoc.
    reflexivity.
  - apply andb_true_iff in Hwt. destruct Hwt as [Hwt Hr].
    apply andb_true_iff in Hwt. destruct Hwt as [Hop Hl].
    cbn [postfix_of denote]. rewrite <- !app_assoc, (IHl Hl), bind_assoc.
    destruct (denote M isRadian fuel l) as [x| |]; cbn [bind]; try reflexivity.
    rewrite (IHr Hr), bind_assoc.
    destruct (denote M isRadian fuel r) as [y| |]; cbn [bind]; try reflexivity.
    cbn [app evalTokens]. rewrite (evalToken_binary op x y stack Hop), bind_assoc.
    reflexivity.
  - cbn [postfix_of denote]. now apply IH.
Qed.

(** X2: The evaluator is correct on the postfix form of a tree: the stack
    machine computes what the tree denotes, each operation applied to the
    values of its operands, a function to the value of its argument, and
    the first error met, left to right, is the one raised. *)
Theorem evaluatePostfix_tree (a : ast) :
  well_tagged a = true ->
  evaluatePostfix M isRadian fuel (postfix_of a) = denote M isRadian fuel a.
Proof.
  intro Hwt. unfold evaluatePostfix.
  rewrite <- (app_nil_r (postfix_of a)), (evalTokens_postfix a Hwt [] []), bind_assoc.
  cbn [evalTokens bind]. apply bind_returns.
Qed.

End TreeEvaluation.

Lemma evaluatePostfix_tree_witness :
  well_tagged sample_tree = true /\
  evaluatePostfix sample_math true 0 (postfix_of sample_tree)
  = denote sample_math true 0 sample_tree.
Proof.
  split; [reflexivity|apply (evaluatePostfix_tree sample_math true 0 sample_tree); reflexivity].
Defined.

(** ** The tokenizer on written expressions *)

Lemma scan_skip (u rest : string) : scan (String.length u) (u ++ rest)%string = scan 0 rest.
Proof. induction u as [|c u IH]; [reflexivity|exact IH]. Qed.

Lemma scan_match (t rest : string) :
  t <> EmptyString -> match_at (t ++ rest)%string = Some t ->
  scan 0 (t ++ rest)%string = t :: scan 0 rest.
Proof.
  intros Ht Hm. destruct t as [|c t]; [contradiction|].
  change (scan 0 (String c t ++ rest)%string)
    with (match match_at (String c t ++ rest)%string with
          | Some t' => t' :: scan (String.length t' - 1) (t ++ rest)%string
          | None => scan 0 (t ++ rest)%string
          end).
  rewrite Hm. replace (String.length (String c t) - 1) with (String.length t)
    by (cbn [String.length]; lia).
  f_equal. apply scan_skip.
Qed.

Lemma append_nil_r (s : string) : (s ++ "")%string = s.
Proof. induction s as [|c s IH]; [reflexivity|]. cbn. now rewrite IH. Qed.

Lemma append_assoc (s1 s2 s3 : string) : ((s1 ++ s2) ++ s3 = s1 ++ s2 ++ s3)%string.
Proof. induction s1 as [|c s1 IH]; [reflexivity|]. cbn. now rewrite IH. Qed.

Lemma match_number_eq (s : string) :
  match_number s =
  let (d1, r1) := span_digits s in
  match d1 with
  | EmptyString => None
  | _ =>
      match r1 with
      | String c r2 =>
          if Ascii.eqb c "." then
            let (d2, _) := span_digits r2 in Some (d1 ++ "." ++ d2)%string
          else Some d1
      | EmptyString => Some d1
      end
  end.
Proof.
  unfold match_number. destruct (span_digits s) as [d1 r1].
  destruct d1 as [|c1 d1]; [reflexivity|]. destruct r1 as [|c r2]; [reflexivity|].
  destruct c as [[] [] [] [] [] [] [] []]; reflexivity.
Qed.

Lemma parseDecimal_shape (s : string) (x : float) :
  parseDecimal s = Some x ->
  let (d1, r1) := span_digits s in
  d1 <> EmptyString /\
  (r1 = EmptyString \/ exists r2 d2, r1 = String "." r2 /\ span_digits r2 = (d2, EmptyString)).
Proof.
  unfold parseDecimal. destruct (span_digits s) as [d1 r1].
  destruct d1 as [|c1 d1]; [discriminate|]. intro H. split; [discriminate|].
  destruct r1 as [|c r2]; [now left|]. right.
  destruct c as [[] [] [] [] [] [] [] []]; try discriminate H.
  destruct (span_digits r2) as [d2 r3] eqn:E2. destruct r3; [|discriminate H].
  now exists r2, d2.
Qed.

Lemma span_digits_spec (s : string) :
  let (d, r) := span_digits s in
  s = (d ++ r)%string /\ all_digits d = true /\
  match r with
  | String c _ => is_digit c = false
  | EmptyString => True
  end.
Proof.
  induction s as [|c s IH]; cbn [span_digits]; [repeat split|].
  destruct (is_digit c) eqn:Hc.
  - destruct (span_digits s) as [d r]. destruct IH as (-> & Hd & Hr).
    repeat split; [|exact Hr]. unfold all_digits. cbn. now rewrite Hc.
  - repeat split. exact Hc.
Qed.

Lemma span_digits_stop (d rest : string) :
  all_digits d = true ->
  match rest with
  | String c _ => is_digit c = false
  | EmptyString => True
  end ->
  span_digits (d ++ rest)%string = (d, rest).
Proof.
  intros Hd Hrest. induction d as [|c d IH]; cbn [String.append].
  - destruct rest as [|c rest]; [reflexivity|]. cbn [span_digits]. now rewrite Hrest.
  - unfold all_digits in Hd. cbn in Hd. apply andb_true_iff in Hd. destruct Hd as [Hc Hd].
    cbn [span_digits]. rewrite Hc, (IH Hd). reflexivity.
Qed.

Lemma symbol_not_digit (c : ascii) : is_symbol c = true -> is_digit c = false /\ Ascii.eqb c "." = false.
Proof.
  unfold is_symbol. cbn [existsb]. rewrite !orb_true_iff. rewrite !Ascii.eqb_eq.
  intros [->|[->|[->|[->|[->|[->|[->|H]]]]]]]; try (split; reflexivity). discriminate H.
Qed.

Lemma starts_symbol_stop (rest : string) :
  starts_symbol rest ->
  match rest with
  | String c _ => is_digit c = false
  | EmptyString => True
  end.
Proof. destruct rest as [|c rest]; [auto|]. intro H. now apply symbol_not_digit. Qed.

(** A numeric token is read back whole when an operator, a parenthesis or
    the end of the text follows it. *)
Lemma match_at_number (t rest : string) (x : float) :
  parseDecimal t = Some x -> starts_symbol rest ->
  t <> EmptyString /\ match_at (t ++ rest)%string = Some t.
Proof.
  intros Hp Hrest. pose proof (parseDecimal_shape t x Hp) as Hshape.
  pose proof (span_digits_spec t) as Hspec.
  destruct (span_digits t) as [d1 r1]. destruct Hspec as (Ht & Hd1 & _).
  destruct Hshape as [Hne Hr1].
  assert (Hnum : match_number (t ++ rest)%string = Some t).
  { rewrite match_number_eq. destruct Hr1 as [->|(r2 & d2 & -> & E2)].
    - rewrite Ht, append_nil_r.
      rewrite (span_digits_stop d1 rest Hd1 (starts_symbol_stop rest Hrest)).
      destruct d1 as [|c1 d1]; [contradiction|].
      destruct rest as [|c rest]; [reflexivity|].
      cbn in Hrest. destruct (symbol_not_digit c Hrest) as [_ ->]. reflexivity.
    - pose proof (span_digits_spec r2) as Hspec2. rewrite E2 in Hspec2.
      destruct Hspec2 as (Hr2 & Hd2 & _). rewrite append_nil_r in Hr2. subst r2 t.
      rewrite append_assoc.
      rewrite (span_digits_stop d1 (String "." d2 ++ rest) Hd1 eq_refl).
      destruct d1 as [|c1 d1]; [contradiction|].
      cbn [String.append]. change (Ascii.eqb "." ".") with true. cbv iota.
      rewrite (span_digits_stop d2 rest Hd2 (starts_symbol_stop rest Hrest)).
      reflexivity. }
  split.
  - intro E. rewrite E in Ht. destruct d1; [contradiction|discriminate Ht].
  - unfold match_at. now rewrite Hnum.
Qed.

Lemma match_at_symbol (c : ascii) (rest : string) :
  is_symbol c = true -> match_at (String c rest) = Some (String c EmptyString).
Proof.
  intro Hc. unfold match_at. rewrite match_number_eq. cbn [span_digits].
  destruct (symbol_not_digit c Hc) as [-> _]. now rewrite Hc.
Qed.

(** A word of the pattern is read back whole, whatever follows it. *)
Lemma match_at_word (w rest : string) :
  In w words -> w <> EmptyString /\ match_at (w ++ rest)%string = Some w.
Proof.
  intro Hw. unfold words, pi_sym in Hw. cbn [In] in Hw.
  repeat (destruct Hw as [<-|Hw]; [split; [discriminate|destruct rest; reflexivity]|]).
  contradiction.
Qed.

Lemma function_word (f : string) : is_function f = true -> In f words.
Proof. intro H. function_cases H; cbn; auto 15. Qed.

Lemma binary_symbol (op : string) :
  is_binary op = true -> exists c, op = String c EmptyString /\ is_symbol c = true.
Proof. intro H. binary_cases H; eexists; split; reflexivity. Qed.

Lemma glue_app (xs ys : list string) : glue (xs ++ ys) = (glue xs ++ glue ys)%string.
Proof.
  induction xs as [|x xs IH]; [reflexivity|]. cbn [app glue fold_right].
  fold (glue (xs ++ ys)). fold (glue xs). now rewrite IH, append_assoc.
Qed.

Lemma scan_operand (t rest : string) :
  is_operand t = true -> starts_symbol rest ->
  scan 0 (t ++ rest)%string = t :: scan 0 rest.
Proof.
  intros Ht Hrest. unfold is_operand in Ht.
  destruct (isNaN_str t) eqn:Hnan.
  - cbn [negb orb] in Ht.
    assert (Hw : In t words).
    { rewrite !orb_true_iff, !String.eqb_eq in Ht. unfold words. cbn [In].
      destruct Ht as [[->| ->]| ->]; auto 15. }
    destruct (match_at_word t rest Hw) as [Hne Hm]. now apply scan_match.
  - unfold isNaN_str in Hnan. destruct (parseDecimal t) as [x|] eqn:Hp; [|discriminate].
    destruct (match_at_number t rest x Hp Hrest) as [Hne Hm]. now apply scan_match.
Qed.

Lemma scan_symbol (c : ascii) (rest : string) :
  is_symbol c = true -> scan 0 (String c rest) = String c EmptyString :: scan 0 rest.
Proof.
  intro Hc. apply (scan_match (String c EmptyString) rest); [discriminate|].
  now apply match_at_symbol.
Qed.

Lemma scan_binary (op rest : string) :
  is_binary op = true ->
  starts_symbol (op ++ rest) /\ scan 0 (op ++ rest)%string = op :: scan 0 rest.
Proof.
  intro Hop. destruct (binary_symbol op Hop) as (c & -> & Hc).
  split; [exact Hc|]. now apply scan_symbol.
Qed.

Lemma glue_cons (t : string) (ts : list string) : glue (t :: ts) = (t ++ glue ts)%string.
Proof. reflexivity. Qed.

(** A body between parentheses. *)
Lemma scan_wrapped (body : list string) (rest : string) :
  (forall rest0, starts_symbol rest0 ->
                 scan 0 (glue body ++ rest0)%string = body ++ scan 0 rest0) ->
  scan 0 (glue ("(" :: body ++ [")"]) ++ rest)%string
  = ("(" :: body ++ [")"]) ++ scan 0 rest.
Proof.
  intro Hbody. rewrite glue_cons, glue_app, !append_assoc.
  cbn [glue fold_right String.append].
  rewrite (scan_symbol "(" _ eq_refl), (Hbody (String ")" rest) eq_refl).
  rewrite (scan_symbol ")" rest eq_refl). cbn [app]. rewrite <- app_assoc. reflexivity.
Qed.

(** The tokenizer reads the text of a tree back as the tokens of the
    tree. *)
Lemma scan_print (a : ast) :
  well_tagged a = true ->
  forall (p : Z) (rest : string),
    starts_symbol rest ->
    scan 0 (glue (print p a) ++ rest)%string = print p a ++ scan 0 rest.
Proof.
  induction a as [t|f a IH|op l IHl r IHr|a IH]; cbn [well_tagged]; intros Hwt p rest Hrest.
  - cbn [print glue fold_right app]. rewrite append_nil_r. now apply scan_operand.
  - apply andb_true_iff in Hwt. destruct Hwt as [Hf Ha].
    cbn [print]. rewrite glue_cons, append_assoc.
    destruct (match_at_word f (glue ("(" :: print 0 a ++ [")"]) ++ rest)
                (function_word f Hf)) as [Hne Hm].
    rewrite (scan_match f _ Hne Hm), (scan_wrapped (print 0 a) rest (IH Ha 0%Z)).
    reflexivity.
  - apply andb_true_iff in Hwt. destruct Hwt as [Hwt Hr].
    apply andb_true_iff in Hwt. destruct Hwt as [Hop Hl].
    assert (Hinner : forall rest0, starts_symbol rest0 ->
               scan 0 (glue (print (prec_of op) l ++ op :: print (prec_of op + 1) r)
                       ++ rest0)%string
               = (print (prec_of op) l ++ op :: print (prec_of op + 1) r) ++ scan 0 rest0).
    { intros rest0 Hrest0. rewrite glue_app, glue_cons, !append_assoc.
      destruct (scan_binary op (glue (print (prec_of op + 1) r) ++ rest0) Hop) as [Hs Hscan].
      rewrite (IHl Hl _ _ Hs), Hscan, (IHr Hr _ rest0 Hrest0).
      rewrite <- !app_assoc. reflexivity. }
    cbn [print]. cbv zeta. destruct (prec_of op <? p)%Z.
    + now apply scan_wrapped.
    + now apply Hinner.
  - cbn [print]. apply scan_wrapped. exact (IH Hwt 0%Z).
Qed.

(** X3: The tokenizer reads back what the printer writes: the text of an
    expression tree, its tokens written with nothing between them, is split
    into exactly those tokens. *)
Theorem tokenize_render (a : ast) :
  well_tagged a = true -> tokenize (render a) = print 0 a.
Proof.
  intro Hwt. unfold tokenize, render.
  rewrite <- (append_nil_r (glue (print 0 a))), (scan_print a Hwt 0%Z "" I).
  apply app_nil_r.
Qed.

Lemma tokenize_render_witness :
  well_tagged sample_tree = true /\ tokenize (render sample_tree) = print 0 sample_tree.
Proof. split; [reflexivity|apply (tokenize_render sample_tree); reflexivity]. Defined.

(** ** The pipeline on written expressions *)

Lemma print_examples :
  print 0 (Bin "+" (Lit "2") (Bin "*" (Lit "3") (Lit "4"))) = ["2"; "+"; "3"; "*"; "4"] /\
  print 0 (Bin "*" (Bin "+" (Lit "2") (Lit "3")) (Lit "4"))
    = ["("; "2"; "+"; "3"; ")"; "*"; "4"] /\
  print 0 (Bin "^" (Bin "^" (Lit "2") (Lit "3")) (Lit "2")) = ["2"; "^"; "3"; "^"; "2"] /\
  print 0 (Bin "^" (Lit "2") (Bin "^" (Lit "3") (Lit "2")))
    = ["2"; "^"; "("; "3"; "^"; "2"; ")"] /\
  print 0 (Bin "-" (Lit "1") (Bin "-" (Lit "2") (Lit "3")))
    = ["1"; "-"; "("; "2"; "-"; "3"; ")"] /\
  render (Call "sqrt" (Bin "/" (Lit pi_sym) (Paren (Lit "2.5"))))
    = ("sqrt(" ++ pi_sym ++ "/(2.5))")%string.
Proof. repeat split; reflexivity. Qed.

Section Pipeline.

Variable M : Js.MathLib.
Variable isRadian : bool.
Variable fuel : nat.

(** X4: The calculator on the text of an expression tree computes the value of
    the tree: operators apply by precedence, operators of one level from
    left to right, parentheses and function calls to their whole content;
    an error of the tree is the error raised. *)
Theorem written_expression_value (a : ast) :
  well_tagged a = true ->
  parseAndEvaluate M isRadian fuel (render a) = denote M isRadian fuel a.
Proof.
  intro Hwt. unfold parseAndEvaluate, tokenize, render.
  rewrite <- (append_nil_r (glue (print 0 a))), (scan_print a Hwt 0%Z "" I).
  cbn [scan]. rewrite app_nil_r. unfold toPostfix.
  destruct (print_shunt a Hwt 0%Z [] [] [] (Forall_nil _) I) as (X & L' & Hfold & _ & Hpost).
  cbn [app] in Hfold. rewrite app_nil_r in Hfold. rewrite Hfold, pop_all_spec, Hpost.
  unfold evaluatePostfix.
  rewrite <- (app_nil_r (postfix_of a)), (evalTokens_postfix M isRadian fuel a Hwt [] []).
  rewrite bind_assoc. cbn [evalTokens bind]. apply bind_returns.
Qed.

(** X5: Two parenthesized expressions written side by side are not multiplied:
    both are evaluated and the value of the first is the result. *)
Theorem juxtaposition_keeps_first (a b : ast) :
  well_tagged a = true -> well_tagged b = true ->
  parseAndEvaluate M isRadian fuel (render (Paren a) ++ render (Paren b))%string
  = (x <- denote M isRadian fuel a ;; _ <- denote M isRadian fuel b ;; Returns x).
Proof.
  intros Ha Hb. unfold parseAndEvaluate, tokenize, render.
  assert (Hs : starts_symbol (glue (print 0 (Paren b)))) by reflexivity.
  rewrite (scan_print (Paren a) Ha 0%Z _ Hs).
  rewrite <- (append_nil_r (glue (print 0 (Paren b)))), (scan_print (Paren b) Hb 0%Z "" I).
  cbn [scan]. rewrite app_nil_r.
  unfold toPostfix. rewrite fold_shunt_app. cbn [print].
  rewrite (paren_shunt a [] [] Ha I), (paren_shunt b _ [] Hb I).
  cbn [app pop_all]. unfold evaluatePostfix.
  rewrite (evalTokens_postfix M isRadian fuel a Ha [] (postfix_of b)), bind_assoc.
  destruct (denote M isRadian fuel a) as [x| |]; cbn [bind]; try reflexivity.
  rewrite <- (app_nil_r (postfix_of b)), (evalTokens_postfix M isRadian fuel b Hb [x] []).
  rewrite bind_assoc. reflexivity.
Qed.


End Pipeline.

Lemma written_expression_value_witness :
  well_tagged sample_tree = true /\
  parseAndEvaluate sample_math true 0 (render sample_tree)
  = denote sample_math true 0 sample_tree.
Proof.
  split; [reflexivity|apply (written_expression_value sample_math true 0 sample_tree); reflexivity].
Defined.

Lemma juxtaposition_keeps_first_witness :
  well_tagged (Lit "2") = true /\ well_tagged (Lit "3") = true /\
  parseAndEvaluate sample_math true 0 (render (Paren (Lit "2")) ++ render (Paren (Lit "3")))%string
  = (x <- denote sample_math true 0 (Lit "2") ;;
     _ <- denote sample_math true 0 (Lit "3") ;; Returns x).
Proof.
  refine (conj eq_refl (conj eq_refl _)).
  exact (juxtaposition_keeps_first sample_math true 0 (Lit "2") (Lit "3") eq_refl eq_refl).
Defined.


(** ** What the tokenizer emits *)

Lemma parseDecimal_eq (s : string) :
  parseDecimal s =
  let (d1, r1) := span_digits s in
  match d1 with
  | EmptyString => None
  | _ =>
      match r1 with
      | EmptyString => Some (Js.round_div (digits_val 0 d1) 1)
      | String c r2 =>
          if Ascii.eqb c "." then
            let (d2, r3) := span_digits r2 in
            match r3 with
            | EmptyString =>
                Some (Js.round_div (digits_val 0 (d1 ++ d2)%string)
                                   (10 ^ Z.of_nat (String.length d2)))
            | _ => None
            end
          else None
      end
  end.
Proof.
  unfold parseDecimal. destruct (span_digits s) as [d1 r1].
  destruct d1 as [|c1 d1]; [reflexivity|]. destruct r1 as [|c r2]; [reflexivity|].
  destruct c as [[] [] [] [] [] [] [] []]; reflexivity.
Qed.

Lemma span_digits_all (d : string) : all_digits d = true -> span_digits d = (d, EmptyString).
Proof.
  intro Hd. rewrite <- (append_nil_r d) at 1. now apply span_digits_stop.
Qed.

Lemma match_number_form (s t : string) :
  match_number s = Some t -> exists x, parseDecimal t = Some x.
Proof.
  rewrite match_number_eq. pose proof (span_digits_spec s) as Hspec.
  destruct (span_digits s) as [d1 r1]. destruct Hspec as (_ & Hd1 & _).
  destruct d1 as [|c1 d1]; [discriminate|].
  assert (Hd : parseDecimal (String c1 d1) = Some (Js.round_div (digits_val 0 (String c1 d1)) 1)).
  { rewrite parseDecimal_eq, (span_digits_all _ Hd1). reflexivity. }
  destruct r1 as [|c r2]; [intro H; inversion H; subst; eauto|].
  destruct (Ascii.eqb c ".") eqn:Ec; [|intro H; inversion H; subst; eauto].
  pose proof (span_digits_spec r2) as Hspec2.
  destruct (span_digits r2) as [d2 r3]. destruct Hspec2 as (_ & Hd2 & _).
  intro H. injection H as <-. rewrite parseDecimal_eq.
  change (String c1 (d1 ++ String "." d2))%string with (String c1 d1 ++ String "." d2)%string.
  rewrite (span_digits_stop (String c1 d1) (String "." d2) Hd1 eq_refl).
  change (Ascii.eqb "." ".") with true. cbv iota.
  rewrite (span_digits_all d2 Hd2). eauto.
Qed.

Lemma match_at_form (s t : string) : match_at s = Some t -> token_form t.
Proof.
  unfold match_at, token_form. destruct (match_number s) as [t'|] eqn:Hn.
  - intro H. inversion H. subst t'. left. exact (match_number_form s t Hn).
  - destruct s as [|c s]; [discriminate|]. destruct (is_symbol c) eqn:Hc.
    + intro H. inversion H. right. left. now exists c.
    + intro H. apply find_some in H. right. right. exact (proj1 H).
Qed.

Lemma scan_forms (s : string) :
  forall (skip : nat) (t : string), In t (scan skip s) -> token_form t.
Proof.
  induction s as [|c s IH]; intros skip t; cbn [scan]; [contradiction|].
  destruct skip as [|k]; [|apply IH].
  destruct (match_at (String c s)) as [t'|] eqn:Hm; [|apply IH].
  intros [<-|Hin]; [exact (match_at_form _ _ Hm)|exact (IH _ _ Hin)].
Qed.

Lemma form_class (t : string) :
  token_form t ->
  is_operand t = true \/ is_function t = true \/ t = "(" \/ t = ")" \/ is_binary t = true.
Proof.
  intros [[x Hx]|[(c & -> & Hc)|Hw]].
  - left. unfold is_operand, isNaN_str. now rewrite Hx.
  - unfold is_symbol in Hc. cbn [existsb] in Hc. rewrite !orb_true_iff, !Ascii.eqb_eq in Hc.
    destruct Hc as [->|[->|[->|[->|[->|[->|[->|H]]]]]]]; auto 10. discriminate H.
  - unfold words, pi_sym in Hw. cbn [In] in Hw.
    repeat (destruct Hw as [<-|Hw]; [auto|]). contradiction.
Qed.

Lemma form_nonempty (t : string) : token_form t -> t <> EmptyString.
Proof.
  intros [[x Hx]|[(c & -> & _)|Hw]]; intro E; subst; try discriminate.
  unfold words, pi_sym in Hw. cbn [In] in Hw.
  repeat (destruct Hw as [Hw|Hw]; [discriminate Hw|]). contradiction.
Qed.

(** X7: Every token the tokenizer emits is a non-empty numeral, symbol or word,
    so the converter takes it for an operand, a function name, a
    parenthesis or one of the five binary operators: its last branch only
    ever receives an operator. *)
Theorem tokens_classified (expr t : string) :
  In t (tokenize expr) ->
  t <> EmptyString /\ token_form t /\
  (is_operand t = true \/ is_function t = true \/ t = "(" \/ t = ")" \/
   is_binary t = true).
Proof.
  intro Hin. pose proof (scan_forms expr 0 t Hin) as Hf.
  split; [exact (form_nonempty t Hf)|]. split; [exact Hf|exact (form_class t Hf)].
Qed.

Lemma tokens_classified_witness :
  In "sin" (tokenize "2*sin(3)") /\
  "sin" <> EmptyString /\ token_form "sin" /\
  (is_operand "sin" = true \/ is_function "sin" = true \/ "sin" = "(" \/ "sin" = ")" \/
   is_binary "sin" = true).
Proof.
  assert (H : In "sin" (tokenize "2*sin(3)")) by (right; right; now left).
  exact (conj H (tokens_classified "2*sin(3)" "sin" H)).
Defined.

(** ** Characters outside the token pattern *)

Lemma string_length_app (s t : string) :
  String.length (s ++ t)%string = String.length s + String.length t.
Proof. induction s as [|c s IH]; cbn [String.append String.length]; [reflexivity|now rewrite IH]. Qed.

Lemma prefix_length (w s : string) : prefix w s = true -> String.length w <= String.length s.
Proof.
  revert s. induction w as [|h w IH]; intro s; [cbn; lia|].
  destruct s as [|a s]; cbn [prefix String.length]; [discriminate|].
  destruct (ascii_dec h a); [|discriminate]. intro H. apply IH in H. lia.
Qed.

Lemma match_at_length (s t : string) :
  match_at s = Some t -> String.length t <= String.length s.
Proof.
  unfold match_at. rewrite match_number_eq. pose proof (span_digits_spec s) as Hs.
  destruct (span_digits s) as [d1 r1]. destruct Hs as (Es & _ & _).
  destruct d1 as [|c1 d1].
  - cbn [String.append] in Es. subst r1. destruct s as [|c s]; [discriminate|].
    destruct (is_symbol c).
    + intro H. injection H as <-. cbn. lia.
    + intro H. apply find_some in H. exact (prefix_length _ _ (proj2 H)).
  - assert (Hd : String.length (String c1 d1) <= String.length s).
    { rewrite Es, string_length_app. lia. }
    destruct r1 as [|c r2]; [intro H; injection H as <-; exact Hd|].
    destruct (Ascii.eqb c "."); [|intro H; injection H as <-; exact Hd].
    pose proof (span_digits_spec r2) as Hr. destruct (span_digits r2) as [d2 r3].
    destruct Hr as (Er & _ & _). intro H. injection H as <-.
    rewrite Es, Er. change (String c1 (d1 ++ String "." d2))%string
      with (String c1 d1 ++ String "." d2)%string.
    rewrite !string_length_app. cbn [String.length]. rewrite string_length_app. lia.
Qed.

Lemma separator_spec (c : ascii) :
  separator c = true ->
  is_digit c = false /\ Ascii.eqb c "." = false /\ is_symbol c = false /\
  Forall (fun w => existsb (Ascii.eqb c) (list_ascii_of_string w) = false) words.
Proof.
  unfold separator. rewrite !andb_true_iff, !negb_true_iff, forallb_forall.
  intros (((Hd & Hp) & Hs) & Hw). repeat split; try assumption.
  apply Forall_forall. intros w Hin. apply negb_true_iff. exact (Hw w Hin).
Qed.

Lemma prefix_before (w s rest : string) (c : ascii) :
  existsb (Ascii.eqb c) (list_ascii_of_string w) = false ->
  prefix w (s ++ String c rest)%string = prefix w s.
Proof.
  revert s. induction w as [|h w IH]; intros s Hw.
  - destruct s; reflexivity.
  - cbn [list_ascii_of_string existsb] in Hw. apply orb_false_iff in Hw.
    destruct Hw as [Hh Hw]. destruct s as [|a s]; cbn [String.append prefix].
    + destruct (ascii_dec h c) as [->|]; [|reflexivity].
      now rewrite Ascii.eqb_refl in Hh.
    + destruct (ascii_dec h a); [exact (IH s Hw)|reflexivity].
Qed.

Lemma find_before (s rest : string) (c : ascii) (ws : list string) :
  Forall (fun w => existsb (Ascii.eqb c) (list_ascii_of_string w) = false) ws ->
  find (fun w => prefix w (s ++ String c rest)%string) ws = find (fun w => prefix w s) ws.
Proof.
  induction 1 as [|w ws Hw _ IH]; [reflexivity|]. cbn [find].
  now rewrite (prefix_before w s rest c Hw), IH.
Qed.

Lemma span_digits_before (s rest : string) (c : ascii) :
  is_digit c = false ->
  span_digits (s ++ String c rest)%string =
  (fst (span_digits s), (snd (span_digits s) ++ String c rest)%string).
Proof.
  intro Hc. pose proof (span_digits_spec s) as Hs. destruct (span_digits s) as [d r].
  destruct Hs as (Es & Hd & Hr). cbn [fst snd]. rewrite Es at 1. rewrite append_assoc.
  apply span_digits_stop; [exact Hd|]. destruct r; [exact Hc|exact Hr].
Qed.

Lemma match_number_before (s rest : string) (c : ascii) :
  separator c = true -> match_number (s ++ String c rest)%string = match_number s.
Proof.
  intro Hsep. destruct (separator_spec c Hsep) as (Hd & Hp & _).
  rewrite !match_number_eq, (span_digits_before s rest c Hd).
  destruct (span_digits s) as [d1 r1]. cbn [fst snd].
  destruct d1 as [|c1 d1]; [reflexivity|].
  destruct r1 as [|x r2]; cbn [String.append]; [now rewrite Hp|].
  destruct (Ascii.eqb x "."); [|reflexivity].
  rewrite (span_digits_before r2 rest c Hd). now destruct (span_digits r2).
Qed.

Lemma match_at_before (s rest : string) (c : ascii) :
  separator c = true -> match_at (s ++ String c rest)%string = match_at s.
Proof.
  intro Hsep. destruct (separator_spec c Hsep) as (_ & _ & Hs & Hw).
  unfold match_at. rewrite (match_number_before s rest c Hsep).
  destruct (match_number s); [reflexivity|].
  destruct s as [|a s]; cbn [String.append].
  - rewrite Hs. change (String c rest) with (EmptyString ++ String c rest)%string.
    rewrite (find_before EmptyString rest c words Hw). reflexivity.
  - destruct (is_symbol a); [reflexivity|].
    exact (find_before (String a s) rest c words Hw).
Qed.

Lemma scan_before (s1 s2 : string) (c : ascii) :
  separator c = true ->
  forall skip : nat, skip <= String.length s1 ->
  scan skip (s1 ++ String c s2)%string = scan skip s1 ++ scan 0 s2.
Proof.
  intro Hsep. induction s1 as [|a s1 IH]; intros skip Hskip.
  - cbn [String.length] in Hskip. assert (skip = 0) as -> by lia.
    cbn [String.append scan app].
    pose proof (match_at_before EmptyString s2 c Hsep) as Hm.
    cbn [String.append] in Hm. rewrite Hm. reflexivity.
  - cbn [String.length] in Hskip. destruct skip as [|k].
    + change (scan 0 (String a s1 ++ String c s2)%string)
        with (match match_at (String a s1 ++ String c s2)%string with
              | Some t => t :: scan (String.length t - 1) (s1 ++ String c s2)%string
              | None => scan 0 (s1 ++ String c s2)%string
              end).
      rewrite (match_at_before (String a s1) s2 c Hsep). cbn [scan].
      destruct (match_at (String a s1)) as [t|] eqn:Hm.
      * apply match_at_length in Hm. cbn [String.length] in Hm.
        rewrite IH by lia. reflexivity.
      * apply IH. lia.
    + cbn [String.append scan]. apply IH. lia.
Qed.

(** X8: A character that occurs in no alternative of the token pattern (a
    space, a letter such as [x], a comma) is dropped, and only separates
    tokens: the tokens of a string are those of the text before such a
    character followed by those of the text after it. *)
Theorem separator_splits (s1 s2 : string) (c : ascii) :
  separator c = true ->
  tokenize (s1 ++ String c s2) = tokenize s1 ++ tokenize s2.
Proof. intro Hsep. unfold tokenize. apply (scan_before s1 s2 c Hsep). lia. Qed.

Lemma separator_splits_witness :
  separator " " = true /\
  tokenize ("1 2" ++ String " " "sin x") = tokenize "1 2" ++ tokenize "sin x".
Proof. split; [reflexivity|apply separator_splits; reflexivity]. Defined.

(** ** Parentheses in the queue *)

Lemma queue_parens_app (xs ys : list qtoken) :
  queue_parens (xs ++ ys) = queue_parens xs ++ queue_parens ys.
Proof. apply filter_app. Qed.

Lemma queue_parens_popped (p : list string) :
  ~ In "(" p -> ~ In ")" p -> queue_parens (map QStr p) = [].
Proof.
  induction p as [|s p IH]; intros Ho Hc; [reflexivity|].
  cbn [map]. unfold queue_parens. cbn [filter is_paren_q].
  destruct (s =? "(") eqn:E1; [apply String.eqb_eq in E1; subst; elim Ho; now left|].
  destruct (s =? ")") eqn:E2; [apply String.eqb_eq in E2; subst; elim Hc; now left|].
  cbn [orb]. apply IH; intro H; [apply Ho|apply Hc]; now right.
Qed.

Lemma count_open_push (s : string) (ops : list string) :
  s <> "(" -> count_open (s :: ops) = count_open ops.
Proof.
  intro H. unfold count_open. cbn [filter]. unfold is_open at 1.
  apply String.eqb_neq in H. now rewrite H.
Qed.

Lemma shunt_parens (out out' : list qtoken) (ops ops' : list string) (t : string) :
  shunt (out, ops) t = (out', ops') ->
  queue_parens out = [] -> ~ In ")" ops ->
  queue_parens out' = [] /\ ~ In ")" ops' /\
  count_open ops' = paren_step (count_open ops) t.
Proof.
  intros Hstep Hout Hops. unfold shunt in Hstep. unfold paren_step.
  destruct (is_operand t) eqn:Hopd.
  { injection Hstep as <- <-.
    assert (E1 : (t =? "(") = false).
    { destruct (t =? "(") eqn:E; [|reflexivity]. apply String.eqb_eq in E. now subst. }
    assert (E2 : (t =? ")") = false).
    { destruct (t =? ")") eqn:E; [|reflexivity]. apply String.eqb_eq in E. now subst. }
    rewrite E1, E2. refine (conj _ (conj Hops eq_refl)).
    rewrite queue_parens_app, Hout. unfold resolve, queue_parens.
    destruct (t =? pi_sym); [reflexivity|]. destruct (t =? "e"); [reflexivity|].
    cbn [filter is_paren_q app]. now rewrite E1, E2. }
  destruct (is_function t) eqn:Hfun.
  { injection Hstep as <- <-.
    assert (E1 : t <> "(") by (intros ->; discriminate Hfun).
    assert (E2 : t <> ")") by (intros ->; discriminate Hfun).
    rewrite (proj2 (String.eqb_neq _ _) E1), (proj2 (String.eqb_neq _ _) E2).
    refine (conj Hout (conj _ (count_open_push t ops E1))).
    intros [H|H]; [now apply E2|now apply Hops]. }
  destruct (t =? "(") eqn:Eo.
  { injection Hstep as <- <-. apply String.eqb_eq in Eo. subst t.
    refine (conj Hout (conj _ eq_refl)).
    intros [H|H]; [discriminate H|now apply Hops]. }
  destruct (t =? ")") eqn:Ec.
  { destruct (pop_to_paren_spec ops out) as (p & r & Eops & Hpop & Hp & Hr).
    rewrite Hpop in Hstep.
    assert (Hpc : ~ In ")" p) by (intro H; apply Hops; rewrite Eops; apply in_or_app; now left).
    assert (Hrc : ~ In ")" r) by (intro H; apply Hops; rewrite Eops; apply in_or_app; now right).
    assert (Hq : queue_parens (out ++ map QStr p) = []).
    { now rewrite queue_parens_app, Hout, (queue_parens_popped p Hp Hpc). }
    rewrite Eops, count_open_app, (count_open_none p Hp). cbn [Nat.add].
    destruct Hr as [->|(r' & ->)].
    - cbn [tl] in Hstep. injection Hstep as <- <-. now refine (conj Hq (conj _ eq_refl)).
    - cbn [tl] in Hstep.
      assert (Hr'c : ~ In ")" r') by (intro H; apply Hrc; now right).
      change (count_open ("(" :: r')) with (S (count_open r')). cbn [Nat.pred].
      destruct r' as [|top ops3]; [injection Hstep as <- <-; now refine (conj Hq (conj _ eq_refl))|].
      destruct (is_function top) eqn:Htop; injection Hstep as <- <-.
      + assert (T1 : top <> "(") by (intros ->; discriminate Htop).
        assert (T2 : top <> ")") by (intros ->; discriminate Htop).
        refine (conj _ (conj _ _)).
        * rewrite queue_parens_app, Hq. unfold queue_parens. cbn [filter is_paren_q app].
          now rewrite (proj2 (String.eqb_neq _ _) T1), (proj2 (String.eqb_neq _ _) T2).
        * intro H. apply Hr'c. now right.
        * symmetry. exact (count_open_push top ops3 T1).
      + now refine (conj Hq (conj _ eq_refl)). }
  destruct (pop_higher_spec t ops out) as (p & r & Eops & Hpop & Hp).
  rewrite Hpop in Hstep. injection Hstep as <- <-.
  pose proof (binary_no_paren p Hp) as Hpo.
  assert (Hpc : ~ In ")" p).
  { intro Hin. rewrite Forall_forall in Hp. specialize (Hp _ Hin). discriminate Hp. }
  apply String.eqb_neq in Eo, Ec.
  refine (conj _ (conj _ _)).
  - now rewrite queue_parens_app, Hout, (queue_parens_popped p Hpo Hpc).
  - intros [H|H]; [now apply Ec|]. apply Hops. rewrite Eops. apply in_or_app. now right.
  - rewrite (count_open_push t r Eo), Eops, count_open_app, (count_open_none p Hpo).
    reflexivity.
Qed.

Lemma fold_shunt_parens (tokens : list string) :
  forall (out out' : list qtoken) (ops ops' : list string),
    fold_left shunt tokens (out, ops) = (out', ops') ->
    queue_parens out = [] -> ~ In ")" ops ->
    queue_parens out' = [] /\ ~ In ")" ops' /\
    count_open ops' = fold_left paren_step tokens (count_open ops).
Proof.
  induction tokens as [|t rest IH]; intros out out' ops ops' Hfold Hout Hops.
  - injection Hfold as <- <-. now refine (conj Hout (conj Hops eq_refl)).
  - cbn [fold_left] in Hfold |- *. destruct (shunt (out, ops) t) as [out1 ops1] eqn:Hstep.
    destruct (shunt_parens _ _ _ _ _ Hstep Hout Hops) as (Hout1 & Hops1 & <-).
    exact (IH _ _ _ _ Hfold Hout1 Hops1).
Qed.

Lemma open_popped (ops : list string) :
  ~ In ")" ops -> queue_parens (map QStr ops) = repeat (QStr "(") (count_open ops).
Proof.
  induction ops as [|s ops IH]; intro H; [reflexivity|].
  assert (Hs : (s =? ")") = false).
  { apply String.eqb_neq. intros ->. apply H. now left. }
  assert (IH' := IH (fun Hin => H (or_intror Hin))).
  cbn [map]. unfold queue_parens, count_open. cbn [filter is_paren_q]. unfold is_open at 1.
  rewrite Hs, orb_false_r. destruct (s =? "(") eqn:E.
  - apply String.eqb_eq in E. subst s. cbn [List.length repeat]. f_equal. exact IH'.
  - exact IH'.
Qed.

Lemma toPostfix_parens (tokens : list string) :
  queue_parens (toPostfix tokens) = repeat (QStr "(") (unclosed tokens).
Proof.
  unfold toPostfix, unclosed.
  destruct (fold_left shunt tokens ([], [])) as [out ops] eqn:Hfold.
  destruct (fold_shunt_parens tokens [] out [] ops Hfold eq_refl (fun H => H))
    as (Hout & Hops & Hcount).
  rewrite pop_all_spec, queue_parens_app, Hout, (open_popped ops Hops), Hcount.
  reflexivity.
Qed.

Lemma toPostfix_keeps_open (tokens : list string) :
  unclosed tokens <> 0 -> In (QStr "(") (toPostfix tokens).
Proof.
  intro H. pose proof (toPostfix_parens tokens) as Hq.
  destruct (unclosed tokens) as [|n]; [contradiction|].
  assert (Hin : In (QStr "(") (queue_parens (toPostfix tokens))) by (rewrite Hq; now left).
  unfold queue_parens in Hin. apply filter_In in Hin. exact (proj1 Hin).
Qed.

Lemma toPostfix_no_paren (tokens : list string) (s : string) :
  unclosed tokens = 0 -> In (QStr s) (toPostfix tokens) -> s <> "(" /\ s <> ")".
Proof.
  intros H Hin. pose proof (toPostfix_parens tokens) as Hq. rewrite H in Hq.
  assert (Hp : is_paren_q (QStr s) = false).
  { destruct (is_paren_q (QStr s)) eqn:E; [|reflexivity].
    assert (Hin' : In (QStr s) (queue_parens (toPostfix tokens))) by (apply filter_In; now split).
    rewrite Hq in Hin'. contradiction. }
  cbn [is_paren_q] in Hp. apply orb_false_iff in Hp.
  split; apply String.eqb_neq; tauto.
Qed.

(** X9: Whatever the tokens, no right parenthesis reaches the queue, and the
    left parentheses of the queue are those left unclosed, one element
    each: a matched pair disappears in the conversion, an unmatched right
    parenthesis too, and an unclosed left one is emptied onto the queue
    with the operators. *)
Theorem parentheses_of_queue (tokens : list string) :
  queue_parens (toPostfix tokens) = repeat (QStr "(") (unclosed tokens) /\
  (In (QStr "(") (toPostfix tokens) <-> unclosed tokens <> 0) /\
  (In (QStr ")") (toPostfix tokens) -> False).
Proof.
  pose proof (toPostfix_parens tokens) as Hq.
  assert (Hin : forall s, In (QStr s) (queue_parens (toPostfix tokens)) -> s = "(").
  { intros s H. rewrite Hq in H. apply repeat_spec in H. now injection H as ->. }
  refine (conj Hq (conj (conj _ (toPostfix_keeps_open tokens)) _)).
  - intros H E. destruct (toPostfix_no_paren tokens "(" E H) as [Ho _]. now apply Ho.
  - intro H. assert (E : ")" = "("); [|discriminate E].
    apply Hin. apply filter_In. now split.
Qed.

(** ** Which inputs fail *)

Section Failures.

Variable M : Js.MathLib.
Variable isRadian : bool.
Variable fuel : nat.

Lemma evalToken_open (stack : list jsval) :
  evalToken M isRadian fuel stack (QStr "(") = Throws "Invalid operator".
Proof. destruct stack as [|b [|a rest]]; reflexivity. Qed.

Lemma evalTokens_stops (t : qtoken) (postfix : list qtoken) :
  (forall stack, evalToken M isRadian fuel stack t = Throws "Invalid operator") ->
  In t postfix ->
  forall stack v, evalTokens M isRadian fuel stack postfix <> Returns v.
Proof.
  intros Ht. induction postfix as [|q rest IH]; intros Hin stack v; [contradiction|].
  cbn [evalTokens]. destruct Hin as [->|Hin].
  - rewrite Ht. discriminate.
  - destruct (evalToken M isRadian fuel stack q) as [stack1| |]; cbn [bind];
      [exact (IH Hin stack1 v)|discriminate|discriminate].
Qed.

Lemma evaluatePostfix_stops (t : qtoken) (postfix : list qtoken) :
  (forall stack, evalToken M isRadian fuel stack t = Throws "Invalid operator") ->
  In t postfix ->
  forall v, evaluatePostfix M isRadian fuel postfix <> Returns v.
Proof.
  intros Ht Hin v. unfold evaluatePostfix.
  pose proof (evalTokens_stops t postfix Ht Hin []) as H.
  destruct (evalTokens M isRadian fuel [] postfix) as [stack| |]; cbn [bind];
    [elim (H stack); reflexivity|discriminate|discriminate].
Qed.

End Failures.

Lemma toPostfix_keeps_i (tokens : list string) :
  In "i" tokens -> In (QStr "i") (toPostfix tokens).
Proof.
  intro Hin. assert (H : In (QStr "i") (operands_of (toPostfix tokens))).
  { rewrite toPostfix_operands. change (QStr "i") with (resolve "i").
    apply in_map. apply filter_In. now split. }
  unfold operands_of in H. apply filter_In in H. exact (proj1 H).
Qed.

Lemma toPostfix_numbers (tokens : list string) (f : float) :
  In (QNum f) (toPostfix tokens) -> isNaN (QNum f) = false.
Proof.
  intro Hin. assert (H : In (QNum f) (operands_of (toPostfix tokens))).
  { apply filter_In. now split. }
  rewrite toPostfix_operands in H. apply in_map_iff in H. destruct H as (t & Ht & _).
  unfold resolve in Ht. destruct (t =? pi_sym); [now rewrite <- Ht|].
  destruct (t =? "e"); [now rewrite <- Ht|discriminate].
Qed.

Lemma toPostfix_operand_strings (tokens : list string) (s : string) :
  In (QStr s) (toPostfix tokens) -> is_operand s = true ->
  s = "i" \/ isNaN (QStr s) = false.
Proof.
  intros Hin Hopd. assert (H : In (QStr s) (operands_of (toPostfix tokens))).
  { apply filter_In. now split. }
  rewrite toPostfix_operands in H. apply in_map_iff in H. destruct H as (t & Ht & _).
  destruct (resolve_not_name t s Ht) as [Hpi He].
  unfold is_operand in Hopd. apply String.eqb_neq in Hpi, He. rewrite Hpi, He in Hopd.
  rewrite !orb_false_r in Hopd. apply orb_true_iff in Hopd.
  destruct Hopd as [Hn|Hi]; [right|left; now apply String.eqb_eq].
  cbn [isNaN]. now apply negb_true_iff.
Qed.

Lemma toPostfix_applicable (expr : string) :
  ~ In "i" (tokenize expr) -> unclosed (tokenize expr) = 0 ->
  Forall applicable (toPostfix (tokenize expr)).
Proof.
  intros Hi Hu. apply Forall_forall. intros [s|f] Hin.
  - pose proof (toPostfix_from_tokens _ _ Hin) as Hs.
    destruct (toPostfix_no_paren _ _ Hu Hin) as [Ho Hc].
    destruct (form_class s (scan_forms expr 0 s Hs)) as [H|[H|[H|[H|H]]]];
      try contradiction.
    + destruct (toPostfix_operand_strings _ _ Hin H) as [->|Hn]; [contradiction|].
      now left.
    + right. exists s. auto.
    + right. exists s. auto.
  - left. exact (toPostfix_numbers _ _ Hin).
Qed.

Section Outcomes.

Variable M : Js.MathLib.
Variable isRadian : bool.
Variable fuel : nat.

(** X10: An input with a token [i], or with a left parenthesis that is never
    closed, has no value: whatever else it holds, the evaluation ends in an
    error (or in the factorial loop). *)
Theorem no_value_with_i_or_open (expr : string) :
  In "i" (tokenize expr) \/ unclosed (tokenize expr) <> 0 ->
  forall v, parseAndEvaluate M isRadian fuel expr <> Returns v.
Proof.
  intros [Hi|Hu]; unfold parseAndEvaluate.
  - exact (evaluatePostfix_stops M isRadian fuel (QStr "i") _
             (evalToken_i M isRadian fuel) (toPostfix_keeps_i _ Hi)).
  - exact (evaluatePostfix_stops M isRadian fuel (QStr "(") _
             (evalToken_open M isRadian fuel) (toPostfix_keeps_open _ Hu)).
Qed.

(** X11: Every other input, whatever the string, has a value unless it uses
    [fact]: without a token [i] and with every left parenthesis closed the
    evaluation returns, or fails in the factorial with 'Invalid factorial'
    or does not leave its loop.  In particular 'Invalid operator' is only
    ever raised for a token [i] or an unclosed left parenthesis. *)
Theorem only_factorial_fails (expr : string) :
  ~ In "i" (tokenize expr) -> unclosed (tokenize expr) = 0 ->
  (exists v, parseAndEvaluate M isRadian fuel expr = Returns v) \/
  (In "fact" (tokenize expr) /\
   (parseAndEvaluate M isRadian fuel expr = Throws "Invalid factorial" \/
    parseAndEvaluate M isRadian fuel expr = Unfinished)).
Proof.
  intros Hi Hu. unfold parseAndEvaluate, evaluatePostfix.
  pose proof (evalTokens_applicable M isRadian fuel _ (toPostfix_applicable expr Hi Hu) [])
    as H.
  destruct (evalTokens M isRadian fuel [] (toPostfix (tokenize expr))) as [stack|msg|];
    cbn [bind].
  - left. eauto.
  - right. destruct H as [-> Hin]. split; [exact (toPostfix_from_tokens _ _ Hin)|now left].
  - right. split; [exact (toPostfix_from_tokens _ _ H)|now right].
Qed.

End Outcomes.

Lemma no_value_with_i_or_open_witness :
  (In "i" (tokenize "(1+2") \/ unclosed (tokenize "(1+2") <> 0) /\
  forall v, parseAndEvaluate sample_math true 0 "(1+2" <> Returns v.
Proof.
  assert (H : In "i" (tokenize "(1+2") \/ unclosed (tokenize "(1+2") <> 0).
  { right. vm_compute. discriminate. }
  split; [exact H|exact (no_value_with_i_or_open sample_math true 0 "(1+2" H)].
Defined.

Lemma only_factorial_fails_witness :
  ~ In "i" (tokenize "2+*") /\ unclosed (tokenize "2+*") = 0 /\
  ((exists v, parseAndEvaluate sample_math true 0 "2+*" = Returns v) \/
   (In "fact" (tokenize "2+*") /\
    (parseAndEvaluate sample_math true 0 "2+*" = Throws "Invalid factorial" \/
     parseAndEvaluate sample_math true 0 "2+*" = Unfinished))).
Proof.
  assert (Hi : ~ In "i" (tokenize "2+*")).
  { vm_compute. intros [H|[H|[H|[]]]]; discriminate H. }
  assert (Hu : unclosed (tokenize "2+*") = 0) by reflexivity.
  refine (conj Hi (conj Hu _)).
  exact (only_factorial_fails sample_math true 0 "2+*" Hi Hu).
Defined.

(** ** The size of factorials *)

Lemma exact_product_succ (n : nat) :
  1 <= n -> exact_product (S n) = (exact_product n * Z.of_nat (S n))%Z.
Proof.
  intro Hn. unfold exact_product.
  replace (S n - 1) with (S (n - 1)) by lia.
  rewrite seq_S, fold_left_app. cbn [fold_left].
  replace (2 + (n - 1)) with (S n) by lia. reflexivity.
Qed.

Lemma exact_product_fact (n : nat) : exact_product n = Z.of_nat (fact n).
Proof.
  induction n as [|n IH]; [reflexivity|].
  destruct n as [|n]; [reflexivity|].
  rewrite exact_product_succ by lia. rewrite IH.
  change (fact (S (S n))) with (S (S n) * fact (S n)). lia.
Qed.

Lemma products_to_170 :
  forallb (fun n => product_finite n && Bool.eqb (product_exact n) (n <=? 22)%nat)
          (seq 0 171) = true.
Proof. vm_compute. reflexivity. Qed.

Lemma product_171 : iterative_product 171 = infinity.
Proof. vm_compute. reflexivity. Qed.

Lemma infinity_mul (k : Z) : (1 <= k <= 2 ^ 53)%Z -> (infinity * Z2F k)%float = infinity.
Proof.
  intro Hk. destruct (Z2F_spec k Hk) as (m & e & Hk2 & _).
  apply Prim2SF_inj. rewrite mul_spec, Hk2. reflexivity.
Qed.

Lemma infinity_fold (c : nat) :
  forall k : nat, 1 <= k -> (Z.of_nat (k + c) <= 2 ^ 53 + 1)%Z ->
  fold_left (fun r i => (r * Z2F (Z.of_nat i))%float) (seq k c) infinity = infinity.
Proof.
  induction c as [|c IH]; intros k Hk Hc; [reflexivity|].
  cbn [seq fold_left]. rewrite infinity_mul by lia. apply IH; lia.
Qed.

Lemma product_overflows (n : nat) :
  171 <= n -> (Z.of_nat n < 2 ^ 53)%Z -> iterative_product n = infinity.
Proof.
  intros Hn Hb. unfold iterative_product.
  replace (n - 1) with (170 + (n - 171)) by lia.
  rewrite seq_app, fold_left_app.
  change (fold_left (fun r i => (r * Z2F (Z.of_nat i))%float) (seq 2 170) 1%float)
    with (iterative_product 171).
  rewrite product_171. apply infinity_fold; lia.
Qed.

(** X12: The factorial of an integer up to 170 is a finite number; it is the
    exact factorial up to 22, and a rounded one from 23 on. *)
Theorem factorial_exact_to_22 (n fuel : nat) :
  n <= 170 -> n <= fuel ->
  exists r : float,
    factorial fuel (Num (Z2F (Z.of_nat n))) = Returns (Num r) /\
    finite r = true /\
    (integer_of r = Some (Z.of_nat (fact n)) <-> n <= 22).
Proof.
  intros Hn Hfuel. exists (iterative_product n).
  split; [apply factorial_returns; [lia|exact Hfuel]|].
  pose proof products_to_170 as H. rewrite forallb_forall in H.
  specialize (H n). rewrite in_seq in H. specialize (H ltac:(lia)).
  apply andb_true_iff in H. destruct H as [Hfin Hex].
  split; [exact Hfin|]. apply Bool.eqb_prop in Hex.
  unfold product_exact in Hex. rewrite <- exact_product_fact.
  destruct (integer_of (iterative_product n)) as [v|].
  - split.
    + intro E. injection E as ->. rewrite Z.eqb_refl in Hex.
      symmetry in Hex. now apply Nat.leb_le in Hex.
    + intro Hle. apply Nat.leb_le in Hle. rewrite Hle in Hex.
      apply Z.eqb_eq in Hex. now subst v.
  - split; [discriminate|]. intro Hle. apply Nat.leb_le in Hle.
    rewrite Hle in Hex. discriminate Hex.
Qed.

Lemma factorial_exact_to_22_witness :
  5 <= 170 /\ 5 <= 5 /\
  exists r : float,
    factorial 5 (Num (Z2F (Z.of_nat 5))) = Returns (Num r) /\
    finite r = true /\
    (integer_of r = Some (Z.of_nat (fact 5)) <-> 5 <= 22).
Proof.
  assert (H1 : 5 <= 170) by lia. assert (H2 : 5 <= 5) by lia.
  exact (conj H1 (conj H2 (factorial_exact_to_22 5 5 H1 H2))).
Defined.

(** X13: From 171 on the factorial is [Infinity]: the product has left the
    range of the doubles when the loop reaches 171, and stays there. *)
Theorem factorial_overflows_from_171 (n fuel : nat) :
  171 <= n -> (Z.of_nat n < 2 ^ 53)%Z -> n <= fuel ->
  factorial fuel (Num (Z2F (Z.of_nat n))) = Returns (Num infinity).
Proof.
  intros Hn Hb Hfuel. rewrite (factorial_returns n fuel Hb Hfuel).
  now rewrite (product_overflows n Hn Hb).
Qed.

Lemma factorial_overflows_from_171_witness :
  171 <= 171 /\ (Z.of_nat 171 < 2 ^ 53)%Z /\ 171 <= 171 /\
  factorial 171 (Num (Z2F (Z.of_nat 171))) = Returns (Num infinity).
Proof.
  assert (H1 : 171 <= 171) by lia.
  assert (H2 : (Z.of_nat 171 < 2 ^ 53)%Z) by (vm_compute; reflexivity).
  exact (conj H1 (conj H2 (conj H1 (factorial_overflows_from_171 171 171 H1 H2 H1)))).
Defined.

(** ** The page *)

Section Page.

Variable M : Js.MathLib.
Variable H : App.Host.
Variable fuel : nat.

Lemma kept_firstn (item : string * jsval) (h : list (string * jsval)) :
  List.length h <= 50 ->
  (if (50 <? List.length (item :: h))%nat then removelast (item :: h) else item :: h)
  = firstn 50 (item :: h).
Proof.
  intro Hlen. destruct (Nat.ltb_spec 50 (List.length (item :: h))) as [Hgt|Hle].
  - rewrite removelast_firstn_len. cbn [List.length] in Hgt |- *.
    now replace (Nat.pred (S (List.length h))) with 50 by lia.
  - symmetry. apply firstn_all2. exact Hle.
Qed.

Lemma addToHistory_history (expression : string) (result : jsval) (s : App.state) :
  List.length (App.history s) <= 50 ->
  App.history (App.addToHistory H expression result s)
  = firstn 50 ((expression, result) :: App.history s).
Proof. intro Hlen. exact (kept_firstn (expression, result) _ Hlen). Qed.

Lemma addToHistory_consistent (expression : string) (result : jsval) (s : App.state) :
  List.length (App.history s) <= 50 ->
  App.consistent H (App.addToHistory H expression result s).
Proof.
  intro Hlen. split; [|reflexivity].
  rewrite (addToHistory_history expression result s Hlen). rewrite length_firstn. lia.
Qed.

Lemma handleMemory_frame (key : string) (s : App.state) :
  App.history (App.handleMemory H key s) = App.history s /\
  App.historyList (App.handleMemory H key s) = App.historyList s /\
  App.historyDisplay (App.handleMemory H key s) = App.historyDisplay s /\
  App.isRadian (App.handleMemory H key s) = App.isRadian s.
Proof.
  unfold App.handleMemory.
  destruct (key =? "m+"), (key =? "m-"), (key =? "mc"), (key =? "mr"); repeat split.
Qed.

Lemma handleInput_consistent (key : string) (s s' : App.state) :
  App.consistent H s -> App.handleInput M H fuel key s = Some s' -> App.consistent H s'.
Proof.
  intros [Hlen Hlist]. unfold App.handleInput.
  destruct ((key =? "=") || (key =? "Enter")).
  { unfold App.evaluateExpression.
    destruct (parseAndEvaluate M (App.isRadian s) fuel (App.display s)) as [v|msg|];
      intro E; [|injection E as <-; now split|discriminate].
    injection E as <-. now apply addToHistory_consistent. }
  destruct ((key =? "C") || (key =? "Escape")); [intro E; injection E as <-; now split|].
  destruct (key =? "Backspace"); [intro E; injection E as <-; now split|].
  destruct ((key =? "m+") || (key =? "m-") || (key =? "mc") || (key =? "mr"));
    intro E; injection E as <-; [|now split].
  destruct (handleMemory_frame key s) as (Eh & El & _).
  unfold App.consistent. now rewrite Eh, El.
Qed.

Lemma handle_consistent (e : App.event) (s s' : App.state) :
  App.consistent H s -> App.handle M H fuel e s = Some s' -> App.consistent H s'.
Proof.
  intro Hs. destruct e as [key| |checked|text]; cbn [App.handle].
  - exact (handleInput_consistent key s s' Hs).
  - intro E. injection E as <-. split; [cbn; lia|reflexivity].
  - intro E. injection E as <-. exact Hs.
  - intro E. injection E as <-. exact Hs.
Qed.

Lemma initial_consistent : App.consistent H App.initial.
Proof. split; [cbn; lia|reflexivity]. Qed.

(** X14: Whatever the user does, the history never holds more than 50 entries
    and the list of the page shows exactly the entries it holds: every
    handler keeps both, from the page as loaded on. *)
Theorem history_bounded (events : list App.event) (s' : App.state) :
  App.run M H fuel events App.initial = Some s' ->
  List.length (App.history s') <= 50 /\
  App.historyList s' = App.renderHistory H (App.history s').
Proof.
  assert (G : forall s, App.consistent H s ->
                        App.run M H fuel events s = Some s' -> App.consistent H s').
  { induction events as [|e rest IH]; intros s Hs; cbn [App.run].
    - intro E. injection E as <-. exact Hs.
    - destruct (App.handle M H fuel e s) as [s1|] eqn:E1; [|discriminate].
      exact (IH s1 (handle_consistent e s s1 Hs E1)). }
  exact (G App.initial initial_consistent).
Qed.

Lemma firstn_app_firstn {A : Type} (n : nat) (a b : list A) :
  firstn n (a ++ firstn n b) = firstn n (a ++ b).
Proof.
  rewrite !firstn_app, firstn_firstn. f_equal. f_equal. lia.
Qed.

(** X15: After any number of results the history holds the 50 most recent
    entries, the newest first: the entries added, in reverse, before those
    it held, cut after the fiftieth. *)
Theorem history_most_recent (items : list (string * jsval)) :
  forall s : App.state,
    List.length (App.history s) <= 50 ->
    App.history (fold_left (fun st item => App.addToHistory H (fst item) (snd item) st) items s)
    = firstn 50 (rev items ++ App.history s).
Proof.
  induction items as [|[expression result] rest IH]; intros s Hlen.
  - cbn [fold_left rev app]. symmetry. now apply firstn_all2.
  - cbn [fold_left fst snd].
    rewrite IH by (apply addToHistory_consistent; exact Hlen).
    rewrite (addToHistory_history expression result s Hlen), firstn_app_firstn.
    cbn [rev]. now rewrite <- app_assoc.
Qed.

(** X16: An error message is text of the display like any other: an evaluation
    that fails changes nothing but the display, and the next one evaluates
    the message itself, which, whichever of the two it is, gives 'Invalid
    operator'. *)
Theorem error_is_evaluated (s : App.state) (msg : string) :
  parseAndEvaluate M (App.isRadian s) fuel (App.display s) = Throws msg ->
  App.handleInput M H fuel "=" s = Some (App.set_display msg s) /\
  App.handleInput M H fuel "=" (App.set_display msg s)
  = Some (App.set_display "Invalid operator" s).
Proof.
  intro E. unfold App.handleInput. cbn [String.eqb Ascii.eqb Bool.eqb orb].
  unfold App.evaluateExpression. rewrite E. split; [reflexivity|].
  assert (Hmsg : known_message msg).
  { unfold parseAndEvaluate, evaluatePostfix in E.
    destruct (evalTokens M (App.isRadian s) fuel [] (toPostfix (tokenize (App.display s))))
      as [stack|m|] eqn:E1; cbn [bind] in E; try discriminate E.
    injection E as <-. exact (evalTokens_throws M _ fuel _ _ _ E1). }
  cbn [App.set_display App.display App.isRadian].
  destruct Hmsg as [-> | ->].
  - change (parseAndEvaluate M (App.isRadian s) fuel "Invalid operator")
      with (@Throws jsval "Invalid operator"). reflexivity.
  - change (parseAndEvaluate M (App.isRadian s) fuel "Invalid factorial")
      with (@Throws jsval "Invalid operator"). reflexivity.
Qed.

Lemma handleMemory_memory (key : string) (s : App.state) :
  App.memory (App.handleMemory H key s) = App.memory s \/
  key = "m+" \/ key = "m-" \/ key = "mc".
Proof.
  unfold App.handleMemory.
  destruct (key =? "m+") eqn:E1; [apply String.eqb_eq in E1; auto|].
  destruct (key =? "m-") eqn:E2; [apply String.eqb_eq in E2; auto|].
  destruct (key =? "mc") eqn:E3; [apply String.eqb_eq in E3; auto|].
  left. now destruct (key =? "mr").
Qed.

(** X17: What each event can change.  The history and its list change only on
    the clear-history button and on an evaluation ([=] or [Enter]); the
    memory only on the keys [m+], [m-] and [mc]; the angle mode only on the
    toggle; the line above the display only on an evaluation and on a
    clearing of the display ([C] or [Escape]). *)
Theorem handlers_frame (e : App.event) (s s' : App.state) :
  App.handle M H fuel e s = Some s' ->
  ((App.history s' = App.history s /\ App.historyList s' = App.historyList s) \/
   e = App.ClearHistory \/ e = App.Input "=" \/ e = App.Input "Enter") /\
  (App.memory s' = App.memory s \/
   e = App.Input "m+" \/ e = App.Input "m-" \/ e = App.Input "mc") /\
  (App.isRadian s' = App.isRadian s \/ exists checked, e = App.Toggle checked) /\
  (App.historyDisplay s' = App.historyDisplay s \/
   e = App.Input "=" \/ e = App.Input "Enter" \/ e = App.Input "C" \/ e = App.Input "Escape").
Proof.
  destruct e as [key| |checked|text]; cbn [App.handle];
    [|intro E; injection E as <-; repeat split; eauto..].
  unfold App.handleInput.
  destruct (key =? "=") eqn:K1.
  { apply String.eqb_eq in K1. subst key. cbn [orb]. unfold App.evaluateExpression.
    destruct (parseAndEvaluate M (App.isRadian s) fuel (App.display s));
      intro E; [injection E as <-|injection E as <-|discriminate]; repeat split; auto. }
  destruct (key =? "Enter") eqn:K2.
  { apply String.eqb_eq in K2. subst key. cbn [orb]. unfold App.evaluateExpression.
    destruct (parseAndEvaluate M (App.isRadian s) fuel (App.display s));
      intro E; [injection E as <-|injection E as <-|discriminate]; repeat split; auto 6. }
  cbn [orb].
  destruct (key =? "C") eqn:K3.
  { apply String.eqb_eq in K3. subst key. cbn [orb]. intro E. injection E as <-.
    repeat split; auto 6. }
  destruct (key =? "Escape") eqn:K4.
  { apply String.eqb_eq in K4. subst key. cbn [orb]. intro E. injection E as <-.
    repeat split; auto 6. }
  cbn [orb].
  destruct (key =? "Backspace"); [intro E; injection E as <-; repeat split; auto|].
  destruct ((key =? "m+") || (key =? "m-") || (key =? "mc") || (key =? "mr"));
    intro E; injection E as <-; [|repeat split; auto].
  destruct (handleMemory_frame key s) as (Eh & El & Ed & Er).
  destruct (handleMemory_memory key s) as [Em | [ -> | [ -> | -> ]]];
    (split; [left; now split|]); (split; [auto|]); split; auto.
Qed.

End Page.

Lemma handlers_frame_witness :
  App.handle sample_math App.sample_host 0 (App.Input "m+") App.sample_page
  = Some (App.handleMemory App.sample_host "m+" App.sample_page) /\
  ((App.history (App.handleMemory App.sample_host "m+" App.sample_page)
    = App.history App.sample_page /\
    App.historyList (App.handleMemory App.sample_host "m+" App.sample_page)
    = App.historyList App.sample_page) \/
   App.Input "m+" = App.ClearHistory \/ App.Input "m+" = App.Input "=" \/
   App.Input "m+" = App.Input "Enter") /\
  (App.memory (App.handleMemory App.sample_host "m+" App.sample_page)
   = App.memory App.sample_page \/
   App.Input "m+" = App.Input "m+" \/ App.Input "m+" = App.Input "m-" \/
   App.Input "m+" = App.Input "mc") /\
  (App.isRadian (App.handleMemory App.sample_host "m+" App.sample_page)
   = App.isRadian App.sample_page \/ exists checked, App.Input "m+" = App.Toggle checked) /\
  (App.historyDisplay (App.handleMemory App.sample_host "m+" App.sample_page)
   = App.historyDisplay App.sample_page \/
   App.Input "m+" = App.Input "=" \/ App.Input "m+" = App.Input "Enter" \/
   App.Input "m+" = App.Input "C" \/ App.Input "m+" = App.Input "Escape").
Proof.
  assert (E : App.handle sample_math App.sample_host 0 (App.Input "m+") App.sample_page
              = Some (App.handleMemory App.sample_host "m+" App.sample_page)) by reflexivity.
  exact (conj E (handlers_frame sample_math App.sample_host 0 _ _ _ E)).
Defined.

Lemma history_bounded_witness :
  App.run sample_math App.sample_host 0 App.sample_events App.initial = Some App.sample_page /\
  List.length (App.history App.sample_page) <= 50 /\
  App.historyList App.sample_page = App.renderHistory App.sample_host (App.history App.sample_page).
Proof.
  assert (E : App.run sample_math App.sample_host 0 App.sample_events App.initial
              = Some App.sample_page) by (vm_compute; reflexivity).
  exact (conj E (history_bounded sample_math App.sample_host 0 _ _ E)).
Defined.

Lemma history_most_recent_witness :
  List.length (App.history App.sample_page) <= 50 /\
  App.history (fold_left (fun st item => App.addToHistory App.sample_host (fst item) (snd item) st)
                         [("1", Num 1%float); ("2", Num 2%float)] App.sample_page)
  = firstn 50 (rev [("1", Num 1%float); ("2", Num 2%float)] ++ App.history App.sample_page).
Proof.
  assert (Hlen : List.length (App.history App.sample_page) <= 50) by (cbn; lia).
  exact (conj Hlen (history_most_recent App.sample_host _ App.sample_page Hlen)).
Defined.

Lemma error_is_evaluated_witness :
  parseAndEvaluate sample_math (App.isRadian (App.set_display "(2" App.initial)) 0
                   (App.display (App.set_display "(2" App.initial))
  = Throws "Invalid operator" /\
  App.handleInput sample_math App.sample_host 0 "=" (App.set_display "(2" App.initial)
  = Some (App.set_display "Invalid operator" (App.set_display "(2" App.initial)) /\
  App.handleInput sample_math App.sample_host 0 "="
                  (App.set_display "Invalid operator" (App.set_display "(2" App.initial))
  = Some (App.set_display "Invalid operator" (App.set_display "(2" App.initial)).
Proof.
  assert (E : parseAndEvaluate sample_math (App.isRadian (App.set_display "(2" App.initial)) 0
                               (App.display (App.set_display "(2" App.initial))
              = Throws "Invalid operator") by reflexivity.
  exact (conj E (error_is_evaluated sample_math App.sample_host 0 _ _ E)).
Defined.

(** ** A line of the history, clicked *)

Lemma trim_examples :
  App.trim "  2+3 " = "2+3" /\
  App.trim (String (ascii_of_nat 194) (String (ascii_of_nat 160) "1 2")
            ++ String (ascii_of_nat 226) (String (ascii_of_nat 128) (String (ascii_of_nat 137) "")))
  = "1 2" /\
  App.trim (String (ascii_of_nat 9) (String (ascii_of_nat 10) " ")) = "" /\
  App.trim pi_sym = pi_sym.
Proof. repeat split; reflexivity. Qed.

Lemma ws2_space (c1 : ascii) : App.ws2 c1 " " = false.
Proof. unfold App.ws2. apply andb_false_r. Qed.

Lemma ws3_space (c1 c2 : ascii) : App.ws3 c1 c2 " " = false.
Proof.
  unfold App.ws3. generalize (nat_of_ascii c1) (nat_of_ascii c2). intros n1 n2.
  change (nat_of_ascii " ") with 32. cbn [Nat.eqb Nat.leb andb orb].
  now rewrite !andb_false_r.
Qed.

Lemma strip_ws_space (y : string) :
  y <> EmptyString -> App.strip_ws y = None -> App.strip_ws (y ++ " ") = None.
Proof.
  intros Hy. destruct y as [|c1 [|c2 [|c3 r]]]; [contradiction|..];
    cbn [App.strip_ws String.append].
  - destruct (App.ws1 c1); [discriminate|]. intros _. now rewrite ws2_space.
  - destruct (App.ws1 c1); [discriminate|]. destruct (App.ws2 c1 c2); [discriminate|].
    intros _. now rewrite ws3_space.
  - destruct (App.ws1 c1); [discriminate|]. destruct (App.ws2 c1 c2); [discriminate|].
    destruct (App.ws3 c1 c2 c3); [discriminate|reflexivity].
Qed.

Lemma strip_ws_more (y rest : string) :
  App.strip_ws y = Some rest -> App.strip_ws (y ++ " ") = Some (rest ++ " ")%string.
Proof.
  destruct y as [|c1 [|c2 [|c3 r]]]; cbn [App.strip_ws String.append]; try discriminate.
  - destruct (App.ws1 c1); [|discriminate]. intro E. now injection E as <-.
  - destruct (App.ws1 c1); [intro E; now injection E as <-|].
    destruct (App.ws2 c1 c2); [|discriminate]. intro E. now injection E as <-.
  - destruct (App.ws1 c1); [intro E; now injection E as <-|].
    destruct (App.ws2 c1 c2); [intro E; now injection E as <-|].
    destruct (App.ws3 c1 c2 c3); [|discriminate]. intro E. now injection E as <-.
Qed.

Lemma strip_ws_length (y rest : string) :
  App.strip_ws y = Some rest -> String.length rest < String.length y.
Proof.
  destruct y as [|c1 [|c2 [|c3 r]]]; cbn [App.strip_ws String.length]; try discriminate.
  - destruct (App.ws1 c1); [|discriminate]. intro E. injection E as <-. cbn. lia.
  - destruct (App.ws1 c1); [intro E; injection E as <-; cbn; lia|].
    destruct (App.ws2 c1 c2); [|discriminate]. intro E. injection E as <-. cbn. lia.
  - destruct (App.ws1 c1); [intro E; injection E as <-; cbn; lia|].
    destruct (App.ws2 c1 c2); [intro E; injection E as <-; cbn; lia|].
    destruct (App.ws3 c1 c2 c3); [|discriminate]. intro E. injection E as <-. lia.
Qed.

Lemma drop_ws_length (n : nat) :
  forall y, App.drop_ws n y = y \/ String.length (App.drop_ws n y) < String.length y.
Proof.
  induction n as [|n IH]; intro y; cbn [App.drop_ws]; [now left|].
  destruct (App.strip_ws y) as [rest|] eqn:E; [|now left].
  right. apply strip_ws_length in E. destruct (IH rest) as [-> | Hlt]; lia.
Qed.

Lemma trim_end_length (y : string) :
  App.trim_end y = y \/ String.length (App.trim_end y) < String.length y.
Proof.
  induction y as [|c r IH]; [now left|]. cbn [App.trim_end].
  destruct (App.trim_start (String c r) =? EmptyString); [right; cbn; lia|].
  destruct IH as [-> | Hlt]; [now left|right; cbn [String.length]; lia].
Qed.

Lemma trim_fixed (e : string) :
  App.trim e = e -> App.trim_start e = e /\ App.trim_end e = e.
Proof.
  unfold App.trim, App.trim_start. intro Ht.
  destruct (drop_ws_length (String.length e) e) as [Hs|Hs].
  - rewrite Hs in Ht. now split.
  - destruct (trim_end_length (App.drop_ws (String.length e) e)) as [He|He].
    + rewrite He in Ht. rewrite Ht in Hs. lia.
    + rewrite Ht in He. lia.
Qed.

Lemma trim_start_fixed (e : string) :
  e <> EmptyString -> App.trim_start e = e -> App.strip_ws e = None.
Proof.
  intros He Ht. unfold App.trim_start in Ht. destruct e as [|c r]; [contradiction|].
  cbn [String.length App.drop_ws] in Ht.
  destruct (App.strip_ws (String c r)) as [rest|] eqn:E; [|reflexivity].
  apply strip_ws_length in E.
  destruct (drop_ws_length (String.length r) rest) as [Hd|Hd]; rewrite Ht in Hd.
  - rewrite <- Hd in E. lia.
  - lia.
Qed.

Lemma drop_ws_space (n : nat) :
  forall (y : string) (m : nat),
    String.length y <= n -> App.drop_ws n y <> EmptyString -> String.length y < m ->
    App.drop_ws m (y ++ " ") <> EmptyString.
Proof.
  induction n as [|n IH]; intros y m Hlen Hne Hm.
  - destruct y; [now elim Hne|cbn in Hlen; lia].
  - destruct m as [|m]; [lia|]. cbn [App.drop_ws] in Hne |- *.
    destruct (App.strip_ws y) as [rest|] eqn:E.
    + rewrite (strip_ws_more y rest E). pose proof (strip_ws_length y rest E) as Hr.
      apply (IH rest m); [lia|exact Hne|lia].
    + rewrite (strip_ws_space y Hne E). destruct y; [now elim Hne|discriminate].
Qed.

Lemma trim_end_space (y : string) : App.trim_end y = y -> App.trim_end (y ++ " ") = y.
Proof.
  induction y as [|c r IH]; [reflexivity|]. cbn [App.trim_end String.append].
  destruct (App.trim_start (String c r) =? EmptyString) eqn:E; [discriminate|].
  intro Hr. injection Hr as Hr. apply String.eqb_neq in E.
  assert (E' : App.trim_start (String c (r ++ " ")) <> EmptyString).
  { unfold App.trim_start in E |- *.
    apply (drop_ws_space (String.length (String c r)) (String c r)); [lia|exact E|].
    cbn [String.length]. rewrite string_length_app. cbn. lia. }
  apply String.eqb_neq in E'. rewrite E'. now rewrite (IH Hr).
Qed.

Lemma trim_space (e : string) : App.trim e = e -> App.trim (e ++ " ") = e.
Proof.
  intro Ht. destruct (trim_fixed e Ht) as [Hs He].
  destruct e as [|c r]; [reflexivity|].
  assert (Hne : String c r <> EmptyString) by discriminate.
  pose proof (strip_ws_space _ Hne (trim_start_fixed _ Hne Hs)) as Hn.
  unfold App.trim. replace (App.trim_start (String c r ++ " ")) with (String c r ++ " ")%string.
  - exact (trim_end_space _ He).
  - unfold App.trim_start. cbn [String.append String.length App.drop_ws] in Hn |- *.
    now rewrite Hn.
Qed.

Lemma before_equals_line (e r : string) :
  App.before_equals e = e -> App.before_equals (e ++ " = " ++ r) = (e ++ " ")%string.
Proof.
  induction e as [|c e IH]; [reflexivity|]. cbn [App.before_equals String.append].
  destruct (Ascii.eqb c "="); [discriminate|]. intro E. injection E as E.
  f_equal. exact (IH E).
Qed.

(** X18: Clicking a line of the history brings its expression back: for a line
    that reads as [renderHistory] writes it, the expression, a space, an
    equals sign, a space and the result, the display receives the
    expression, provided the expression has no equals sign and no white
    space at either end. *)
Theorem history_click_restores (e r : string) (s : App.state) :
  App.before_equals e = e -> App.trim e = e ->
  App.display (App.onHistoryClick (e ++ " = " ++ r) s) = e.
Proof.
  intros He Ht. unfold App.onHistoryClick, App.set_display. cbn [App.display].
  rewrite (before_equals_line e r He). exact (trim_space e Ht).
Qed.

Lemma history_click_restores_witness :
  App.before_equals "2+3" = "2+3" /\ App.trim "2+3" = "2+3" /\
  App.display (App.onHistoryClick ("2+3" ++ " = " ++ "5") App.initial) = "2+3".
Proof.
  assert (H1 : App.before_equals "2+3" = "2+3") by reflexivity.
  assert (H2 : App.trim "2+3" = "2+3") by reflexivity.
  exact (conj H1 (conj H2 (history_click_restores "2+3" "5" App.initial H1 H2))).
Defined.
